(** * git-commit-mining: the incremental history-analysis engine

    A shallow embedding of [gitlyze.py], [gitanalyses.py], [levenshtein.py],
    [sizeandcomplexity.py], [AnnotatedCommit.py] and
    [find-complex-functions.py].

    Python integers are unbounded, so every number is a [Z]; a float that
    holds a whole number is the [Z] of its value, and the operations that
    round are written out.  A [string] is the text of a Python [str], one
    element for each character: the characters are those up to U+00FF,
    and its length is the [len] of the [str].  Dictionaries
    are [gmap]s and [for k, v in d.items()] runs over [map_to_list d]; sets
    are [gset]s.  [AnnotatedCommit] objects are shared and mutated in place
    by the analyzers, so they live in a heap (a list addressed by index) and
    [previous]/[next] hold references into it.  A Python exception is the
    [None] of an [option]; [sys.exit] is the [Halt] of a [Run]. *)

From Stdlib Require Import ZArith String Ascii List Bool Lia.
From stdpp Require Import base option list sorting gmap strings fin_maps fin_sets.

Local Open Scope string_scope.
Local Open Scope list_scope.
Local Open Scope Z_scope.

Set Warnings "-register-all,-clear-no-such-hyp".

(** ** Objects handed out by the version-control provider (GitPython) *)

(** One entry of [f.function_list] as the complexity parser reports it. *)
Record FunctionInfo := mkFunctionInfo {
  fi_name : string;
  nloc : Z;
  cyclomatic_complexity : Z
}.

(** A blob: [blob.path], [blob.name] and the text that
    [blob.data_stream.read().decode(codec, errorHandler)] yields, character
    by character. *)
Record Blob := mkBlob {
  blob_path : string;
  blob_name : string;
  blob_text : string
}.

(** A tree: [tree.blobs] and [tree.trees]. *)
Inductive Tree := mkTree {
  tree_blobs : list Blob;
  tree_trees : list Tree
}.

(** One file-level diff of [commitA.diff(commitB)]. *)
Record Diff := mkDiff {
  change_type : string;
  a_path : string;
  b_path : string;
  a_blob : option Blob;
  b_blob : option Blob
}.

(** A commit: [str(commit)], [commit.author.name], [commit.committed_date],
    [commit.parents], [commit.tree], and [commit.parents[0].diff(commit)],
    which git derives from the commit and its first parent. *)
Inductive Commit := mkCommit {
  hexsha : string;
  author_name : string;
  committed_date : Z;
  parents : list Commit;
  tree : Tree;
  parent_diff : list Diff
}.

(** ** The collaborators the engine calls but does not define *)

Class External := {
  (** [extensions.extension_supported(path)] *)
  extension_supported : string -> bool;
  (** [filters.filter_match(commit, filtered_authors, filtered_commits)] *)
  filter_match : Commit -> list string -> list string -> bool;
  (** [lizard...analyze_source_code(name, content).function_list] *)
  analyze_source_code : string -> string -> list FunctionInfo;
  (** [editdistance.eval(a, b)] *)
  editdistance_eval : string -> string -> Z;
  (** the decoded output of [git --no-pager diff file_a file_b], which
      [subprocess.check_output] returns; [None] when the command exits
      with an error and [CalledProcessError] is raised *)
  git_diff : string -> string -> option string;
  (** [secondsToIso(seconds)], that is
      [datetime.date.fromtimestamp(seconds).isoformat()]; [None] when the
      timestamp is out of the range of dates and [fromtimestamp] raises *)
  secondsToIso : Z -> option string
}.

(** ** Python string helpers *)

Definition newline : ascii := "010"%char.

(** [s.split("\n")] *)
Fixpoint split_lines (s : string) : list string :=
  match s with
  | EmptyString => [EmptyString]
  | String c rest =>
      if Ascii.eqb c newline then EmptyString :: split_lines rest
      else match split_lines rest with
           | l :: ls => String c l :: ls
           | [] => [String c EmptyString]
           end
  end.

(** [s.startswith(p)] *)
Definition startswith (s p : string) : bool := String.prefix p s.

(** [s[1:]] *)
Definition drop_first (s : string) : string :=
  match s with
  | EmptyString => EmptyString
  | String _ rest => rest
  end.

(** [len(s)] *)
Definition len (s : string) : Z := Z.of_nat (String.length s).

(** ** Python numbers *)

(** The integer nearest to [a / b], the even one of two that are equally
    near, for [0 <= a] and [0 < b]. *)
Definition round_half_even (a b : Z) : Z :=
  let q := a / b in
  let r := a mod b in
  if 2 * r <? b then q
  else if b <? 2 * r then q + 1
  else if Z.even q then q else q + 1.

(** [int(a / b)] for integers [0 <= a] and [0 < b].  [a / b] is the float
    nearest to the quotient, a double with 53 significant bits, ties going
    to the even significand, and [int] cuts off its fraction.  A quotient
    below 1 becomes [1.0] from [1 - 2^-54] on; one of [l + 1] bits before
    the point keeps [52 - l] bits behind it. *)
Definition int_truediv_nonneg (a b : Z) : Z :=
  if a <? b then
    if b * (2 ^ 54 - 1) <=? a * 2 ^ 54 then 1 else 0
  else
    let l := Z.log2 (a / b) in
    if l <=? 52 then round_half_even (a * 2 ^ (52 - l)) b / 2 ^ (52 - l)
    else round_half_even a (b * 2 ^ (l - 52)) * 2 ^ (l - 52).

(** [int(a / b)] for integers [a] and [0 < b]; rounding and cutting off
    are symmetric around 0.  Python raises [OverflowError] where the
    quotient reaches [2^1024], which no difference of timestamps does. *)
Definition int_truediv (a b : Z) : Z :=
  if 0 <=? a then int_truediv_nonneg a b else - int_truediv_nonneg (- a) b.

(** The float nearest to the whole number [x], ties going to the even
    significand; it is a whole number itself.  Up to 53 bits are kept. *)
Definition round_to_double (x : Z) : Z :=
  let l := Z.log2 (Z.abs x) in
  if l <=? 52 then x
  else Z.sgn x * (round_half_even (Z.abs x) (2 ^ (l - 52)) * 2 ^ (l - 52)).

(** The float that an integer operand of a float operation is converted
    to; [None] at the [OverflowError] of an integer beyond the largest
    double. *)
Definition float_of_int (k : Z) : option Z :=
  let y := round_to_double k in
  if Z.abs y <? 2 ^ 1024 then Some y else None.

(** ** levenshtein.py *)

Section Levenshtein.
Context `{!External}.

(** [blob_size] *)
Definition blob_size (blob : Blob) : Z := len (blob_text blob).

(** The local variables of the loop of [blob_delta]. *)
Record DeltaState := mkDeltaState {
  aggregatedDistance : Z;
  contentA : string;
  contentB : string;
  previous_line_was_plus : bool
}.

(** One iteration of [for line in diff.split("\n")]. *)
Definition blob_delta_step (st : DeltaState) (line : string) : DeltaState :=
  if startswith line "---" || startswith line "+++" then st
  else
    let cA := if startswith line "-" then contentA st +:+ drop_first line
              else contentA st in
    if startswith line "+" then
      mkDeltaState (aggregatedDistance st) cA (contentB st +:+ drop_first line) true
    else if previous_line_was_plus st then
      mkDeltaState (aggregatedDistance st + editdistance_eval cA (contentB st))
                   EmptyString EmptyString false
    else
      mkDeltaState (aggregatedDistance st) cA (contentB st)
                   (previous_line_was_plus st).

(** [blob_delta], after the diff text has been obtained. *)
Definition blob_delta_of_text (diff : string) : Z :=
  let st := fold_left blob_delta_step (split_lines diff)
                      (mkDeltaState 0 EmptyString EmptyString false) in
  aggregatedDistance st + editdistance_eval (contentA st) (contentB st).

(** [blob_delta(file_a, file_b)]; [None] when [git diff] fails. *)
Definition blob_delta (file_a file_b : string) : option Z :=
  blob_delta_of_text <$> git_diff file_a file_b.

(** One iteration of [for diff in diffs] in [commitDistance]; [parent] is
    [commit.parents[0]]. *)
Definition commitDistance_step (parent commit : Commit)
    (aggregated_delta : Z) (diff : Diff) : option Z :=
  d1 ← (if String.eqb (change_type diff) "A" then
          if extension_supported (b_path diff) then
            blob ← b_blob diff; Some (aggregated_delta + blob_size blob)
          else Some aggregated_delta
        else Some aggregated_delta);
  d2 ← (if String.eqb (change_type diff) "M"
           || startswith (change_type diff) "R" then
          if extension_supported (b_path diff) then
            delta ← blob_delta (hexsha parent +:+ ":" +:+ a_path diff)
                               (hexsha commit +:+ ":" +:+ b_path diff);
            Some (d1 + delta)
          else Some d1
        else Some d1);
  if String.eqb (change_type diff) "D" then
    if extension_supported (a_path diff) then
      blob ← a_blob diff; Some (d2 + blob_size blob)
    else Some d2
  else Some d2.

(** [commitDistance(commit)]; [None] when [commit.parents[0]] or a blob
    that is read does not exist, or when [git diff] fails. *)
Definition commitDistance (commit : Commit) : option Z :=
  parent ← head (parents commit);
  foldl (fun acc diff => a ← acc; commitDistance_step parent commit a diff)
        (Some 0) (parent_diff commit).

End Levenshtein.

(** ** sizeandcomplexity.py *)

(** Modelled from the spec: the class [BlobStats] of [BlobStats.py], which
    is imported by [sizeandcomplexity.py] but is not among the sources.  It
    holds lines-of-code, cyclomatic complexity and function count, all 0 in
    a new object ([blob_stats] only adds to them), and being a plain object
    it is always true in a condition, unlike the deletion marker [None]. *)
Module BlobStats.

Record t := mk {
  loc : Z;
  cyclomaticComplexity : Z;
  functions : Z
}.

(** [BlobStats()] *)
Definition new : t := mk 0 0 0.

End BlobStats.

(** A total of (loc, cyclomatic complexity, functions). *)
Definition Totals : Type := Z * Z * Z.

Definition totals_add (t : Totals) (bs : BlobStats.t) : Totals :=
  let '(l, c, f) := t in
  (l + BlobStats.loc bs, c + BlobStats.cyclomaticComplexity bs,
   f + BlobStats.functions bs).

Definition totals_sub (t : Totals) (bs : BlobStats.t) : Totals :=
  let '(l, c, f) := t in
  (l - BlobStats.loc bs, c - BlobStats.cyclomaticComplexity bs,
   f - BlobStats.functions bs).

(** Code that works on the baseline Tree Snapshot [previous_tree], a
    dictionary that is passed by reference: a computation gets the
    snapshot and returns its result and the snapshot it leaves, or [None]
    when it raises. *)
Definition TreeOp (A : Type) : Type :=
  gmap string BlobStats.t -> option (A * gmap string BlobStats.t).

Definition tree_ret {A} (a : A) : TreeOp A := fun t => Some (a, t).

Definition tree_bind {A B} (m : TreeOp A) (k : A -> TreeOp B) : TreeOp B :=
  fun t => match m t with
           | Some (a, t') => k a t'
           | None => None
           end.

#[global] Instance TreeOp_ret : MRet TreeOp := @tree_ret.
#[global] Instance TreeOp_bind : MBind TreeOp :=
  fun A B k m => tree_bind m k.

(** [path in previous_tree] *)
Definition tree_contains (path : string) : TreeOp bool :=
  fun t => Some (bool_decide (is_Some (t !! path)), t).

(** [previous_tree[path]], a [KeyError] when the path is absent *)
Definition tree_getitem (path : string) : TreeOp BlobStats.t :=
  fun t => match t !! path with
           | Some bs => Some (bs, t)
           | None => None
           end.

(** [previous_tree.pop(path, None)] *)
Definition tree_pop (path : string) : TreeOp unit :=
  fun t => Some (tt, delete path t).

(** [previous_tree[path] = blobstats] *)
Definition tree_setitem (path : string) (bs : BlobStats.t) : TreeOp unit :=
  fun t => Some (tt, <[path := bs]> t).

(** [for x in l: body], threading an accumulator. *)
Fixpoint tree_for {A B} (body : B -> A -> TreeOp B) (l : list A) (acc : B)
    : TreeOp B :=
  match l with
  | [] => tree_ret acc
  | x :: rest => acc' ← body acc x; tree_for body rest acc'
  end.

(** One iteration of the loop of [aggregate_delta]. *)
Definition aggregate_delta_step (acc : Totals)
    (item : string * option BlobStats.t) : TreeOp Totals :=
  let '(path, blobstats) := item in
  present ← tree_contains path;
  acc1 ← (if present : bool then
            old ← tree_getitem path; tree_ret (totals_sub acc old)
          else tree_ret acc);
  tree_ret (match blobstats with
            | Some bs => totals_add acc1 bs
            | None => acc1
            end).

(** [aggregate_delta(previous_tree, delta_tree)] *)
Definition aggregate_delta (delta_tree : gmap string (option BlobStats.t))
    : TreeOp Totals :=
  tree_for aggregate_delta_step (map_to_list delta_tree) (0, 0, 0).

(** One iteration of the loop of [apply_delta_to_tree]. *)
Definition apply_delta_step (_ : unit) (item : string * option BlobStats.t)
    : TreeOp unit :=
  let '(path, blobstats) := item in
  match blobstats with
  | None => tree_pop path
  | Some bs => tree_setitem path bs
  end.

(** [apply_delta_to_tree(previous_tree, tree_delta)] *)
Definition apply_delta_to_tree (tree_delta : gmap string (option BlobStats.t))
    : TreeOp unit :=
  tree_for apply_delta_step (map_to_list tree_delta) tt.

(** [aggregate_stats_from_blobs(blobs)] *)
Definition aggregate_stats_from_blobs (blobs : gmap string BlobStats.t)
    : Totals :=
  foldl (fun acc item => totals_add acc (snd item)) (0, 0, 0)
        (map_to_list blobs).

Section SizeAndComplexity.
Context `{!External}.

(** [blob_stats(blob)] *)
Definition blob_stats (blob : Blob) : BlobStats.t :=
  foldl (fun bs function =>
           BlobStats.mk (BlobStats.loc bs + nloc function)
                        (BlobStats.cyclomaticComplexity bs
                         + cyclomatic_complexity function)
                        (BlobStats.functions bs + 1))
        BlobStats.new
        (analyze_source_code (blob_name blob) (blob_text blob)).

(** [all_blobs_in_tree(tree)]; [blobs.update(m)] is [m ∪ blobs]. *)
Fixpoint all_blobs_in_tree (t : Tree) : gmap string Blob :=
  let own := foldl (fun blobs blob =>
                      if extension_supported (blob_path blob)
                      then <[blob_path blob := blob]> blobs else blobs)
                   ∅ (tree_blobs t) in
  foldl (fun blobs subtree => all_blobs_in_tree subtree ∪ blobs)
        own (tree_trees t).

(** [analyze_tree(tree)] *)
Fixpoint analyze_tree (t : Tree) : gmap string BlobStats.t :=
  let own := foldl (fun blobs blob =>
                      if extension_supported (blob_path blob)
                      then <[blob_path blob := blob_stats blob]> blobs
                      else blobs)
                   ∅ (tree_blobs t) in
  foldl (fun blobs subtree => analyze_tree subtree ∪ blobs)
        own (tree_trees t).

(** [all_blobs_modified_by_commit(commit)] *)
Definition all_blobs_modified_by_commit (commit : Commit)
    : option (gmap string Blob) :=
  _ ← head (parents commit);
  Some (foldl (fun blobs diff =>
                 match b_blob diff with
                 | Some blob =>
                     if extension_supported (blob_path blob)
                     then <[blob_path blob := blob]> blobs else blobs
                 | None => blobs
                 end)
              ∅ (parent_diff commit)).

(** One iteration of the loop of [tree_delta]; [None] when the blob that
    is measured does not exist. *)
Definition tree_delta_step (tree_delta : gmap string (option BlobStats.t))
    (diff : Diff) : option (gmap string (option BlobStats.t)) :=
  d1 ← (if String.eqb (change_type diff) "A"
           || String.eqb (change_type diff) "M" then
          if extension_supported (b_path diff) then
            blob ← b_blob diff;
            Some (<[b_path diff := Some (blob_stats blob)]> tree_delta)
          else Some tree_delta
        else Some tree_delta);
  let d2 :=
    if String.eqb (change_type diff) "D" then
      if extension_supported (a_path diff)
      then <[a_path diff := None]> d1 else d1
    else d1 in
  if startswith (change_type diff) "R" then
    let d3 := if extension_supported (a_path diff)
              then <[a_path diff := None]> d2 else d2 in
    if extension_supported (b_path diff) then
      blob ← b_blob diff;
      Some (<[b_path diff := Some (blob_stats blob)]> d3)
    else Some d3
  else Some d2.

(** [tree_delta(commitB)]; a commit object is always true, so the branch
    taken is the diff against [commitB.parents[0]]. *)
Definition tree_delta (commitB : Commit)
    : option (gmap string (option BlobStats.t)) :=
  _ ← head (parents commitB);
  foldl (fun acc diff => d ← acc; tree_delta_step d diff)
        (Some ∅) (parent_diff commitB).

(** [calculate_function_complexities(tree)] *)
Definition calculate_function_complexities (blobs : gmap string Blob)
    : gmap string Z :=
  foldl (fun function_complexities item =>
           foldl (fun fc function =>
                    <[fst item +:+ "." +:+ fi_name function
                      := cyclomatic_complexity function]> fc)
                 function_complexities
                 (analyze_source_code (blob_name (snd item))
                                      (blob_text (snd item))))
        ∅ (map_to_list blobs).

End SizeAndComplexity.

(** ** AnnotatedCommit.py *)

(** A reference to an [AnnotatedCommit] object: its index in the heap. *)
Abbreviation ref := nat (only parsing).

Record AnnotatedCommit := mkAnnotatedCommit {
  commit : Commit;
  numberOfActiveDevelopers : option Z;
  daysSincePreviousCommitByDeveloper : option Z;
  numberOfCommitsInLast24h : option Z;
  levenshteinDistance : option Z;
  loc : option Z;
  deltaLoc : option Z;
  cyclomaticComplexity : option Z;
  deltaCyclomaticComplexity : option Z;
  increaseOfComplexityInComplexFunctions : option Z;
  decreaseOfComplexityInComplexFunctions : option Z;
  functions : option Z;
  deltaFunctions : option Z;
  previous : option ref;
  next : option ref
}.

(** [AnnotatedCommit(commit)] *)
Definition AnnotatedCommit_init (c : Commit) : AnnotatedCommit :=
  mkAnnotatedCommit c None None None None None None None None None None
                    None None None None.

Definition set_previous (v : option ref) (a : AnnotatedCommit) :=
  mkAnnotatedCommit (commit a) (numberOfActiveDevelopers a)
    (daysSincePreviousCommitByDeveloper a) (numberOfCommitsInLast24h a)
    (levenshteinDistance a) (loc a) (deltaLoc a) (cyclomaticComplexity a)
    (deltaCyclomaticComplexity a) (increaseOfComplexityInComplexFunctions a)
    (decreaseOfComplexityInComplexFunctions a) (functions a)
    (deltaFunctions a) v (next a).

Definition set_next (v : option ref) (a : AnnotatedCommit) :=
  mkAnnotatedCommit (commit a) (numberOfActiveDevelopers a)
    (daysSincePreviousCommitByDeveloper a) (numberOfCommitsInLast24h a)
    (levenshteinDistance a) (loc a) (deltaLoc a) (cyclomaticComplexity a)
    (deltaCyclomaticComplexity a) (increaseOfComplexityInComplexFunctions a)
    (decreaseOfComplexityInComplexFunctions a) (functions a)
    (deltaFunctions a) (previous a) v.

Definition set_numberOfActiveDevelopers (v : option Z) (a : AnnotatedCommit) :=
  mkAnnotatedCommit (commit a) v
    (daysSincePreviousCommitByDeveloper a) (numberOfCommitsInLast24h a)
    (levenshteinDistance a) (loc a) (deltaLoc a) (cyclomaticComplexity a)
    (deltaCyclomaticComplexity a) (increaseOfComplexityInComplexFunctions a)
    (decreaseOfComplexityInComplexFunctions a) (functions a)
    (deltaFunctions a) (previous a) (next a).

Definition set_daysSincePreviousCommitByDeveloper (v : option Z)
    (a : AnnotatedCommit) :=
  mkAnnotatedCommit (commit a) (numberOfActiveDevelopers a)
    v (numberOfCommitsInLast24h a)
    (levenshteinDistance a) (loc a) (deltaLoc a) (cyclomaticComplexity a)
    (deltaCyclomaticComplexity a) (increaseOfComplexityInComplexFunctions a)
    (decreaseOfComplexityInComplexFunctions a) (functions a)
    (deltaFunctions a) (previous a) (next a).

Definition set_numberOfCommitsInLast24h (v : option Z) (a : AnnotatedCommit) :=
  mkAnnotatedCommit (commit a) (numberOfActiveDevelopers a)
    (daysSincePreviousCommitByDeveloper a) v
    (levenshteinDistance a) (loc a) (deltaLoc a) (cyclomaticComplexity a)
    (deltaCyclomaticComplexity a) (increaseOfComplexityInComplexFunctions a)
    (decreaseOfComplexityInComplexFunctions a) (functions a)
    (deltaFunctions a) (previous a) (next a).

Definition set_levenshteinDistance (v : option Z) (a : AnnotatedCommit) :=
  mkAnnotatedCommit (commit a) (numberOfActiveDevelopers a)
    (daysSincePreviousCommitByDeveloper a) (numberOfCommitsInLast24h a)
    v (loc a) (deltaLoc a) (cyclomaticComplexity a)
    (deltaCyclomaticComplexity a) (increaseOfComplexityInComplexFunctions a)
    (decreaseOfComplexityInComplexFunctions a) (functions a)
    (deltaFunctions a) (previous a) (next a).

(** The six assignments [c.loc = ...] to [c.deltaFunctions = ...]; [abs]
    holds the absolute totals and [delta] the delta totals. *)
Definition set_size_and_complexity (abs delta : Totals) (a : AnnotatedCommit) :=
  let '(l, cc, f) := abs in
  let '(dl, dcc, df) := delta in
  mkAnnotatedCommit (commit a) (numberOfActiveDevelopers a)
    (daysSincePreviousCommitByDeveloper a) (numberOfCommitsInLast24h a)
    (levenshteinDistance a) (Some l) (Some dl) (Some cc)
    (Some dcc) (increaseOfComplexityInComplexFunctions a)
    (decreaseOfComplexityInComplexFunctions a) (Some f)
    (Some df) (previous a) (next a).

(** The three assignments of the baseline,
    [previous_commit.loc, ... = aggregate_stats_from_blobs(previous_tree)]. *)
Definition set_absolutes (abs : Totals) (a : AnnotatedCommit) :=
  let '(l, cc, f) := abs in
  mkAnnotatedCommit (commit a) (numberOfActiveDevelopers a)
    (daysSincePreviousCommitByDeveloper a) (numberOfCommitsInLast24h a)
    (levenshteinDistance a) (Some l) (deltaLoc a) (Some cc)
    (deltaCyclomaticComplexity a) (increaseOfComplexityInComplexFunctions a)
    (decreaseOfComplexityInComplexFunctions a) (Some f)
    (deltaFunctions a) (previous a) (next a).

Definition set_increaseOfComplexityInComplexFunctions (v : option Z)
    (a : AnnotatedCommit) :=
  mkAnnotatedCommit (commit a) (numberOfActiveDevelopers a)
    (daysSincePreviousCommitByDeveloper a) (numberOfCommitsInLast24h a)
    (levenshteinDistance a) (loc a) (deltaLoc a) (cyclomaticComplexity a)
    (deltaCyclomaticComplexity a) v
    (decreaseOfComplexityInComplexFunctions a) (functions a)
    (deltaFunctions a) (previous a) (next a).

Definition set_decreaseOfComplexityInComplexFunctions (v : option Z)
    (a : AnnotatedCommit) :=
  mkAnnotatedCommit (commit a) (numberOfActiveDevelopers a)
    (daysSincePreviousCommitByDeveloper a) (numberOfCommitsInLast24h a)
    (levenshteinDistance a) (loc a) (deltaLoc a) (cyclomaticComplexity a)
    (deltaCyclomaticComplexity a) (increaseOfComplexityInComplexFunctions a)
    v (functions a)
    (deltaFunctions a) (previous a) (next a).

(** The heap of [AnnotatedCommit] objects. *)
Abbreviation Heap := (list AnnotatedCommit) (only parsing).

(** [for x in l: body], where the body may raise. *)
Fixpoint for_each {A S} (body : S -> A -> option S) (l : list A) (s : S)
    : option S :=
  match l with
  | [] => Some s
  | x :: rest => s' ← body s x; for_each body rest s'
  end.

(** ** gitlyze.py: the Commit Chain Builder and the tabulation *)

(** Why a run halts in [error(message)], which prints and calls
    [sys.exit(1)]. *)
Inductive Failure :=
  | GitCommandFailed (e : string)
  | NoCommitsFound (branch : string) (startTime endTime : Z).

(** How a run ends: with a result, halted by [error], or with a Python
    exception that nothing catches. *)
Inductive Run (A : Type) :=
  | Done (a : A)
  | Halt (f : Failure)
  | Raise.
Arguments Done {A} a.
Arguments Halt {A} f.
Arguments Raise {A}.

(** A repository: [repo.iter_commits(branch)] yields the log, newest commit
    first, or raises [git.exc.GitCommandError]. *)
Record Repo := mkRepo {
  iter_commits : string -> string + list Commit
}.

Section Gitlyze.
Context `{!External}.

(** The condition under which [createDataSet] appends a commit to [data]. *)
Definition analyzable (startTime endTime : Z)
    (filtered_authors filtered_commits : list string) (c : Commit) : bool :=
  (committed_date c >? startTime) && (committed_date c <? endTime)
  && (length (parents c) =? 1)%nat
  && negb (filter_match c filtered_authors filtered_commits).

(** The variables of the loop of [createDataSet]. *)
Record ChainState := mkChainState {
  cs_heap : Heap;
  cs_data : list ref;
  cs_current : option ref
}.

(** One iteration of [for i in range(len(rawCommits))]. *)
Definition createDataSet_step (startTime endTime : Z)
    (filtered_authors filtered_commits : list string)
    (st : ChainState) (raw : Commit) : ChainState :=
  let previous := cs_current st in
  let current := length (cs_heap st) in
  let heap1 := cs_heap st ++ [set_previous previous (AnnotatedCommit_init raw)] in
  let heap2 := match previous with
               | Some p => alter (set_next (Some current)) p heap1
               | None => heap1
               end in
  let data := if analyzable startTime endTime filtered_authors
                            filtered_commits raw
              then cs_data st ++ [current] else cs_data st in
  mkChainState heap2 data (Some current).

(** The loop of [createDataSet] over [rawCommits]. *)
Definition build_chain (startTime endTime : Z)
    (filtered_authors filtered_commits : list string)
    (rawCommits : list Commit) : ChainState :=
  foldl (createDataSet_step startTime endTime filtered_authors filtered_commits)
        (mkChainState [] [] None) rawCommits.

(** [createDataSet]: the heap of linked records and [data], the
    references to the analyzable ones. *)
Definition createDataSet (repo : Repo) (branch : string)
    (startTime endTime activeCommitterInterval : Z)
    (filtered_authors filtered_commits : list string)
    : Run (Heap * list ref) :=
  match iter_commits repo branch with
  | inl e => Halt (GitCommandFailed e)
  | inr log =>
      let rawCommits := reverse log in
      let st := build_chain startTime endTime filtered_authors
                            filtered_commits rawCommits in
      if (length (cs_data st) =? 0)%nat
      then match secondsToIso startTime, secondsToIso endTime with
           | Some _, Some _ => Halt (NoCommitsFound branch startTime endTime)
           | _, _ => Raise
           end
      else Done (cs_heap st, cs_data st)
  end.

End Gitlyze.

(** ** gitanalyses.py *)

(** [60 * 60 * 24] *)
Definition day : Z := 60 * 60 * 24.

(** The loop [while previous is not None and
    previous.commit.committed_date > cutOff: ...; previous = previous.previous]
    shared by the three windowed analyzers.  [body] is what one iteration
    does with the visited commit; its boolean is [true] at a [break].
    [None] when a reference dangles or the fuel runs out. *)
Fixpoint walk_back {S} (fuel : nat) (heap : Heap) (cutOff : Z)
    (body : Commit -> S -> S * bool) (prev : option ref) (s : S) : option S :=
  match prev with
  | None => Some s
  | Some p =>
      pc ← heap !! p;
      if committed_date (commit pc) >? cutOff then
        let '(s', stop) := body (commit pc) s in
        if stop : bool then Some s'
        else match fuel with
             | O => None
             | S fuel' => walk_back fuel' heap cutOff body (previous pc) s'
             end
      else Some s
  end.

(** [analyzeNumberOfActiveDevelopers(data, activeCommitterInterval)] *)
Definition analyzeNumberOfActiveDevelopers (data : list ref)
    (activeCommitterInterval : Z) (heap : Heap) : option Heap :=
  for_each (fun h c =>
    ac ← h !! c;
    let cutOff := committed_date (commit ac) - activeCommitterInterval in
    committers ← walk_back (length h) h cutOff
                   (fun p (committers : gset string) =>
                      ({[author_name p]} ∪ committers, false))
                   (previous ac) ∅;
    Some (alter (set_numberOfActiveDevelopers
                   (Some (Z.of_nat (size committers)))) c h))
  data heap.

(** [analyzeDaysSincePreviousCommit(data, activeCommitterInterval)] *)
Definition analyzeDaysSincePreviousCommit (data : list ref)
    (activeCommitterInterval : Z) (heap : Heap) : option Heap :=
  for_each (fun h c =>
    ac ← h !! c;
    let cutOff := committed_date (commit ac) - activeCommitterInterval in
    found ← walk_back (length h) h cutOff
              (fun p (found : option Z) =>
                 if String.eqb (author_name p) (author_name (commit ac))
                 then (Some (int_truediv (committed_date (commit ac)
                                          - committed_date p) day), true)
                 else (found, false))
              (previous ac) None;
    Some (match found with
          | Some days =>
              alter (set_daysSincePreviousCommitByDeveloper (Some days)) c h
          | None => h
          end))
  data heap.

(** [analyzeNumberOfCommitsInSameDay(data)] *)
Definition analyzeNumberOfCommitsInSameDay (data : list ref) (heap : Heap)
    : option Heap :=
  for_each (fun h c =>
    ac ← h !! c;
    let cutOff := committed_date (commit ac) - day in
    n ← walk_back (length h) h cutOff (fun _ (n : Z) => (n + 1, false))
          (previous ac) 0;
    Some (alter (set_numberOfCommitsInLast24h (Some n)) c h))
  data heap.

Section GitAnalyses.
Context `{!External}.

(** [analyzeLevenshteinDistance(data)] *)
Definition analyzeLevenshteinDistance (data : list ref) (heap : Heap)
    : option Heap :=
  for_each (fun h c =>
    ac ← h !! c;
    match previous ac with
    | None => Some h
    | Some _ =>
        d ← commitDistance (commit ac);
        Some (alter (set_levenshteinDistance (Some d)) c h)
    end)
  data heap.

(** The variables of the loop of [analyzeSizeAndComplexity].  The object
    [previous_commit] refers to is first the baseline record, which only
    this function holds, and then a record of the heap. *)
Record SizeState := mkSizeState {
  ss_heap : Heap;
  ss_previous_tree : gmap string BlobStats.t;
  ss_previous_commit : AnnotatedCommit + ref
}.

(** The object [previous_commit] refers to. *)
Definition deref (h : Heap) (r : AnnotatedCommit + ref)
    : option AnnotatedCommit :=
  match r with
  | inl a => Some a
  | inr i => h !! i
  end.

(** One iteration of [for c in data] in [analyzeSizeAndComplexity]. *)
Definition analyzeSizeAndComplexity_step (st : SizeState) (c : ref)
    : option SizeState :=
  ac ← ss_heap st !! c;
  tree_delta ← tree_delta (commit ac);
  '(delta, t1) ← aggregate_delta tree_delta (ss_previous_tree st);
  pc ← deref (ss_heap st) (ss_previous_commit st);
  pl ← loc pc;
  pcc ← cyclomaticComplexity pc;
  pf ← functions pc;
  let '(delta_loc, delta_cyclomatic_complexity, delta_functions) := delta in
  let h := alter (set_size_and_complexity
                    (pl + delta_loc, pcc + delta_cyclomatic_complexity,
                     pf + delta_functions) delta) c (ss_heap st) in
  '(_, t2) ← apply_delta_to_tree tree_delta t1;
  Some (mkSizeState h t2 (inr c)).

(** The baseline of [analyzeSizeAndComplexity]: the record and the snapshot
    of [data[0].commit.parents[0]]. *)
Definition size_baseline (first : AnnotatedCommit)
    : option (AnnotatedCommit * gmap string BlobStats.t) :=
  parent ← head (parents (commit first));
  let previous_tree := analyze_tree (tree parent) in
  Some (set_absolutes (aggregate_stats_from_blobs previous_tree)
                      (AnnotatedCommit_init parent),
        previous_tree).

(** [analyzeSizeAndComplexity(data)] *)
Definition analyzeSizeAndComplexity (data : list ref) (heap : Heap)
    : option Heap :=
  match data with
  | [] => Some heap
  | first :: _ =>
      ac ← heap !! first;
      '(previous_commit, previous_tree) ← size_baseline ac;
      st ← for_each analyzeSizeAndComplexity_step data
              (mkSizeState heap previous_tree (inl previous_commit));
      Some (ss_heap st)
  end.

(** The truth value of an optional number in a condition: [None] and 0
    are false. *)
Definition truthy (v : option Z) : bool :=
  match v with
  | Some n => negb (n =? 0)
  | None => false
  end.

(** [x += d] when [x] is true, [x = d] otherwise. *)
Definition accumulate (v : option Z) (d : Z) : option Z :=
  if truthy v then (fun n => n + d) <$> v else Some d.

(** [update_complex_function_contribution_of_commit]; [commit] is a
    reference into the heap. *)
Definition update_complex_function_contribution_of_commit
    (previous_function_complexities : gmap string Z) (function : string)
    (complexity : Z) (commit : ref) (h : Heap) : Heap :=
  let previous_complexity :=
    match previous_function_complexities !! function with
    | Some v => v
    | None => 0
    end in
  let h1 :=
    if (previous_complexity >? 11) && (previous_complexity >? complexity) then
      let decrease := previous_complexity - complexity in
      alter (fun a => set_decreaseOfComplexityInComplexFunctions
                        (accumulate (decreaseOfComplexityInComplexFunctions a)
                                    decrease) a) commit h
    else h in
  if (complexity >? 11) && (complexity >? previous_complexity) then
    let increase := complexity - previous_complexity in
    alter (fun a => set_increaseOfComplexityInComplexFunctions
                      (accumulate (increaseOfComplexityInComplexFunctions a)
                                  increase) a) commit h1
  else h1.

(** One iteration of the inner loop of
    [analyzeComplexFunctionsContributions], for commit [c]. *)
Definition contribution_step (complex_functions : list string) (c : ref)
    (st : Heap * gmap string Z) (item : string * Z) : Heap * gmap string Z :=
  let '(h, previous_function_complexities) := st in
  let '(function, complexity) := item in
  let h' :=
    if bool_decide (function ∈ complex_functions) then
      update_complex_function_contribution_of_commit
        previous_function_complexities function complexity c h
    else h in
  (h', <[function := complexity]> previous_function_complexities).

(** [analyzeComplexFunctionsContributions(data, complex_functions)] *)
Definition analyzeComplexFunctionsContributions (data : list ref)
    (complex_functions : list string) (heap : Heap) : option Heap :=
  match data with
  | [] => Some heap
  | first :: _ =>
      ac ← heap !! first;
      parent ← head (parents (commit ac));
      let previous_tree := all_blobs_in_tree (tree parent) in
      let previous_function_complexities :=
        calculate_function_complexities previous_tree in
      st ← for_each (fun st c =>
              a ← fst st !! c;
              modified_blobs ← all_blobs_modified_by_commit (commit a);
              Some (foldl (contribution_step complex_functions c) st
                          (map_to_list
                             (calculate_function_complexities modified_blobs))))
            data (heap, previous_function_complexities);
      Some (fst st)
  end.

End GitAnalyses.

(** ** gitlyze.py: tabulation and the whole run *)

(** [c.lower()] on a character up to U+00FF: the letters A to Z and the
    capital letters from U+00C0 to U+00DE, which leave out the
    multiplication sign U+00D7, move up by 32 places. *)
Definition lower (c : ascii) : ascii :=
  let n := nat_of_ascii c in
  if ((65 <=? n)%nat && (n <=? 90)%nat)
     || ((192 <=? n)%nat && (n <=? 222)%nat && negb (n =? 215)%nat)
  then ascii_of_nat (n + 32) else c.

(** [c.isalpha()] on a character up to U+00FF: the letters of ASCII, the
    ordinal indicators U+00AA and U+00BA, the micro sign U+00B5, and the
    letters from U+00C0 on, without the signs U+00D7 and U+00F7. *)
Definition isalpha (c : ascii) : bool :=
  let n := nat_of_ascii c in
  ((65 <=? n)%nat && (n <=? 90)%nat) || ((97 <=? n)%nat && (n <=? 122)%nat)
  || (n =? 170)%nat || (n =? 181)%nat || (n =? 186)%nat
  || ((192 <=? n)%nat && (n <=? 214)%nat)
  || ((216 <=? n)%nat && (n <=? 246)%nat)
  || ((248 <=? n)%nat && (n <=? 255)%nat).

(** [c.isdecimal() or c.isdigit() or c.isnumeric()] on a character up to
    U+00FF: the digits, the superscripts U+00B2, U+00B3 and U+00B9, and
    the fractions U+00BC to U+00BE. *)
Definition isnumeric (c : ascii) : bool :=
  let n := nat_of_ascii c in
  ((48 <=? n)%nat && (n <=? 57)%nat)
  || (n =? 178)%nat || (n =? 179)%nat || (n =? 185)%nat
  || ((188 <=? n)%nat && (n <=? 190)%nat).

(** [c.isalnum()] *)
Definition isalnum (c : ascii) : bool := isalpha c || isnumeric c.

(** [''.join(c for c in name.lower() if c.isalnum())] *)
Fixpoint normalize_author (name : string) : string :=
  match name with
  | EmptyString => EmptyString
  | String c rest =>
      if isalnum (lower c) then String (lower c) (normalize_author rest)
      else normalize_author rest
  end.

(** One data row of the report, column by column. *)
Record ReportRow := mkReportRow {
  col_commit : string;
  col_author : string;
  col_timestamp : Z;
  col_date : string;
  col_active_developers : option Z;
  col_days_since_previous : option Z;
  col_commits_in_last_24h : option Z;
  col_levenshtein_distance : option Z;
  col_loc : option Z;
  col_cyclomatic_complexity : option Z;
  col_functions : option Z;
  col_delta_loc : option Z;
  col_delta_cyclomatic_complexity : option Z;
  col_delta_functions : option Z;
  col_increase : option Z;
  col_decrease : option Z
}.

(** A row of the table: the header, whose text depends on the number of
    days of the activity window, or a data row. *)
Inductive TableRow :=
  | Header (activeCommitterIntervalDays : Z)
  | Line (row : ReportRow).

Section Report.
Context `{!External}.

(** The tuple [tabulate] appends for [c]; [None] when [secondsToIso]
    raises for the date of the commit. *)
Definition report_row (c : AnnotatedCommit) : option ReportRow :=
  iso ← secondsToIso (committed_date (commit c));
  Some (mkReportRow (hexsha (commit c))
          (normalize_author (author_name (commit c)))
          (committed_date (commit c)) iso
          (numberOfActiveDevelopers c) (daysSincePreviousCommitByDeveloper c)
          (numberOfCommitsInLast24h c) (levenshteinDistance c) (loc c)
          (cyclomaticComplexity c) (functions c) (deltaLoc c)
          (deltaCyclomaticComplexity c) (deltaFunctions c)
          (increaseOfComplexityInComplexFunctions c)
          (decreaseOfComplexityInComplexFunctions c)).

(** [tabulate(data, activeCommitterInterval, ...)] of [gitlyze.py] *)
Definition tabulate (heap : Heap) (data : list ref)
    (activeCommitterInterval : Z) : option (list TableRow) :=
  for_each (fun table c =>
    ac ← heap !! c;
    if bool_decide (levenshteinDistance ac = Some 0) then Some table
    else row ← report_row ac; Some (table ++ [Line row]))
  data [Header (int_truediv activeCommitterInterval (24 * 60 * 60))].

(** The three windowed activity analyzers in the order in which [gitlyze]
    calls them. *)
Definition analyze_activity (data : list ref) (activeCommitterInterval : Z)
    (heap : Heap) : option Heap :=
  h1 ← analyzeNumberOfActiveDevelopers data activeCommitterInterval heap;
  h2 ← analyzeDaysSincePreviousCommit data activeCommitterInterval h1;
  analyzeNumberOfCommitsInSameDay data h2.

(** The six analyzers in the order in which [gitlyze] calls them. *)
Definition analyze_all (data : list ref) (activeCommitterInterval : Z)
    (complex_functions : list string) (heap : Heap) : option Heap :=
  h3 ← analyze_activity data activeCommitterInterval heap;
  h4 ← analyzeLevenshteinDistance data h3;
  h5 ← analyzeSizeAndComplexity data h4;
  analyzeComplexFunctionsContributions data complex_functions h5.

(** [gitlyze(...)] of [gitlyze.py], from the opened repository on. *)
Definition gitlyze (repo : Repo) (branch : string)
    (startTime endTime activeCommitterInterval : Z)
    (filtered_authors filtered_commits complex_functions : list string)
    : Run (list TableRow) :=
  match createDataSet repo branch startTime endTime activeCommitterInterval
                      filtered_authors filtered_commits with
  | Done (heap, data) =>
      match analyze_all data activeCommitterInterval complex_functions heap
              ≫= fun h => tabulate h data activeCommitterInterval with
      | Some table => Done table
      | None => Raise
      end
  | Halt f => Halt f
  | Raise => Raise
  end.

End Report.

(** ** find-complex-functions.py *)

Section Finder.
Context `{!External}.

(** [append_blobs(blobs, tree)] *)
Fixpoint append_blobs (blobs : list Blob) (t : Tree) : list Blob :=
  let own := foldl (fun blobs blob =>
                      if extension_supported (blob_path blob)
                      then blobs ++ [blob] else blobs)
                   blobs (tree_blobs t) in
  foldl (fun blobs subtree => append_blobs blobs subtree) own (tree_trees t).

(** The blobs one commit contributes to the scan; [i] counts from 1. *)
Definition blobs_to_scan (i : nat) (c : Commit) : option (list Blob) :=
  if (i =? 1)%nat then Some (append_blobs [] (tree c))
  else
    _ ← head (parents c);
    Some (foldl (fun blobs diff =>
                   match b_blob diff with
                   | Some blob =>
                       if extension_supported (blob_path blob)
                       then blobs ++ [blob] else blobs
                   | None => blobs
                   end)
                [] (parent_diff c)).

(** The innermost loop body: one measured function of [blob]. *)
Definition record_function (blob : Blob) (complex_functions : gmap string Z)
    (function : FunctionInfo) : gmap string Z :=
  if cyclomatic_complexity function >? 15 then
    let distinguished_function_name :=
      blob_path blob +:+ "." +:+ fi_name function in
    match complex_functions !! distinguished_function_name with
    | Some known =>
        <[distinguished_function_name
          := Z.max (cyclomatic_complexity function) known]> complex_functions
    | None =>
        <[distinguished_function_name
          := cyclomatic_complexity function]> complex_functions
    end
  else complex_functions.

(** The body of [for blob in blobs_to_scan]. *)
Definition scan_blob (filtered_files : list string)
    (complex_functions : gmap string Z) (blob : Blob) : gmap string Z :=
  if bool_decide (blob_path blob ∈ filtered_files) then complex_functions
  else foldl (record_function blob) complex_functions
             (analyze_source_code (blob_name blob) (blob_text blob)).

(** [find_complex_functions(data, filtered_files)]; the state of the outer
    loop is the counter [i] and the dictionary. *)
Definition find_complex_functions (heap : Heap) (data : list ref)
    (filtered_files : list string) : option (gmap string Z) :=
  snd <$>
  for_each (fun (st : nat * gmap string Z) c =>
    let i := S (fst st) in
    ac ← heap !! c;
    blobs ← blobs_to_scan i (commit ac);
    Some (i, foldl (scan_blob filtered_files) (snd st) blobs))
  data (O, ∅).

End Finder.

(** ** The hunks of the Edit-Distance Analyzer, as the specification
    describes them *)

(** A line of a unified diff: removed ([-]), added ([+]), or anything
    else (context, [@@], the lines of the file header, the empty last
    line). *)
Inductive DiffLine :=
  | Removed (text : string)
  | Added (text : string)
  | Other.

(** A line that starts with three dashes or three pluses, as the two
    lines that name the files in the header of a diff do. *)
Definition is_header (line : string) : bool :=
  startswith line "---" || startswith line "+++".

Definition classify (line : string) : DiffLine :=
  if startswith line "-" then Removed (drop_first line)
  else if startswith line "+" then Added (drop_first line)
  else Other.

(** The lines of a diff text that do not start with three dashes or three
    pluses. *)
Definition lines_not_skipped (diff : string) : list DiffLine :=
  classify <$> filter (fun line => is_header line = false) (split_lines diff).

(** The lines of a unified diff as the specification reads them.  The
    text of a file pair opens with its header ([diff], [index], [---],
    [+++]); from the first [@@] line on, every line that starts with [-]
    is a removed line and every line that starts with [+] an added one,
    whatever follows the sign.  [in_hunk] tells whether an [@@] line has
    been passed since the last [diff] line. *)
Fixpoint unified_lines (in_hunk : bool) (lines : list string)
    : list DiffLine :=
  match lines with
  | [] => []
  | line :: rest =>
      if startswith line "@@" then Other :: unified_lines true rest
      else if startswith line "diff " then Other :: unified_lines false rest
      else if in_hunk then classify line :: unified_lines true rest
      else Other :: unified_lines false rest
  end.

Definition unified_diff_lines (diff : string) : list DiffLine :=
  unified_lines false (split_lines diff).

Definition is_added (l : DiffLine) : bool :=
  match l with
  | Added _ => true
  | _ => false
  end.

(** Put a line in front of the first hunk. *)
Definition cons_first (x : DiffLine) (hs : list (list DiffLine))
    : list (list DiffLine) :=
  match hs with
  | h :: rest => (x :: h) :: rest
  | [] => [[x]]
  end.

(** The partition into hunks: a hunk ends when a run of added lines is
    followed by a non-added line, which closes the hunk, or when the diff
    ends.  [after_added] tells whether the line before was an added one. *)
Fixpoint split_hunks (after_added : bool) (l : list DiffLine)
    : list (list DiffLine) :=
  match l with
  | [] => [[]]
  | x :: rest =>
      if after_added && negb (is_added x) then [x] :: split_hunks false rest
      else cons_first x (split_hunks (is_added x) rest)
  end.

Definition hunks (l : list DiffLine) : list (list DiffLine) :=
  split_hunks false l.

(** The concatenation of the removed-line text of a hunk. *)
Fixpoint removed_text (h : list DiffLine) : string :=
  match h with
  | [] => EmptyString
  | Removed t :: rest => t +:+ removed_text rest
  | _ :: rest => removed_text rest
  end.

(** The concatenation of the added-line text of a hunk. *)
Fixpoint added_text (h : list DiffLine) : string :=
  match h with
  | [] => EmptyString
  | Added t :: rest => t +:+ added_text rest
  | _ :: rest => added_text rest
  end.

(** The sum of a list of numbers. *)
Definition sum_Z (l : list Z) : Z := foldr Z.add 0 l.

Section HunkSpec.
Context `{!External}.

Definition hunk_distance (h : list DiffLine) : Z :=
  editdistance_eval (removed_text h) (added_text h).

(** The contribution of a modified file by the specification: the sum
    over the hunks of its unified diff. *)
Definition hunk_contribution (diff : string) : Z :=
  sum_Z (hunk_distance <$> hunks (unified_diff_lines diff)).

End HunkSpec.

(** ** Definitions used to state the properties of the engine *)

Section Statements.
Context `{!External}.

(** The distance total of hunks whose first one continues text that has
    already been collected. *)
Definition total_from (A B : string) (hs : list (list DiffLine)) : Z :=
  match hs with
  | [] => editdistance_eval A B
  | h :: rest =>
      editdistance_eval (A +:+ removed_text h) (B +:+ added_text h)
      + sum_Z (hunk_distance <$> rest)
  end.

Definition totals_plus (x y : Totals) : Totals :=
  let '(l1, c1, f1) := x in
  let '(l2, c2, f2) := y in
  (l1 + l2, c1 + c2, f1 + f2).

Definition stats_totals (bs : BlobStats.t) : Totals :=
  (BlobStats.loc bs, BlobStats.cyclomaticComplexity bs, BlobStats.functions bs).

Definition totals_opp (x : Totals) : Totals :=
  let '(l, c, f) := x in (- l, - c, - f).

(** The partition that puts the end of a hunk right after the last line
    of a run of added lines, before the non-added line that follows. *)
Fixpoint split_before (l : list DiffLine) : list (list DiffLine) :=
  match l with
  | [] => [[]]
  | x :: rest =>
      if is_added x && match rest with
                       | y :: _ => negb (is_added y)
                       | [] => false
                       end
      then [x] :: split_before rest
      else cons_first x (split_before rest)
  end.

(** Whether some removed line comes directly after an added line; git
    prints the removed lines of a change before its added lines, and
    unchanged lines between two changes. *)
Fixpoint removed_follows_added (l : list DiffLine) : bool :=
  match l with
  | [] => false
  | x :: rest =>
      (is_added x && match rest with
                     | Removed _ :: _ => true
                     | _ => false
                     end)
      || removed_follows_added rest
  end.

(** What one path of a tree delta adds to the delta totals: minus the
    snapshot's stats of the path, if it has any, plus the new stats, if
    the path is not deleted. *)
Definition item_delta (t : gmap string BlobStats.t)
    (item : string * option BlobStats.t) : Totals :=
  totals_plus
    (match t !! item.1 with
     | Some old => totals_opp (stats_totals old)
     | None => (0, 0, 0)
     end)
    (match item.2 with
     | Some bs => stats_totals bs
     | None => (0, 0, 0)
     end).

Definition sum_totals (l : list Totals) : Totals :=
  foldr totals_plus (0, 0, 0) l.

(** What [apply_delta_to_tree] leaves at a path. *)
Definition applied (delta : gmap string (option BlobStats.t))
    (t : gmap string BlobStats.t) (path : string) : option BlobStats.t :=
  match delta !! path with
  | Some None => None
  | Some (Some bs) => Some bs
  | None => t !! path
  end.

(** A diff none of whose paths has a supported extension. *)
Definition unsupported (d : Diff) : Prop :=
  extension_supported (a_path d) = false
  /\ extension_supported (b_path d) = false.

(** The reference before index [i] and the one after it among [n]. *)
Definition pred_ref (i : nat) : option ref :=
  match i with
  | O => None
  | S j => Some j
  end.

Definition next_ref (n i : nat) : option ref :=
  if decide (S i < n)%nat then Some (S i) else None.

(** The record of the [i]-th of [n] raw commits once the chain is linked. *)
Definition chain_record (n i : nat) (c : Commit) : AnnotatedCommit :=
  set_next (next_ref n i) (set_previous (pred_ref i) (AnnotatedCommit_init c)).

(** The references, counted from [k], of the commits that satisfy [p]. *)
Fixpoint refs_from (p : Commit -> bool) (k : nat) (l : list Commit)
    : list ref :=
  match l with
  | [] => []
  | c :: rest =>
      if p c then k :: refs_from p (S k) rest else refs_from p (S k) rest
  end.

(** The commits that a list of references denotes. *)
Definition commits_of (heap : Heap) (data : list ref) : list Commit :=
  omap (fun r => commit <$> heap !! r) data.

(** A log in which no commit is older than a later one, and the reverse. *)
Definition newest_first : list Commit -> Prop :=
  StronglySorted (fun a b => committed_date b <= committed_date a).

Definition oldest_first : list Commit -> Prop :=
  StronglySorted (fun a b => committed_date a <= committed_date b).

(** The longest prefix whose elements satisfy [p]. *)
Fixpoint take_while {A} (p : A -> bool) (l : list A) : list A :=
  match l with
  | [] => []
  | x :: rest => if p x then x :: take_while p rest else []
  end.

(** The commits of the raw log before index [i], the latest first. *)
Definition history (raw : list Commit) (i : nat) : list Commit :=
  reverse (take i raw).

(** The commits a walk from index [i] of the raw log visits: those before
    [i], going back, as long as they are committed after [cutOff]. *)
Definition window (raw : list Commit) (i : nat) (cutOff : Z) : list Commit :=
  take_while (fun c => committed_date c >? cutOff) (history raw i).

(** The walk of [walk_back] on a list of commits. *)
Fixpoint walk_list {S} (cutOff : Z) (body : Commit -> S -> S * bool)
    (l : list Commit) (s : S) : S :=
  match l with
  | [] => s
  | p :: older =>
      if committed_date p >? cutOff then
        let '(s', stop) := body p s in
        if stop : bool then s' else walk_list cutOff body older s'
      else s
  end.

(** The heap holds the raw log, each record linked to the one before. *)
Definition chain_linked (raw : list Commit) (heap : Heap) : Prop :=
  length heap = length raw
  /\ forall i ac, heap !! i = Some ac ->
       raw !! i = Some (commit ac) /\ previous ac = pred_ref i.

(** The heap after [u i] has been applied to every record [i] of [data]. *)
Definition annotate (u : nat -> AnnotatedCommit -> AnnotatedCommit)
    (data : list ref) (heap : Heap) : Heap :=
  imap (fun i ac => if bool_decide (i ∈ data) then u i ac else ac) heap.

(** The values the three analyzers give the commit [c] at index [i]. *)
Definition active_developers (raw : list Commit) (w : Z) (i : nat)
    (c : Commit) : Z :=
  Z.of_nat (size (list_to_set (author_name <$>
                     window raw i (committed_date c - w)) : gset string)).

Definition days_since_previous (raw : list Commit) (w : Z) (i : nat)
    (c : Commit) : option Z :=
  (fun p => int_truediv (committed_date c - committed_date p) day)
  <$> List.find (fun p => String.eqb (author_name p) (author_name c))
                (window raw i (committed_date c - w)).

Definition commits_in_last_24h (raw : list Commit) (i : nat) (c : Commit) : Z :=
  Z.of_nat (length (window raw i (committed_date c - day))).

Definition u_active (raw : list Commit) (w : Z) (i : nat)
    (a : AnnotatedCommit) : AnnotatedCommit :=
  set_numberOfActiveDevelopers (Some (active_developers raw w i (commit a))) a.

Definition u_days (raw : list Commit) (w : Z) (i : nat)
    (a : AnnotatedCommit) : AnnotatedCommit :=
  match days_since_previous raw w i (commit a) with
  | Some days => set_daysSincePreviousCommitByDeveloper (Some days) a
  | None => a
  end.

Definition u_24h (raw : list Commit) (i : nat)
    (a : AnnotatedCommit) : AnnotatedCommit :=
  set_numberOfCommitsInLast24h (Some (commits_in_last_24h raw i (commit a))) a.

(** The record at [r] wraps [c], has no previous record and no distance. *)
Definition unlinked_without_distance (r : ref) (c : Commit) (h : Heap) : Prop :=
  exists ac, h !! r = Some ac /\ commit ac = c /\ previous ac = None
    /\ levenshteinDistance ac = None.

(** An update of a record that leaves its commit, its previous link and
    its distance alone. *)
Definition quiet (g : AnnotatedCommit -> AnnotatedCommit) : Prop :=
  forall a, commit (g a) = commit a /\ previous (g a) = previous a
    /\ levenshteinDistance (g a) = levenshteinDistance a.

(** The value of an optional number that a sum starts from. *)
Definition or_zero (v : option Z) : Z := default 0 v.

Lemma accumulate_adds v d : accumulate v d = Some (or_zero v + d).
Proof.
  unfold accumulate, truthy, or_zero. destruct v as [n|]; simpl; [| done].
  destruct (Z.eqb_spec n 0) as [->|]; simpl; [done | done].
Qed.

(** The lists [blobs_to_scan] of the rounds of the loop, one after the
    other; [i] is the number of commits already visited.  The lemmas on
    the loop use it, the statements do not. *)
Fixpoint scanned_from (heap : Heap) (i : nat) (data : list ref)
    : option (list Blob) :=
  match data with
  | [] => Some []
  | c :: rest =>
      ac ← heap !! c;
      blobs ← blobs_to_scan (S i) (commit ac);
      later ← scanned_from heap (S i) rest;
      Some (blobs ++ later)
  end.

(** What measuring one blob observes: the fully-qualified name and the
    cyclomatic complexity of each of its functions, nothing when the path
    is among the filtered files. *)
Definition blob_observations (filtered_files : list string) (blob : Blob)
    : list (string * Z) :=
  if bool_decide (blob_path blob ∈ filtered_files) then []
  else (fun function => (blob_path blob +:+ "." +:+ fi_name function,
                         cyclomatic_complexity function))
       <$> analyze_source_code (blob_name blob) (blob_text blob).

(** Everything observed while scanning a list of blobs, in order. *)
Definition observations (filtered_files : list string) (blobs : list Blob)
    : list (string * Z) :=
  blobs ≫= blob_observations filtered_files.

(** What one observation does to the dictionary. *)
Definition record_observation (complex_functions : gmap string Z)
    (o : string * Z) : gmap string Z :=
  if o.2 >? 15 then
    match complex_functions !! o.1 with
    | Some known => <[o.1 := Z.max o.2 known]> complex_functions
    | None => <[o.1 := o.2]> complex_functions
    end
  else complex_functions.

(** The dictionary holds, for the observations made, the maximum of every
    name that was observed above 15 and no other name. *)
Definition running_maximum (obs : list (string * Z))
    (complex_functions : gmap string Z) : Prop :=
  (forall name m, complex_functions !! name = Some m <->
     15 < m /\ (name, m) ∈ obs /\ forall v, (name, v) ∈ obs -> v <= m)
  /\ (forall name, complex_functions !! name = None <->
        forall v, (name, v) ∈ obs -> v <= 15).

(** The absolute totals and the delta totals a record holds, when all
    three of each are set. *)
Definition absolutes (a : AnnotatedCommit) : option Totals :=
  l ← loc a; c ← cyclomaticComplexity a; f ← functions a; Some (l, c, f).

Definition deltas (a : AnnotatedCommit) : option Totals :=
  l ← deltaLoc a; c ← deltaCyclomaticComplexity a; f ← deltaFunctions a;
  Some (l, c, f).

Definition totals_minus (x y : Totals) : Totals :=
  let '(l1, c1, f1) := x in
  let '(l2, c2, f2) := y in
  (l1 - l2, c1 - c2, f1 - f2).

(** Each delta of the record is its absolute minus the absolute in
    [before]; equivalently each absolute is [before] plus the delta. *)
Definition deltas_match (before : Totals) (a : AnnotatedCommit) : Prop :=
  exists abs delta,
    absolutes a = Some abs /\ deltas a = Some delta
    /\ delta = totals_minus abs before /\ abs = totals_plus before delta.

(** The record at [c] has a previous record in the chain, both hold
    absolute totals, and the deltas of [c] are the differences. *)
Definition deltas_match_chain_previous (h : Heap) (c : ref) : Prop :=
  exists a p ap before,
    h !! c = Some a /\ previous a = Some p /\ h !! p = Some ap
    /\ absolutes ap = Some before /\ deltas_match before a.

End Statements.

(** ** A small repository and stand-ins for the collaborators, to run the
    engine on *)

(** The Levenshtein distance, standing in for [editdistance.eval]. *)
Fixpoint levenshtein (a : string) : string -> nat :=
  fix inner (b : string) : nat :=
    match a, b with
    | EmptyString, _ => String.length b
    | _, EmptyString => String.length a
    | String x a', String y b' =>
        if Ascii.eqb x y then levenshtein a' b'
        else S (Nat.min (levenshtein a' b')
                        (Nat.min (levenshtein a' b) (inner b')))
    end.

(** A path with the extension [.c] is supported. *)
Definition toy_extension_supported (path : string) : bool :=
  String.prefix "c." (String.rev path).

(** A commit is filtered when its author or its hash is listed. *)
Definition toy_filter_match (c : Commit)
    (filtered_authors filtered_commits : list string) : bool :=
  bool_decide (author_name c ∈ filtered_authors)
  || bool_decide (hexsha c ∈ filtered_commits).

(** The part of a line before its first space, and the part after it. *)
Fixpoint split_at_space (s : string) : string * string :=
  match s with
  | EmptyString => (EmptyString, EmptyString)
  | String c rest =>
      if Ascii.eqb c " "%char then (EmptyString, rest)
      else let '(name, tail) := split_at_space rest in (String c name, tail)
  end.

(** A toy complexity parser: every non-empty line [name marks] is a
    function of one line whose complexity is one more than the number of
    marks; the file name plays no role. *)
Definition toy_analyze_source_code (name content : string)
    : list FunctionInfo :=
  omap (fun line =>
          if String.eqb line EmptyString then None
          else let '(fname, marks) := split_at_space line in
               Some (mkFunctionInfo fname 1 (1 + len marks)))
       (split_lines content).

(** What [git diff] prints for a file whose line [-- old note] is
    replaced by the line [++ new note], and the same text without the
    lines that start with three dashes or three pluses. *)
Definition dashed_diff : string :=
  "diff --git a/notes.c b/notes.c" +:+ String newline
  ("index 3f1c2aa..9b0d4e1 100644" +:+ String newline
  ("--- a/notes.c" +:+ String newline
  ("+++ b/notes.c" +:+ String newline
  ("@@ -1,2 +1,2 @@" +:+ String newline
  ("--- old note" +:+ String newline
  ("+++ new note" +:+ String newline
  (" int x;" +:+ String newline EmptyString))))))).

Definition undashed_diff : string :=
  "diff --git a/notes.c b/notes.c" +:+ String newline
  ("index 3f1c2aa..9b0d4e1 100644" +:+ String newline
  ("@@ -1,2 +1,2 @@" +:+ String newline
  (" int x;" +:+ String newline EmptyString))).

(** Dates exist for the seconds from 1970 to the end of the year 9999. *)
Definition toy_secondsToIso (seconds : Z) : option string :=
  if (0 <=? seconds) && (seconds <? 253402300800) then Some EmptyString
  else None.

(** [git diff] prints the diff above for the file [notes.c] of the commit
    [c5], and nothing for any other pair. *)
Definition toy_git_diff (file_a file_b : string) : option string :=
  if String.eqb file_b "c5:notes.c" then Some dashed_diff
  else Some EmptyString.

#[global] Instance toy : External := {|
  extension_supported := toy_extension_supported;
  filter_match := toy_filter_match;
  analyze_source_code := toy_analyze_source_code;
  editdistance_eval := fun a b => Z.of_nat (levenshtein a b);
  git_diff := toy_git_diff;
  secondsToIso := toy_secondsToIso
|}.

Definition blob_x : Blob := mkBlob "x.c" "x.c" "f ab".
Definition blob_a : Blob := mkBlob "a.c" "a.c" "g abc".
Definition blob_b : Blob := mkBlob "b.c" "b.c" "g abc".

(** The root commit, with an empty tree. *)
Definition c0 : Commit :=
  mkCommit "c0" "ann" 100 [] (mkTree [] []) [].

(** [c1] adds [x.c]. *)
Definition c1 : Commit :=
  mkCommit "c1" "ann" 200 [c0] (mkTree [blob_x] [])
           [mkDiff "A" "x.c" "x.c" None (Some blob_x)].

(** [c2], by an author that the run filters, adds [a.c]. *)
Definition c2 : Commit :=
  mkCommit "c2" "bot" 300 [c1] (mkTree [blob_x; blob_a] [])
           [mkDiff "A" "a.c" "a.c" None (Some blob_a)].

(** The only change of [c3] is the rename of [a.c] to [b.c], with the
    content as it was. *)
Definition rename_a_b : Diff :=
  mkDiff "R100" "a.c" "b.c" (Some blob_a) (Some blob_b).

Definition c3 : Commit :=
  mkCommit "c3" "ann" 400 [c2] (mkTree [blob_x; blob_b] []) [rename_a_b].

(** The log of the branch, newest commit first. *)
Definition example_log : list Commit := [c3; c2; c1; c0].

Definition example_repo : Repo := mkRepo (fun _ => inr example_log).

(** A branch whose log lists the older commit first. *)
Definition ascending_repo : Repo := mkRepo (fun _ => inr [c1; c3]).

(** The same branch in a clone that does not reach the root commit. *)
Definition shallow_repo : Repo := mkRepo (fun _ => inr [c3; c2; c1]).

(** The chain and the analyzable commits of the example, for the commits
    between time 0 and time 1000 whose author is not [bot]. *)
Definition example_chain : list AnnotatedCommit * list ref :=
  Eval vm_compute in
    match createDataSet example_repo "main" 0 1000 0 ["bot"] [] with
    | Done r => r
    | _ => ([], [])
    end.

Definition example_heap : list AnnotatedCommit := fst example_chain.
Definition example_data : list ref := snd example_chain.

(** The example heap after [analyzeSizeAndComplexity]. *)
Definition example_sized : list AnnotatedCommit :=
  Eval vm_compute in
    default [] (analyzeSizeAndComplexity example_data example_heap).

(** The report of the run on the shallow clone. *)
Definition shallow_report : list TableRow :=
  Eval vm_compute in
    match gitlyze shallow_repo "main" 0 1000 0 ["bot"] [] [] with
    | Done table => table
    | _ => []
    end.

(** A delta that deletes [a.c] and measures [b.c], and a snapshot that
    holds [a.c]. *)
Definition example_delta : gmap string (option BlobStats.t) :=
  <["b.c" := Some (BlobStats.mk 1 4 1)]> (<["a.c" := None]> ∅).

Definition example_snapshot : gmap string BlobStats.t :=
  <["a.c" := BlobStats.mk 1 4 1]> ∅.

(** A unified diff that replaces one line. *)
Definition example_diff : string :=
  "--- a/x.c" +:+ String newline ("+++ b/x.c" +:+ String newline
  ("@@ -1 +1 @@" +:+ String newline ("-f ab" +:+ String newline
  ("+f abc" +:+ String newline EmptyString)))).

(** The claim that the contribution of a modified file is the sum over
    the hunks of its unified diff, every removed and every added line
    counted. *)
Definition every_changed_line_is_counted `{!External} : Prop :=
  forall file_a file_b diff,
    git_diff file_a file_b = Some diff ->
    blob_delta file_a file_b = Some (hunk_contribution diff).

(** The claim that the chain builder returns the analyzable commits of
    the log oldest first, and halts with a message exactly when there is
    none or the log cannot be retrieved. *)
Definition chain_builder_contract `{!External} : Prop :=
  forall repo branch startTime endTime w filtered_authors filtered_commits,
    let result := createDataSet repo branch startTime endTime w
                    filtered_authors filtered_commits in
    let analyzed c := analyzable startTime endTime filtered_authors
                        filtered_commits c = true in
    match iter_commits repo branch with
    | inl e => result = Halt (GitCommandFailed e)
    | inr log =>
        ((forall c, c ∈ log -> ~ analyzed c) ->
         result = Halt (NoCommitsFound branch startTime endTime))
        /\ (forall c, c ∈ log -> analyzed c ->
              exists heap data,
                result = Done (heap, data)
                /\ (forall c', c' ∈ commits_of heap data
                               <-> c' ∈ log /\ analyzed c')
                /\ oldest_first (commits_of heap data))
    end.

(** The claim that each delta is the difference to the absolute of the
    record that [previous] links to. *)
Definition deltas_relative_to_chain_previous `{!External} : Prop :=
  forall repo branch startTime endTime w filtered_authors filtered_commits
         (heap : Heap) data (h' : Heap) c,
    createDataSet repo branch startTime endTime w filtered_authors
                  filtered_commits = Done (heap, data) ->
    analyzeSizeAndComplexity data heap = Some h' ->
    c ∈ data ->
    deltas_match_chain_previous h' c.

(** The claim that a commit whose only change is a rename between
    supported paths with the content unchanged has a deltaLoc of 0. *)
Definition identical_renames_net_zero `{!External} : Prop :=
  forall repo branch startTime endTime w filtered_authors filtered_commits
         (heap : Heap) data (h' : Heap) c a rename old new,
    createDataSet repo branch startTime endTime w filtered_authors
                  filtered_commits = Done (heap, data) ->
    analyzeSizeAndComplexity data heap = Some h' ->
    c ∈ data ->
    h' !! c = Some a ->
    parent_diff (commit a) = [rename] ->
    startswith (change_type rename) "R" = true ->
    a_blob rename = Some old ->
    b_blob rename = Some new ->
    blob_text old = blob_text new ->
    extension_supported (a_path rename) = true ->
    extension_supported (b_path rename) = true ->
    deltaLoc a = Some 0.
(** ** gitlyze.py: the arguments of a run *)

(** [parseEndTime(startTime, arg)]; the argument is the [int] that
    argparse hands over, and [startTime] is the float of [parseStartTime],
    which holds a whole number of seconds.  The sum of the float and the
    integer is a float: the integer is converted and the sum is rounded.
    (A sum that reaches [2^1024] would be infinite; that takes a start
    time of [2^970] seconds.) *)
Definition parseEndTime (startTime arg : Z) : option Z :=
  interval ← float_of_int (arg * 60 * 60 * 24);
  Some (Z.max startTime (round_to_double (startTime + interval))).

(** [parseActiveCommiterInterval(arg)] *)
Definition parseActiveCommiterInterval (arg : Z) : Z :=
  Z.max 0 (arg * 60 * 60 * 24).

(** What [parser.parse_args()] returns: the value of each option, [None]
    for an optional one that was not given. *)
Record Namespace := mkNamespace {
  ns_b : string;
  ns_d : option string;
  ns_s : option string;
  ns_i : option Z;
  ns_a : option Z;
  ns_o : string;
  ns_af : option (list string);
  ns_cf : option (list string);
  ns_cc : option string
}.

(** What [main] calls of the system: [os.getcwd()], [os.path.abspath],
    the seconds since the epoch that [parseStartTime] computes from a date
    in the format [%Y-%m-%d] ([None] at a [ValueError]), and
    [parse_complex_functions_file], which reads a file. *)
Class Shell := {
  getcwd : string;
  abspath : string -> string;
  parseStartTime : string -> option Z;
  parse_complex_functions_file : string -> list string
}.

(** The local variables of [main] of [gitlyze.py]; [branch], [output] and
    [activeCommitterInterval] are unbound or [None] until assigned. *)
Record MainVars := mkMainVars {
  mv_repoDir : string;
  mv_branch : option string;
  mv_startTimeArg : string;
  mv_intervalArg : Z;
  mv_activeCommitterIntervalArg : Z;
  mv_activeCommitterInterval : option Z;
  mv_output : option string;
  mv_filtered_authors : list string;
  mv_filtered_commits : list string;
  mv_complex_functions : list string
}.

(** The arguments with which [main] calls [gitlyze], and the output file
    of [report]. *)
Record Settings := mkSettings {
  run_repoDir : string;
  run_branch : option string;
  run_startTime : Z;
  run_endTime : Z;
  run_activeCommitterInterval : Z;
  run_filtered_authors : list string;
  run_filtered_commits : list string;
  run_complex_functions : list string;
  run_output : option string
}.

(** The assignments to the variables of [main]. *)
Definition set_repoDir (value : string) (v : MainVars) : MainVars :=
  mkMainVars value (mv_branch v) (mv_startTimeArg v) (mv_intervalArg v)
    (mv_activeCommitterIntervalArg v) (mv_activeCommitterInterval v)
    (mv_output v) (mv_filtered_authors v) (mv_filtered_commits v)
    (mv_complex_functions v).

Definition set_branch (value : option string) (v : MainVars) : MainVars :=
  mkMainVars (mv_repoDir v) value (mv_startTimeArg v) (mv_intervalArg v)
    (mv_activeCommitterIntervalArg v) (mv_activeCommitterInterval v)
    (mv_output v) (mv_filtered_authors v) (mv_filtered_commits v)
    (mv_complex_functions v).

Definition set_startTimeArg (value : string) (v : MainVars) : MainVars :=
  mkMainVars (mv_repoDir v) (mv_branch v) value (mv_intervalArg v)
    (mv_activeCommitterIntervalArg v) (mv_activeCommitterInterval v)
    (mv_output v) (mv_filtered_authors v) (mv_filtered_commits v)
    (mv_complex_functions v).

Definition set_intervalArg (value : Z) (v : MainVars) : MainVars :=
  mkMainVars (mv_repoDir v) (mv_branch v) (mv_startTimeArg v) value
    (mv_activeCommitterIntervalArg v) (mv_activeCommitterInterval v)
    (mv_output v) (mv_filtered_authors v) (mv_filtered_commits v)
    (mv_complex_functions v).

Definition set_activeCommitterInterval (value : option Z) (v : MainVars)
    : MainVars :=
  mkMainVars (mv_repoDir v) (mv_branch v) (mv_startTimeArg v)
    (mv_intervalArg v) (mv_activeCommitterIntervalArg v) value
    (mv_output v) (mv_filtered_authors v) (mv_filtered_commits v)
    (mv_complex_functions v).

Definition set_output (value : option string) (v : MainVars) : MainVars :=
  mkMainVars (mv_repoDir v) (mv_branch v) (mv_startTimeArg v)
    (mv_intervalArg v) (mv_activeCommitterIntervalArg v)
    (mv_activeCommitterInterval v) value (mv_filtered_authors v)
    (mv_filtered_commits v) (mv_complex_functions v).

Definition set_filtered_authors (value : list string) (v : MainVars)
    : MainVars :=
  mkMainVars (mv_repoDir v) (mv_branch v) (mv_startTimeArg v)
    (mv_intervalArg v) (mv_activeCommitterIntervalArg v)
    (mv_activeCommitterInterval v) (mv_output v) value
    (mv_filtered_commits v) (mv_complex_functions v).

Definition set_filtered_commits (value : list string) (v : MainVars)
    : MainVars :=
  mkMainVars (mv_repoDir v) (mv_branch v) (mv_startTimeArg v)
    (mv_intervalArg v) (mv_activeCommitterIntervalArg v)
    (mv_activeCommitterInterval v) (mv_output v) (mv_filtered_authors v)
    value (mv_complex_functions v).

Definition set_complex_functions (value : list string) (v : MainVars)
    : MainVars :=
  mkMainVars (mv_repoDir v) (mv_branch v) (mv_startTimeArg v)
    (mv_intervalArg v) (mv_activeCommitterIntervalArg v)
    (mv_activeCommitterInterval v) (mv_output v) (mv_filtered_authors v)
    (mv_filtered_commits v) value.

(** [if key == name and value is not None: assign]: one line of the loop
    over the arguments. *)
Definition stage {A} (key name : string) (value : option A)
    (assign : A -> MainVars -> MainVars) (v : MainVars) : MainVars :=
  if String.eqb key name then
    match value with
    | Some x => assign x v
    | None => v
    end
  else v.

Section Main.
Context `{!Shell}.

(** The variables of [main] before the loop over the arguments. *)
Definition main_defaults : MainVars :=
  mkMainVars getcwd None "2018-01-01" 365 30 None None [] [] [].

(** One iteration of [for key, value in parser.parse_args()._get_kwargs()],
    for the option named [key]; its value is the field of the namespace.
    The options [-b] and [-o] are required, so their values are never
    [None], and the code assigns them without asking. *)
Definition main_step (ns : Namespace) (v : MainVars) (key : string)
    : MainVars :=
  let v := stage key "b" (Some (ns_b ns))
             (fun value => set_branch (Some value)) v in
  let v := stage key "d" (ns_d ns)
             (fun value => set_repoDir (abspath value)) v in
  let v := stage key "s" (ns_s ns) set_startTimeArg v in
  let v := stage key "i" (ns_i ns) set_intervalArg v in
  let v := stage key "a" (ns_a ns)
             (fun value => set_activeCommitterInterval (Some value)) v in
  let v := stage key "o" (Some (ns_o ns))
             (fun value => set_output (Some value)) v in
  let v := stage key "af" (ns_af ns) set_filtered_authors v in
  let v := stage key "cf" (ns_cf ns) set_filtered_commits v in
  stage key "cc" (ns_cc ns)
    (fun value =>
       set_complex_functions (parse_complex_functions_file (abspath value)))
    v.

(** [main] of [gitlyze.py] up to its last line: the arguments of the call
    of [gitlyze] and the output file, or [None] when [parseStartTime]
    halts the run or [parseEndTime] raises.  [keys] are the names that
    [_get_kwargs()] lists. *)
Definition main_settings (ns : Namespace) (keys : list string)
    : option Settings :=
  let v := foldl (main_step ns) main_defaults keys in
  startTime ← parseStartTime (mv_startTimeArg v);
  endTime ← parseEndTime startTime (mv_intervalArg v);
  let activeCommitterInterval :=
    parseActiveCommiterInterval (mv_activeCommitterIntervalArg v) in
  Some (mkSettings (mv_repoDir v) (mv_branch v) startTime endTime
          activeCommitterInterval (mv_filtered_authors v)
          (mv_filtered_commits v) (mv_complex_functions v) (mv_output v)).

End Main.

(** ** Further definitions used to state properties *)

Section MoreStatements.
Context `{!External}.

(** The totals of a snapshot, path by path. *)
Definition snapshot_total (t : gmap string BlobStats.t) : Totals :=
  sum_totals ((fun item => stats_totals item.2) <$> map_to_list t).

(** A dictionary whose keys all have a supported extension. *)
Definition supported_only {V} (m : gmap string V) : Prop :=
  forall path, is_Some (m !! path) -> extension_supported path = true.

(** In a state of the loop of [analyzeSizeAndComplexity], the record that
    [previous_commit] refers to holds the totals of the snapshot. *)
Definition snapshot_totals_recorded (st : SizeState) : Prop :=
  exists pc, deref (ss_heap st) (ss_previous_commit st) = Some pc
    /\ absolutes pc = Some (aggregate_stats_from_blobs (ss_previous_tree st)).

(** By how much a re-measured function lowers and raises the complexity
    that is attributed to a commit, given the map before the commit. *)
Definition decrease_of (complex_functions : list string)
    (pfc : gmap string Z) (item : string * Z) : Z :=
  let previous_complexity := or_zero (pfc !! item.1) in
  if bool_decide (item.1 ∈ complex_functions)
     && (previous_complexity >? 11) && (previous_complexity >? item.2)
  then previous_complexity - item.2 else 0.

Definition increase_of (complex_functions : list string)
    (pfc : gmap string Z) (item : string * Z) : Z :=
  let previous_complexity := or_zero (pfc !! item.1) in
  if bool_decide (item.1 ∈ complex_functions)
     && (item.2 >? 11) && (item.2 >? previous_complexity)
  then item.2 - previous_complexity else 0.

(** Every blob of a tree, at any depth: those of the tree itself first,
    then those of its subtrees in order. *)
Fixpoint blobs_of_tree (t : Tree) : list Blob :=
  tree_blobs t ++ flat_map blobs_of_tree (tree_trees t).

(** The blob has a supported extension. *)
Definition supported_blob (blob : Blob) : Prop :=
  extension_supported (blob_path blob) = true.

#[global] Instance supported_blob_dec blob : Decision (supported_blob blob) :=
  decide (extension_supported (blob_path blob) = true).

(** A dictionary of blobs by path that holds, at each supported path of a
    blob of the list, one of the blobs of the list with that path, and
    nothing else. *)
Definition indexes (m : gmap string Blob) (l : list Blob) : Prop :=
  forall path,
    (forall blob, m !! path = Some blob ->
       blob ∈ l /\ blob_path blob = path /\ supported_blob blob)
    /\ ((exists blob, blob ∈ l /\ blob_path blob = path
                      /\ supported_blob blob)
        -> is_Some (m !! path)).

(** What measuring the blob at [path] yields: for each function the key
    under which it is recorded and its complexity. *)
Definition measured_functions (item : string * Blob) : list (string * Z) :=
  (fun function => (item.1 +:+ "." +:+ fi_name function,
                    cyclomatic_complexity function))
  <$> analyze_source_code (blob_name item.2) (blob_text item.2).

(** The blobs on the new side of the diffs of a commit. *)
Definition new_blobs (c : Commit) : list Blob :=
  omap b_blob (parent_diff c).

(** The commit has a parent to be compared with. *)
Definition has_parent (c : Commit) : bool :=
  match parents c with
  | [] => false
  | _ :: _ => true
  end.

(** The files the finder is to measure, as its description has it: every
    supported file of the full tree of the first commit, then for each
    later commit the supported files it changed, with their new
    content. *)
Definition files_to_measure (commits : list Commit) : list Blob :=
  match commits with
  | [] => []
  | first :: later =>
      filter supported_blob (blobs_of_tree (tree first))
      ++ (later ≫= fun c => filter supported_blob (new_blobs c))
  end.

(** The commits of the records that [data] refers to; [None] when a
    reference leads nowhere. *)
Definition commits_at (heap : Heap) (data : list ref)
    : option (list Commit) :=
  mapM (fun c => commit <$> heap !! c) data.

(** A diff that carries the blobs the analyzers read: the new blob of an
    added, modified or renamed file and the old blob of a deleted file,
    where the path has a supported extension. *)
Definition readable (d : Diff) : Prop :=
  (extension_supported (b_path d) = true ->
   String.eqb (change_type d) "A" || String.eqb (change_type d) "M"
   || startswith (change_type d) "R" = true ->
   is_Some (b_blob d))
  /\ (extension_supported (a_path d) = true ->
      String.eqb (change_type d) "D" = true -> is_Some (a_blob d)).

(** [git diff] returns for the two sides of a modified or renamed file
    with a supported extension. *)
Definition comparable (parent c : Commit) (d : Diff) : Prop :=
  extension_supported (b_path d) = true ->
  String.eqb (change_type d) "M" || startswith (change_type d) "R" = true ->
  is_Some (git_diff (hexsha parent +:+ ":" +:+ a_path d)
                    (hexsha c +:+ ":" +:+ b_path d)).

(** A commit that the run can process: its date can be formatted, its
    diffs carry their blobs, and [git diff] returns for the files it
    modifies or renames. *)
Definition processable (c : Commit) : Prop :=
  is_Some (secondsToIso (committed_date c))
  /\ Forall readable (parent_diff c)
  /\ forall parent, head (parents c) = Some parent ->
       Forall (comparable parent c) (parent_diff c).

(** The diff touches a path with a supported extension. *)
Definition touches_supported (d : Diff) : bool :=
  extension_supported (a_path d) || extension_supported (b_path d).

(** The commit with other diffs against its first parent. *)
Definition with_parent_diff (diffs : list Diff) (c : Commit) : Commit :=
  mkCommit (hexsha c) (author_name c) (committed_date c) (parents c) (tree c)
           diffs.

(** Stand-ins for the system under [main]; only the default start date
    is understood. *)
#[global] Instance toy_shell : Shell := {|
  getcwd := "/repo";
  abspath := fun path => "/repo/" +:+ path;
  parseStartTime := fun arg =>
    if String.eqb arg "2018-01-01" then Some 1514764800 else None;
  parse_complex_functions_file := fun _ => []
|}.

(** The namespace with another value of the option [-a]. *)
Definition with_a (value : option Z) (ns : Namespace) : Namespace :=
  mkNamespace (ns_b ns) (ns_d ns) (ns_s ns) (ns_i ns) value (ns_o ns)
              (ns_af ns) (ns_cf ns) (ns_cc ns).

(** The arguments [-b main -o out.csv -a 7 -i 10]. *)
Definition example_namespace : Namespace :=
  mkNamespace "main" None None (Some 10) (Some 7) "out.csv" None None None.

Definition example_keys : list string :=
  ["a"; "af"; "b"; "cc"; "cf"; "d"; "i"; "o"; "s"].

End MoreStatements.

(** ** More of the small repository *)

(** [c4] changes only a file without a supported extension. *)
Definition readme_old : Blob := mkBlob "README" "README" "hello".
Definition readme_new : Blob := mkBlob "README" "README" "hello there".

Definition c4 : Commit :=
  mkCommit "c4" "ann" 500 [c3] (mkTree [blob_x; blob_b; readme_new] [])
           [mkDiff "M" "README" "README" (Some readme_old) (Some readme_new)].

Definition longer_repo : Repo := mkRepo (fun _ => inr [c4; c3; c2; c1; c0]).

(** The chain and the analyzable commits of the longer log. *)
Definition longer_chain : list AnnotatedCommit * list ref :=
  Eval vm_compute in
    match createDataSet longer_repo "main" 0 1000 0 ["bot"] [] with
    | Done r => r
    | _ => ([], [])
    end.

Definition longer_heap : list AnnotatedCommit := fst longer_chain.
Definition longer_data : list ref := snd longer_chain.

(** A function of complexity 17 that a later commit raises to 20. *)
Definition blob_h1 : Blob := mkBlob "h.c" "h.c" "h aaaaaaaaaaaaaaaa".
Definition blob_h2 : Blob := mkBlob "h.c" "h.c" "h aaaaaaaaaaaaaaaaaaa".

Definition k1 : Commit :=
  mkCommit "k1" "ann" 200 [c0] (mkTree [blob_h1] [])
           [mkDiff "A" "h.c" "h.c" None (Some blob_h1)].

Definition k2 : Commit :=
  mkCommit "k2" "ann" 300 [k1] (mkTree [blob_h2] [])
           [mkDiff "M" "h.c" "h.c" (Some blob_h1) (Some blob_h2)].

Definition complex_heap : list AnnotatedCommit :=
  [AnnotatedCommit_init k1; AnnotatedCommit_init k2].


Section LevenshteinFacts.
Context `{!External}.

Lemma append_empty_r (s : string) : s +:+ EmptyString = s.
Proof.
  induction s as [|c s IH]; [done |].
  change (String c (s +:+ EmptyString) = String c s). by rewrite IH.
Qed.

Lemma append_assoc (a b c : string) : (a +:+ b) +:+ c = a +:+ (b +:+ c).
Proof.
  induction a as [|x a IH]; [done |].
  change (String x ((a +:+ b) +:+ c) = String x (a +:+ (b +:+ c))).
  by rewrite IH.
Qed.

Lemma split_hunks_nonempty b l : split_hunks b l <> [].
Proof.
  revert b; induction l as [|x l IH]; intros b; simpl; [done |].
  destruct (b && negb (is_added x)); [done |].
  unfold cons_first. by destruct (split_hunks (is_added x) l).
Qed.

Lemma total_from_empty hs :
  hs <> [] -> total_from EmptyString EmptyString hs = sum_Z (hunk_distance <$> hs).
Proof. destruct hs as [|h rest]; [done | reflexivity]. Qed.

Lemma total_from_removed A B t hs :
  total_from A B (cons_first (Removed t) hs) = total_from (A +:+ t) B hs.
Proof.
  destruct hs as [|h rest]; simpl.
  - rewrite !append_empty_r. lia.
  - by rewrite append_assoc.
Qed.

Lemma total_from_added A B t hs :
  total_from A B (cons_first (Added t) hs) = total_from A (B +:+ t) hs.
Proof.
  destruct hs as [|h rest]; simpl.
  - rewrite !append_empty_r. lia.
  - by rewrite append_assoc.
Qed.

Lemma total_from_other A B hs :
  total_from A B (cons_first Other hs) = total_from A B hs.
Proof.
  destruct hs as [|h rest]; simpl; [rewrite !append_empty_r; lia | done].
Qed.

Lemma startswith_minus_not_plus line :
  startswith line "-" = true -> startswith line "+" = false.
Proof.
  destruct line as [|c line]; [done |].
  destruct c as [[] [] [] [] [] [] [] []]; cbv; congruence.
Qed.

Lemma blob_delta_step_header st line :
  is_header line = true -> blob_delta_step st line = st.
Proof. unfold blob_delta_step, is_header. by intros ->. Qed.

(** The loop of [blob_delta] against the hunks of the lines it reads. *)
Lemma blob_delta_loop lines : forall st,
  let r := fold_left blob_delta_step lines st in
  aggregatedDistance r + editdistance_eval (contentA r) (contentB r)
  = aggregatedDistance st
    + total_from (contentA st) (contentB st)
        (split_hunks (previous_line_was_plus st)
           (classify <$> filter (fun line => is_header line = false) lines)).
Proof.
  induction lines as [|line lines IH]; intros st; simpl.
  - rewrite !append_empty_r. lia.
  - rewrite filter_cons. destruct (is_header line) eqn:Hh.
    + rewrite decide_False by done.
      rewrite (blob_delta_step_header _ _ Hh). apply IH.
    + rewrite decide_True by done. rewrite fmap_cons.
      rewrite IH. unfold blob_delta_step, classify.
      unfold is_header in Hh. rewrite Hh.
      destruct (startswith line "-") eqn:Hm.
      * rewrite (startswith_minus_not_plus _ Hm).
        destruct (previous_line_was_plus st); simpl.
        -- rewrite total_from_empty by apply split_hunks_nonempty.
           rewrite !append_empty_r. lia.
        -- by rewrite total_from_removed.
      * destruct (startswith line "+") eqn:Hp; simpl.
        -- rewrite andb_false_r. by rewrite total_from_added.
        -- destruct (previous_line_was_plus st); simpl.
           ++ rewrite total_from_empty by apply split_hunks_nonempty.
              rewrite !append_empty_r. lia.
           ++ by rewrite total_from_other.
Qed.

Lemma split_before_nonempty l : split_before l <> [].
Proof.
  induction l as [|x l IH]; simpl; [done |].
  destruct (is_added x && _); [done |].
  unfold cons_first. by destruct (split_before l).
Qed.

Lemma total_from_cons_first A B x hs :
  total_from A B (cons_first x hs)
  = total_from (A +:+ removed_text [x]) (B +:+ added_text [x]) hs.
Proof.
  destruct x as [t|t|]; simpl; rewrite ?append_empty_r.
  - apply total_from_removed.
  - apply total_from_added.
  - apply total_from_other.
Qed.

(** Where the end of a hunk is put, before or after the non-added line
    that follows a run of added lines, makes no difference to the total as
    long as no removed line comes directly after an added one. *)
Lemma hunk_boundary_placement l : forall (b : bool) A B,
  removed_follows_added l = false ->
  (b = true -> match l with Removed _ :: _ => False | _ => True end) ->
  total_from A B (split_hunks b l)
  = if b && match l with
            | y :: _ => negb (is_added y)
            | [] => false
            end
    then editdistance_eval A B + total_from EmptyString EmptyString
                                            (split_before l)
    else total_from A B (split_before l).
Proof.
  induction l as [|x rest IH]; intros b A B Hwf Hb.
  - by rewrite andb_false_r.
  - cbn [removed_follows_added] in Hwf.
    apply orb_false_iff in Hwf as [Hx Hrest].
    cbn [split_hunks split_before].
    destruct (b && negb (is_added x)) eqn:Hclose.
    + apply andb_true_iff in Hclose as [-> Hnx].
      destruct x as [t|t|]; [by destruct (Hb eq_refl) | done |].
      cbn [is_added andb negb total_from fmap list_fmap].
      rewrite (total_from_other EmptyString EmptyString).
      rewrite <- (total_from_empty (split_hunks false rest))
        by apply split_hunks_nonempty.
      rewrite (IH false EmptyString EmptyString Hrest) by done.
      cbn [andb removed_text added_text]. by rewrite !append_empty_r.
    + rewrite total_from_cons_first.
      rewrite (IH (is_added x)) by
        (try done; intros Hadd; rewrite Hadd in Hx;
         by destruct rest as [|[?|?|] ?]).
      destruct (is_added x && match rest with
                              | [] => false
                              | y :: _ => negb (is_added y)
                              end) eqn:Hsplit.
      * cbn [total_from].
        by rewrite total_from_empty by apply split_before_nonempty.
      * by rewrite total_from_cons_first.
Qed.

(** On a diff as git prints it, the total of [blob_delta] is also the sum
    over the hunks that end right after a run of added lines. *)
Lemma blob_delta_sums_hunks_ending_after_added_run (diff : string) :
  removed_follows_added (lines_not_skipped diff) = false ->
  blob_delta_of_text diff
  = sum_Z (hunk_distance <$> split_before (lines_not_skipped diff)).
Proof.
  intros Hwf. unfold blob_delta_of_text, lines_not_skipped in *.
  rewrite blob_delta_loop. cbn [aggregatedDistance contentA contentB
                                 previous_line_was_plus].
  rewrite (hunk_boundary_placement _ false) by done.
  cbn [andb]. by rewrite total_from_empty by apply split_before_nonempty.
Qed.

Lemma blob_delta_of_text_hunks (diff : string) :
  blob_delta_of_text diff
  = sum_Z (hunk_distance <$> hunks (lines_not_skipped diff)).
Proof.
  unfold blob_delta_of_text, hunks, lines_not_skipped.
  rewrite blob_delta_loop. simpl.
  by rewrite total_from_empty by apply split_hunks_nonempty.
Qed.

Lemma hunks_without_added (l : list DiffLine) :
  Forall (fun x => is_added x = false) l ->
  hunks l = [l] /\ added_text l = EmptyString.
Proof.
  unfold hunks. induction 1 as [|x l Hx _ [IH1 IH2]]; [done |].
  cbn [split_hunks andb]. rewrite Hx, IH1. split; [done |].
  destruct x; try done; exact IH2.
Qed.

Lemma hunks_of_added (l : list DiffLine) :
  Forall (fun x => is_added x = true) l ->
  (forall b, split_hunks b l = [l]) /\ removed_text l = EmptyString.
Proof.
  induction 1 as [|x l Hx _ [IH1 IH2]]; [done |]. split.
  - intros b. cbn [split_hunks]. rewrite Hx, !IH1. cbn [negb].
    by rewrite andb_false_r.
  - by destruct x.
Qed.


End LevenshteinFacts.

(** ** The baseline snapshot under [aggregate_delta] and [apply_delta_to_tree] *)

Section SnapshotFacts.
Context `{!External}.

Lemma totals_plus_comm x y : totals_plus x y = totals_plus y x.
Proof.
  destruct x as [[l1 c1] f1], y as [[l2 c2] f2]. simpl. f_equal; [f_equal |]; lia.
Qed.

Lemma totals_plus_assoc x y z :
  totals_plus x (totals_plus y z) = totals_plus (totals_plus x y) z.
Proof.
  destruct x as [[l1 c1] f1], y as [[l2 c2] f2], z as [[l3 c3] f3].
  simpl. f_equal; [f_equal |]; lia.
Qed.

Lemma totals_plus_0_r x : totals_plus x (0, 0, 0) = x.
Proof. destruct x as [[l c] f]. simpl. f_equal; [f_equal |]; lia. Qed.

Lemma totals_plus_0_l x : totals_plus (0, 0, 0) x = x.
Proof. by rewrite totals_plus_comm, totals_plus_0_r. Qed.

Lemma sum_totals_perm l1 l2 : l1 ≡ₚ l2 -> sum_totals l1 = sum_totals l2.
Proof.
  induction 1 as [|x l1 l2 _ IH|x y l|l1 l2 l3 _ IH1 _ IH2]; simpl.
  - done.
  - by rewrite IH.
  - rewrite !totals_plus_assoc. f_equal. apply totals_plus_comm.
  - congruence.
Qed.

Lemma aggregate_delta_step_spec acc item t :
  aggregate_delta_step acc item t = Some (totals_plus acc (item_delta t item), t).
Proof.
  destruct item as [path blobstats], acc as [[l c] f].
  unfold aggregate_delta_step, item_delta, mbind, TreeOp_bind, tree_bind,
    tree_contains, tree_getitem, tree_ret; simpl.
  destruct (t !! path) as [old|] eqn:Hold.
  - rewrite bool_decide_true by eauto. rewrite Hold.
    destruct blobstats as [bs|]; simpl; repeat (f_equal; try lia).
  - rewrite bool_decide_false by (intros [? ?]; done).
    destruct blobstats as [bs|]; simpl; repeat (f_equal; try lia).
Qed.

Lemma aggregate_delta_loop l : forall acc t,
  tree_for aggregate_delta_step l acc t
  = Some (totals_plus acc (sum_totals (item_delta t <$> l)), t).
Proof.
  induction l as [|item l IH]; intros acc t; simpl.
  - unfold tree_ret. by rewrite totals_plus_0_r.
  - unfold mbind, TreeOp_bind, tree_bind.
    rewrite aggregate_delta_step_spec, IH. by rewrite totals_plus_assoc.
Qed.

(** [aggregate_delta] returns the sum of the contributions of the paths of
    the delta and leaves the snapshot as it was. *)
Lemma aggregate_delta_spec delta t :
  aggregate_delta delta t
  = Some (sum_totals (item_delta t <$> map_to_list delta), t).
Proof.
  unfold aggregate_delta. rewrite aggregate_delta_loop.
  by rewrite totals_plus_0_l.
Qed.

Lemma apply_delta_step_spec p v t :
  exists t1, apply_delta_step tt (p, v) t = Some (tt, t1)
    /\ forall path, t1 !! path = if decide (p = path) then v else t !! path.
Proof.
  destruct v as [bs|]; simpl.
  - exists (<[p := bs]> t). split; [done |]. intros path.
    by rewrite lookup_insert.
  - exists (delete p t). split; [done |]. intros path.
    by rewrite lookup_delete.
Qed.

Lemma apply_delta_loop (l : list (string * option BlobStats.t)) :
  NoDup (l.*1) -> forall t,
  exists t', tree_for apply_delta_step l tt t = Some (tt, t')
    /\ forall path, t' !! path = applied (list_to_map l) t path.
Proof.
  induction l as [|[p v] l IH]; intros Hnd t.
  - exists t. split; [done |]. intros path. unfold applied.
    cbn [list_to_map foldr]. by rewrite lookup_empty.
  - rewrite fmap_cons in Hnd. apply NoDup_cons in Hnd as [Hp Hnd].
    destruct (apply_delta_step_spec p v t) as (t1 & Hstep & Ht1).
    destruct (IH Hnd t1) as (t' & Hrest & Ht').
    exists t'. split.
    + cbn [tree_for]. unfold mbind, TreeOp_bind, tree_bind.
      by rewrite Hstep.
    + intros path. rewrite Ht'. unfold applied. cbn [list_to_map foldr].
      cbn [uncurry curry fst snd].
      rewrite lookup_insert. rewrite Ht1.
      destruct (decide (p = path)) as [<-|Hne]; [| done].
      rewrite (not_elem_of_list_to_map_1 _ _ Hp). by destruct v.
Qed.

Lemma aggregate_delta_frame_effect_aux
    (delta : gmap string (option BlobStats.t)) (t : gmap string BlobStats.t) :
  exists t', apply_delta_to_tree delta t = Some (tt, t').
Proof.
  destruct (apply_delta_loop (map_to_list delta)
              (NoDup_fst_map_to_list delta) t) as (t' & Happly & _).
  by exists t'.
Qed.

(** C10: [aggregate_delta] returns its totals and leaves the baseline
    snapshot as it found it; [apply_delta_to_tree] is what changes it, and
    afterwards a path the delta marks as deleted maps to nothing (also when
    it was absent before), a path with new stats maps to exactly those
    stats, and every path the delta does not mention maps to what it
    mapped to before. *)
Theorem aggregate_delta_frame_apply_delta_effect
    (delta : gmap string (option BlobStats.t)) (t : gmap string BlobStats.t) :
  (exists totals, aggregate_delta delta t = Some (totals, t))
  /\ exists t', apply_delta_to_tree delta t = Some (tt, t')
       /\ (forall path, delta !! path = Some None -> t' !! path = None)
       /\ (forall path bs, delta !! path = Some (Some bs) -> t' !! path = Some bs)
       /\ (forall path, delta !! path = None -> t' !! path = t !! path).
Proof.
  split.
  - eexists. apply aggregate_delta_spec.
  - destruct (apply_delta_loop (map_to_list delta)
                (NoDup_fst_map_to_list delta) t) as (t' & Happly & Ht').
    exists t'. split; [exact Happly |].
    rewrite list_to_map_to_list in Ht'. unfold applied in Ht'.
    repeat split.
    + intros path Hp. by rewrite Ht', Hp.
    + intros path bs Hp. by rewrite Ht', Hp.
    + intros path Hp. by rewrite Ht', Hp.
Qed.

End SnapshotFacts.

(** ** Renames in the tree delta *)

Section RenameFacts.
Context `{!External}.

Lemma tree_delta_step_unsupported m d :
  unsupported d -> tree_delta_step m d = Some m.
Proof.
  intros [Ha Hb]. unfold tree_delta_step. rewrite Ha, Hb.
  destruct (String.eqb (change_type d) "A" || String.eqb (change_type d) "M");
    simpl;
    destruct (String.eqb (change_type d) "D");
    destruct (startswith (change_type d) "R"); done.
Qed.

Lemma tree_delta_fold_unsupported l m :
  Forall unsupported l ->
  foldl (fun acc diff => d ← acc; tree_delta_step d diff) (Some m) l = Some m.
Proof.
  induction 1 as [|d l Hd _ IH]; simpl; [done |].
  by rewrite (tree_delta_step_unsupported _ _ Hd).
Qed.

Lemma rename_is_no_other_change ct :
  startswith ct "R" = true ->
  String.eqb ct "A" = false /\ String.eqb ct "M" = false
  /\ String.eqb ct "D" = false.
Proof.
  intros HR. repeat split.
  - destruct (String.eqb_spec ct "A") as [->|]; [done | done].
  - destruct (String.eqb_spec ct "M") as [->|]; [done | done].
  - destruct (String.eqb_spec ct "D") as [->|]; [done | done].
Qed.

Lemma tree_delta_step_rename m d blob :
  startswith (change_type d) "R" = true ->
  extension_supported (a_path d) = true ->
  extension_supported (b_path d) = true ->
  b_blob d = Some blob ->
  tree_delta_step m d
  = Some (<[b_path d := Some (blob_stats blob)]> (<[a_path d := None]> m)).
Proof.
  intros HR Ha Hb Hblob. unfold tree_delta_step.
  destruct (rename_is_no_other_change _ HR) as (-> & -> & ->).
  simpl. by rewrite HR, Ha, Hb, Hblob.
Qed.

(** C7, amended: when the only change of a commit in files of supported
    extensions is a rename, and the baseline snapshot holds for the old
    path exactly the stats that measuring the renamed blob yields and holds
    nothing for the new path, the tree delta marks the old path as deleted
    and the new path as measured, and the delta totals, deltaLoc among
    them, are 0; the snapshot is left as it was. *)
Theorem rename_with_matching_baseline_nets_zero
    (commitB parent : Commit) (before after : list Diff) (rename : Diff)
    (blob : Blob) (t : gmap string BlobStats.t) :
  head (parents commitB) = Some parent ->
  parent_diff commitB = before ++ rename :: after ->
  Forall unsupported before ->
  Forall unsupported after ->
  startswith (change_type rename) "R" = true ->
  extension_supported (a_path rename) = true ->
  extension_supported (b_path rename) = true ->
  b_blob rename = Some blob ->
  a_path rename <> b_path rename ->
  t !! a_path rename = Some (blob_stats blob) ->
  t !! b_path rename = None ->
  exists delta,
    tree_delta commitB = Some delta
    /\ delta !! a_path rename = Some None
    /\ delta !! b_path rename = Some (Some (blob_stats blob))
    /\ aggregate_delta delta t = Some ((0, 0, 0), t).
Proof.
  intros Hparent Hdiff Hbefore Hafter HR Ha Hb Hblob Hne Hold Hnew.
  exists (<[b_path rename := Some (blob_stats blob)]>
            (<[a_path rename := None]> ∅)).
  repeat split.
  - unfold tree_delta. rewrite Hparent, Hdiff. simpl.
    rewrite foldl_app. rewrite (tree_delta_fold_unsupported _ _ Hbefore).
    simpl. rewrite (tree_delta_step_rename _ _ _ HR Ha Hb Hblob).
    apply (tree_delta_fold_unsupported _ _ Hafter).
  - rewrite lookup_insert_ne by done. apply lookup_insert_eq.
  - apply lookup_insert_eq.
  - rewrite aggregate_delta_spec. do 2 f_equal.
    rewrite (sum_totals_perm _
               (item_delta t <$> [(b_path rename, Some (blob_stats blob));
                                  (a_path rename, None)])).
    + unfold item_delta; simpl. rewrite Hold, Hnew.
      destruct (blob_stats blob) as [l c f]; simpl.
      repeat (f_equal; try lia).
    + apply fmap_Permutation.
      rewrite map_to_list_insert.
      * constructor. rewrite map_to_list_insert by apply lookup_empty.
        by rewrite map_to_list_empty.
      * rewrite lookup_insert_ne by done. apply lookup_empty.
Qed.

End RenameFacts.

(** ** The chain that [createDataSet] builds *)

Section ChainFacts.
Context `{!External}.

Lemma refs_from_snoc p k l x :
  refs_from p k (l ++ [x])
  = refs_from p k l ++ (if p x then [(k + length l)%nat] else []).
Proof.
  revert k; induction l as [|c l IH]; intros k; simpl.
  - rewrite Nat.add_0_r. by destruct (p x).
  - rewrite IH. replace (S k + length l)%nat with (k + S (length l))%nat by lia.
    by destruct (p c).
Qed.

Lemma elem_of_refs_from p k l r :
  r ∈ refs_from p k l
  <-> exists i c, r = (k + i)%nat /\ l !! i = Some c /\ p c = true.
Proof.
  revert k; induction l as [|c l IH]; intros k; simpl.
  - split; [by intros ?%elem_of_nil | by intros (i & ? & _ & ? & _)].
  - assert (r ∈ refs_from p (S k) l
            <-> exists i c', r = (k + S i)%nat /\ l !! i = Some c' /\ p c' = true)
      as Hrest.
    { rewrite IH. split; intros (i & c' & -> & ? & ?); exists i, c';
        (split; [lia | done]). }
    destruct (p c) eqn:Hc.
    + rewrite elem_of_cons, Hrest. split.
      * intros [-> | (i & c' & -> & Hi & Hp)].
        -- exists O, c. by rewrite Nat.add_0_r.
        -- by exists (S i), c'.
      * intros ([|i] & c' & -> & Hi & Hp).
        -- left. lia.
        -- right. by exists i, c'.
    + rewrite Hrest. split.
      * intros (i & c' & -> & Hi & Hp). by exists (S i), c'.
      * intros ([|i] & c' & -> & Hi & Hp).
        -- simpl in Hi. congruence.
        -- by exists i, c'.
Qed.

Lemma refs_from_NoDup p k l : NoDup (refs_from p k l).
Proof.
  revert k; induction l as [|c l IH]; intros k; simpl; [constructor |].
  destruct (p c); [| apply IH].
  constructor; [| apply IH].
  rewrite elem_of_refs_from. intros (i & ? & Hk & _). lia.
Qed.

Lemma build_chain_snoc s e fa fc raw x :
  build_chain s e fa fc (raw ++ [x])
  = createDataSet_step s e fa fc (build_chain s e fa fc raw) x.
Proof. unfold build_chain. by rewrite foldl_app. Qed.

Lemma chain_record_relink n i c :
  S i = n -> set_next (Some n) (chain_record n i c) = chain_record (S n) i c.
Proof.
  intros <-. unfold chain_record, next_ref.
  rewrite decide_False by lia. rewrite decide_True by lia. done.
Qed.

Lemma chain_record_grow n i c :
  (S i < n)%nat -> chain_record n i c = chain_record (S n) i c.
Proof.
  intros Hi. unfold chain_record, next_ref.
  by rewrite !decide_True by lia.
Qed.

Lemma chain_record_last n c :
  set_previous (pred_ref n) (AnnotatedCommit_init c) = chain_record (S n) n c.
Proof. unfold chain_record, next_ref. by rewrite decide_False by lia. Qed.

(** The state of the loop of [createDataSet] after the whole log. *)
Lemma build_chain_spec s e fa fc raw :
  let st := build_chain s e fa fc raw in
  length (cs_heap st) = length raw
  /\ cs_current st = pred_ref (length raw)
  /\ cs_data st = refs_from (analyzable s e fa fc) 0 raw
  /\ forall i c, raw !! i = Some c ->
       cs_heap st !! i = Some (chain_record (length raw) i c).
Proof.
  induction raw as [|x raw IH] using rev_ind.
  - repeat split. intros i c Hi. by rewrite lookup_nil in Hi.
  - rewrite build_chain_snoc. destruct IH as (Hlen & Hcur & Hdata & Hlook).
    set (st := build_chain s e fa fc raw) in *.
    unfold createDataSet_step. cbn [cs_heap cs_data cs_current].
    rewrite Hcur, Hlen, length_app. cbn [length].
    replace (length raw + 1)%nat with (S (length raw)) by lia.
    split; [| split; [| split]].
    + destruct (length raw) eqn:Hn; cbn [pred_ref].
      * rewrite length_app, Hlen. done.
      * rewrite length_alter, length_app, Hlen. simpl. lia.
    + done.
    + rewrite refs_from_snoc, Hdata. simpl.
      destruct (analyzable s e fa fc x); [done | by rewrite app_nil_r].
    + intros i c Hi.
      assert (forall h, (match pred_ref (length raw) with
                         | Some p0 => alter (set_next (Some (length raw))) p0 h
                         | None => h
                         end) !! i
                = if decide (S i = length raw)
                  then set_next (Some (length raw)) <$> h !! i else h !! i)
        as ->.
      { intros h. destruct (length raw) as [|n] eqn:Hn; cbn [pred_ref].
        - by rewrite decide_False by lia.
        - destruct (decide (S i = S n)) as [Heq|Hne].
          + injection Heq as ->. apply list_lookup_alter_eq.
          + apply list_lookup_alter_ne. lia. }
      apply lookup_snoc_Some in Hi as [[Hlt Hi] | [-> ->]].
      * rewrite lookup_app_l by lia. rewrite (Hlook _ _ Hi).
        destruct (decide (S i = length raw)) as [Heq|Hne]; simpl.
        -- by rewrite chain_record_relink.
        -- by rewrite chain_record_grow by lia.
      * rewrite decide_False by lia.
        rewrite <- Hlen at 1. rewrite list_lookup_middle by done.
        by rewrite chain_record_last.
Qed.

Lemma commits_of_cons (heap : Heap) r rs :
  commits_of heap (r :: rs)
  = match commit <$> heap !! r with
    | Some c => c :: commits_of heap rs
    | None => commits_of heap rs
    end.
Proof. reflexivity. Qed.

Lemma commits_of_refs_from p (heap : Heap) l : forall k,
  (forall i c, l !! i = Some c -> commit <$> heap !! (k + i)%nat = Some c) ->
  commits_of heap (refs_from p k l) = filter (fun c => p c = true) l.
Proof.
  induction l as [|c l IH]; intros k Hheap; simpl; [done |].
  rewrite filter_cons.
  assert (commits_of heap (refs_from p (S k) l)
          = filter (fun c => p c = true) l) as Hrest.
  { apply IH. intros i c' Hi.
    replace (S k + i)%nat with (k + S i)%nat by lia. by apply Hheap. }
  destruct (p c) eqn:Hc.
  - rewrite decide_True by done. rewrite commits_of_cons.
    specialize (Hheap O c eq_refl). rewrite Nat.add_0_r in Hheap.
    by rewrite Hheap, Hrest.
  - rewrite decide_False by congruence. done.
Qed.

Lemma length_refs_from p l : forall k,
  length (refs_from p k l) = length (filter (fun c => p c = true) l).
Proof.
  induction l as [|c l IH]; intros k; simpl; [done |].
  rewrite filter_cons. destruct (p c) eqn:Hc.
  - rewrite decide_True by done. simpl. by rewrite IH.
  - rewrite decide_False by congruence. apply IH.
Qed.

Lemma analyzable_iff s e fa fc c :
  analyzable s e fa fc c = true
  <-> s < committed_date c /\ committed_date c < e
      /\ length (parents c) = 1%nat /\ filter_match c fa fc = false.
Proof.
  unfold analyzable. rewrite !andb_true_iff, negb_true_iff.
  rewrite Z.gtb_lt, Z.ltb_lt, Nat.eqb_eq. tauto.
Qed.

Lemma StronglySorted_reverse_flip {A} (R : A -> A -> Prop) l :
  StronglySorted R l -> StronglySorted (flip R) (reverse l).
Proof.
  induction 1 as [|x l _ IH Hx]; [constructor |].
  rewrite reverse_cons. apply StronglySorted_app. split; [| split].
  - intros y z Hy Hz. apply list_elem_of_singleton in Hz as ->.
    rewrite elem_of_reverse in Hy. rewrite Forall_forall in Hx.
    unfold flip. by apply Hx.
  - done.
  - repeat constructor.
Qed.

Lemma StronglySorted_filter_keep {A} (R : A -> A -> Prop) (P : A -> Prop)
    `{forall x, Decision (P x)} l :
  StronglySorted R l -> StronglySorted R (filter P l).
Proof.
  induction 1 as [|x l _ IH Hx]; [constructor |].
  rewrite filter_cons. destruct (decide (P x)); [| done].
  constructor; [done |].
  rewrite Forall_forall in *. intros y Hy.
  apply list_elem_of_filter in Hy as [_ Hy]. by apply Hx.
Qed.


End ChainFacts.

(** ** The absolute and delta totals of the size/complexity aggregator *)

Section SizeLoopFacts.
Context `{!External}.

Lemma deltas_match_set before delta a :
  deltas_match before
    (set_size_and_complexity (totals_plus before delta) delta a).
Proof.
  destruct before as [[pl pcc] pf], delta as [[dl dcc] df].
  exists (pl + dl, pcc + dcc, pf + df), (dl, dcc, df).
  repeat split. simpl. repeat (f_equal; try lia).
Qed.

Lemma absolutes_set before delta a :
  absolutes (set_size_and_complexity (totals_plus before delta) delta a)
  = Some (totals_plus before delta).
Proof. by destruct before as [[pl pcc] pf], delta as [[dl dcc] df]. Qed.

(** One iteration of the loop of [analyzeSizeAndComplexity]. *)
Lemma analyzeSizeAndComplexity_step_spec st c ac td pc before :
  ss_heap st !! c = Some ac ->
  tree_delta (commit ac) = Some td ->
  deref (ss_heap st) (ss_previous_commit st) = Some pc ->
  absolutes pc = Some before ->
  exists delta t2,
    aggregate_delta td (ss_previous_tree st)
    = Some (delta, ss_previous_tree st)
    /\ analyzeSizeAndComplexity_step st c
       = Some (mkSizeState
                 (alter (set_size_and_complexity (totals_plus before delta)
                                                 delta) c (ss_heap st))
                 t2 (inr c)).
Proof.
  intros Hac Htd Hpc Habs. unfold analyzeSizeAndComplexity_step.
  rewrite Hac. cbn [mbind option_bind]. rewrite Htd. cbn [mbind option_bind].
  rewrite aggregate_delta_spec. cbn [mbind option_bind].
  rewrite Hpc. cbn [mbind option_bind].
  unfold absolutes in Habs.
  destruct (loc pc) as [pl|]; [| done].
  destruct (cyclomaticComplexity pc) as [pcc|]; [| done].
  destruct (functions pc) as [pf|]; [| done].
  injection Habs as <-. cbn [mbind option_bind].
  destruct (sum_totals _) as [[dl dcc] df] eqn:Hsum.
  destruct (aggregate_delta_frame_effect_aux td (ss_previous_tree st))
    as (t2 & Happly).
  rewrite Happly. cbn [mbind option_bind].
  exists (dl, dcc, df), t2. done.
Qed.

(** The loop of [analyzeSizeAndComplexity] from any state in which
    [previous_commit] holds absolute totals. *)
Lemma analyzeSizeAndComplexity_loop l : forall st pc before,
  NoDup l ->
  (forall c, c ∈ l ->
     exists ac, ss_heap st !! c = Some ac
       /\ is_Some (tree_delta (commit ac))) ->
  deref (ss_heap st) (ss_previous_commit st) = Some pc ->
  absolutes pc = Some before ->
  exists st',
    for_each analyzeSizeAndComplexity_step l st = Some st'
    /\ (forall r, r ∉ l -> ss_heap st' !! r = ss_heap st !! r)
    /\ (forall c rest, l = c :: rest ->
          exists a', ss_heap st' !! c = Some a' /\ deltas_match before a')
    /\ (forall k p c, l !! k = Some p -> l !! S k = Some c ->
          exists ap ac abs_p,
            ss_heap st' !! p = Some ap /\ ss_heap st' !! c = Some ac
            /\ absolutes ap = Some abs_p /\ deltas_match abs_p ac).
Proof.
  induction l as [|c l IH]; intros st pc before Hnd Hok Hpc Habs.
  - exists st. repeat split; done.
  - apply NoDup_cons in Hnd as [Hc Hnd].
    destruct (Hok c) as (ac & Hac & [td Htd]); [by left |].
    destruct (analyzeSizeAndComplexity_step_spec st c ac td pc before
                Hac Htd Hpc Habs) as (delta & t2 & _ & Hstep).
    set (a1 := set_size_and_complexity (totals_plus before delta) delta ac).
    set (st1 := mkSizeState
                  (alter (set_size_and_complexity (totals_plus before delta)
                                                  delta) c (ss_heap st))
                  t2 (inr c)) in *.
    assert (ss_heap st1 !! c = Some a1) as Hc1.
    { unfold st1. cbn [ss_heap]. by rewrite list_lookup_alter_eq, Hac. }
    assert (forall c', c' ∈ l ->
              exists ac', ss_heap st1 !! c' = Some ac'
                /\ is_Some (tree_delta (commit ac'))) as Hok1.
    { intros c' Hc'. destruct (Hok c') as (ac' & Hac' & Htd'); [by right |].
      exists ac'. split; [| done]. unfold st1. cbn [ss_heap].
      rewrite list_lookup_alter_ne; [done |]. intros ->. done. }
    destruct (IH st1 a1 (totals_plus before delta) Hnd Hok1 Hc1
                (absolutes_set _ _ _))
      as (st' & Hloop & Hframe & Hfirst & Hpairs).
    exists st'. split; [| split; [| split]].
    + cbn [for_each]. rewrite Hstep. exact Hloop.
    + intros r Hr. apply not_elem_of_cons in Hr as [Hrc Hr].
      rewrite (Hframe r Hr). unfold st1. cbn [ss_heap].
      by rewrite list_lookup_alter_ne.
    + intros c' rest [= <- <-]. exists a1. split.
      * by rewrite (Hframe c Hc).
      * apply deltas_match_set.
    + intros [|k] p c' Hp Hc'.
      * injection Hp as <-. cbn in Hc'.
        destruct l as [|c2 l2]; [done |]. injection Hc' as <-.
        destruct (Hfirst c2 l2 eq_refl) as (a2 & Ha2 & Hm2).
        exists a1, a2, (totals_plus before delta).
        split; [by rewrite (Hframe c Hc) |]. split; [done |].
        split; [apply absolutes_set | done].
      * apply (Hpairs k p c'); done.
Qed.

(** C1, amended: [analyzeSizeAndComplexity] returns when every commit of
    [data] can be measured, and then each delta field of the first commit
    of [data] is its absolute field minus the total of the baseline, the
    full tree of its parent, and each delta field of every later commit of
    [data] is its absolute field minus the absolute field of the commit
    just before it in [data], the analyzable sequence; equivalently each
    absolute is that previous absolute plus the delta. *)
Theorem size_deltas_relate_consecutive_analyzed_commits
    (data : list ref) (heap : Heap) :
  NoDup data ->
  (forall c, c ∈ data ->
     exists ac, heap !! c = Some ac /\ is_Some (tree_delta (commit ac))) ->
  exists h',
    analyzeSizeAndComplexity data heap = Some h'
    /\ (forall c rest a, data = c :: rest -> heap !! c = Some a ->
          exists parent a',
            head (parents (commit a)) = Some parent
            /\ h' !! c = Some a'
            /\ deltas_match
                 (aggregate_stats_from_blobs (analyze_tree (tree parent))) a')
    /\ (forall k p c, data !! k = Some p -> data !! S k = Some c ->
          exists ap ac before,
            h' !! p = Some ap /\ h' !! c = Some ac
            /\ absolutes ap = Some before /\ deltas_match before ac).
Proof.
  intros Hnd Hok. destruct data as [|first rest].
  - exists heap. split; [done |]. split; [done |].
    intros k p c Hk. by rewrite lookup_nil in Hk.
  - destruct (Hok first) as (a0 & Ha0 & [td Htd]); [by left |].
    assert (exists parent, head (parents (commit a0)) = Some parent)
      as [parent Hparent].
    { unfold tree_delta in Htd.
      destruct (head (parents (commit a0))) as [parent|]; [by eexists | done]. }
    set (before := aggregate_stats_from_blobs (analyze_tree (tree parent))).
    set (pc := set_absolutes before (AnnotatedCommit_init parent)).
    assert (absolutes pc = Some before) as Hbefore.
    { unfold pc. by destruct before as [[l c] f]. }
    destruct (analyzeSizeAndComplexity_loop (first :: rest)
                (mkSizeState heap (analyze_tree (tree parent)) (inl pc))
                pc before Hnd Hok eq_refl Hbefore)
      as (st' & Hloop & _ & Hfirst & Hpairs).
    exists (ss_heap st'). split; [| split].
    + unfold analyzeSizeAndComplexity. rewrite Ha0. cbn [mbind option_bind].
      unfold size_baseline. rewrite Hparent. cbn [mbind option_bind].
      fold before. fold pc. rewrite Hloop. done.
    + intros c rest' a [= <- <-] Ha. assert (a = a0) as -> by congruence.
      destruct (Hfirst first rest eq_refl) as (a' & Ha' & Hm).
      by exists parent, a'.
    + exact Hpairs.
Qed.

End SizeLoopFacts.

(** ** The backward walks of the windowed activity analyzers *)

Section WalkFacts.
Context `{!External}.

Lemma history_S raw i c :
  raw !! i = Some c -> history raw (S i) = c :: history raw i.
Proof.
  intros Hi. unfold history. rewrite (take_S_r _ _ _ Hi).
  apply reverse_snoc.
Qed.

Lemma walk_back_None {S} fuel (heap : Heap) cutOff
    (body : Commit -> S -> S * bool) s :
  walk_back fuel heap cutOff body None s = Some s.
Proof. by destruct fuel. Qed.

Lemma walk_back_Some {S} fuel (heap : Heap) cutOff
    (body : Commit -> S -> S * bool) p pc s :
  heap !! p = Some pc ->
  walk_back (Datatypes.S fuel) heap cutOff body (Some p) s
  = if committed_date (commit pc) >? cutOff then
      let '(s', stop) := body (commit pc) s in
      if stop : bool then Some s'
      else walk_back fuel heap cutOff body (previous pc) s'
    else Some s.
Proof. intros Hp. simpl. rewrite Hp. simpl. done. Qed.

(** On a linked heap the walk from the record at [i] is the walk over the
    history of [i] in the raw log, and the fuel [i] suffices. *)
Lemma walk_back_linked {S} raw (heap : Heap) cutOff
    (body : Commit -> S -> S * bool) :
  chain_linked raw heap ->
  forall i fuel s, (i <= length raw)%nat -> (i <= fuel)%nat ->
    walk_back fuel heap cutOff body (pred_ref i) s
    = Some (walk_list cutOff body (history raw i) s).
Proof.
  intros [Hlen Hlink]. induction i as [|i IH]; intros fuel s Hi Hfuel.
  - simpl. apply walk_back_None.
  - destruct fuel as [|fuel]; [lia |].
    destruct (lookup_lt_is_Some_2 heap i) as [pc Hpc]; [lia |].
    destruct (Hlink _ _ Hpc) as [Hraw Hprev].
    rewrite (history_S _ _ _ Hraw). cbn [pred_ref walk_list].
    rewrite (walk_back_Some _ _ _ _ _ _ _ Hpc).
    destruct (committed_date (commit pc) >? cutOff); [| done].
    destruct (body (commit pc) s) as [s' [|]]; [done |].
    rewrite Hprev. apply IH; lia.
Qed.

Lemma walk_list_committers cutOff l : forall s : gset string,
  walk_list cutOff (fun p committers => ({[author_name p]} ∪ committers, false))
            l s
  = list_to_set (author_name <$>
       take_while (fun c => committed_date c >? cutOff) l) ∪ s.
Proof.
  induction l as [|p l IH]; intros s; simpl.
  - set_solver.
  - destruct (committed_date p >? cutOff); simpl.
    + rewrite IH. set_solver.
    + set_solver.
Qed.

Lemma walk_list_count cutOff l : forall n : Z,
  walk_list cutOff (fun _ n => (n + 1, false)) l n
  = n + Z.of_nat (length (take_while (fun c => committed_date c >? cutOff) l)).
Proof.
  induction l as [|p l IH]; intros n; simpl.
  - lia.
  - destruct (committed_date p >? cutOff); simpl.
    + rewrite IH. lia.
    + lia.
Qed.

Lemma walk_list_find cutOff (c : Commit) l :
  walk_list cutOff
    (fun p (found : option Z) =>
       if String.eqb (author_name p) (author_name c)
       then (Some (int_truediv (committed_date c - committed_date p) day), true)
       else (found, false))
    l None
  = (fun p => int_truediv (committed_date c - committed_date p) day)
    <$> List.find (fun p => String.eqb (author_name p) (author_name c))
                  (take_while (fun c => committed_date c >? cutOff) l).
Proof.
  induction l as [|p l IH]; simpl; [done |].
  destruct (committed_date p >? cutOff); simpl; [| done].
  destruct (String.eqb (author_name p) (author_name c)); [done | exact IH].
Qed.

Lemma chain_linked_alter raw (heap : Heap) g c :
  (forall a, commit (g a) = commit a /\ previous (g a) = previous a) ->
  chain_linked raw heap -> chain_linked raw (alter g c heap).
Proof.
  intros Hg [Hlen Hlink]. split; [by rewrite length_alter |].
  intros i ac. rewrite list_lookup_alter.
  destruct (decide (c = i)) as [->|Hne]; [| apply Hlink].
  destruct (heap !! i) as [a|] eqn:Ha; simpl; [| done].
  intros [= <-]. destruct (Hg a) as [-> ->]. by apply Hlink.
Qed.

(** A loop over [data] each of whose iterations applies [u c] to the
    record [c] leaves the heap annotated by [u]. *)
Lemma for_each_annotate raw body u :
  (forall i a, commit (u i a) = commit a /\ previous (u i a) = previous a) ->
  (forall (h : Heap) c ac, chain_linked raw h -> h !! c = Some ac ->
     body h c = Some (alter (u c) c h)) ->
  forall data (h : Heap),
    NoDup data -> (forall c, c ∈ data -> (c < length raw)%nat) ->
    chain_linked raw h ->
    for_each body data h = Some (annotate u data h).
Proof.
  intros Hu Hbody. induction data as [|c data IH]; intros h Hnd Hdata Hlink.
  - simpl. f_equal. unfold annotate. apply list_eq. intros i.
    rewrite list_lookup_imap. by destruct (h !! i).
  - apply NoDup_cons in Hnd as [Hc Hnd].
    destruct (lookup_lt_is_Some_2 h c) as [ac Hac].
    { destruct Hlink as [-> _]. apply Hdata. by left. }
    cbn [for_each]. rewrite (Hbody _ _ _ Hlink Hac). simpl.
    rewrite IH; [| done | by intros; apply Hdata; right
                 | by apply chain_linked_alter].
    f_equal. unfold annotate. apply list_eq. intros i.
    rewrite !list_lookup_imap, list_lookup_alter.
    destruct (decide (c = i)) as [->|Hne].
    + destruct (h !! i); simpl; [| done].
      rewrite bool_decide_false by done.
      by rewrite bool_decide_true by (by left).
    + destruct (h !! i); simpl; [| done].
      by rewrite (bool_decide_ext (i ∈ data) (i ∈ c :: data))
        by (rewrite elem_of_cons; naive_solver).
Qed.

Lemma chain_linked_annotate raw u data (heap : Heap) :
  (forall i a, commit (u i a) = commit a /\ previous (u i a) = previous a) ->
  chain_linked raw heap -> chain_linked raw (annotate u data heap).
Proof.
  intros Hu [Hlen Hlink]. split; [unfold annotate; by rewrite length_imap |].
  intros i ac. unfold annotate. rewrite list_lookup_imap.
  destruct (heap !! i) as [a|] eqn:Ha; simpl; [| done].
  intros [= <-]. destruct (Hlink _ _ Ha) as [Hraw Hprev].
  destruct (bool_decide (i ∈ data)); [| done].
  by destruct (Hu i a) as [-> ->].
Qed.

Lemma lookup_annotate u data (heap : Heap) i :
  annotate u data heap !! i
  = (fun ac => if bool_decide (i ∈ data) then u i ac else ac) <$> heap !! i.
Proof. unfold annotate. apply list_lookup_imap. Qed.

Lemma analyzeNumberOfActiveDevelopers_spec raw w data (heap : Heap) :
  NoDup data -> (forall c, c ∈ data -> (c < length raw)%nat) ->
  chain_linked raw heap ->
  analyzeNumberOfActiveDevelopers data w heap
  = Some (annotate (u_active raw w) data heap).
Proof.
  unfold analyzeNumberOfActiveDevelopers. apply for_each_annotate.
  - done.
  - intros h c ac Hlink Hac. rewrite Hac. simpl.
    destruct (proj2 Hlink _ _ Hac) as [Hraw ->].
    pose proof (lookup_lt_Some _ _ _ Hraw) as Hlt.
    rewrite (walk_back_linked raw h _ _ Hlink c (length h))
      by (destruct Hlink as [Hl _]; lia).
    simpl. rewrite walk_list_committers.
    f_equal. apply list_alter_ext; [| done]. intros a Ha.
    assert (a = ac) as -> by congruence.
    unfold u_active, active_developers, window.
    by rewrite (right_id_L ∅ (∪)).
Qed.

Lemma analyzeDaysSincePreviousCommit_spec raw w data (heap : Heap) :
  NoDup data -> (forall c, c ∈ data -> (c < length raw)%nat) ->
  chain_linked raw heap ->
  analyzeDaysSincePreviousCommit data w heap
  = Some (annotate (u_days raw w) data heap).
Proof.
  unfold analyzeDaysSincePreviousCommit. apply for_each_annotate.
  - intros i a. unfold u_days. by destruct (days_since_previous _ _ _ _).
  - intros h c ac Hlink Hac. rewrite Hac. simpl.
    destruct (proj2 Hlink _ _ Hac) as [Hraw ->].
    pose proof (lookup_lt_Some _ _ _ Hraw) as Hlt.
    rewrite (walk_back_linked raw h _ _ Hlink c (length h))
      by (destruct Hlink as [Hl _]; lia).
    simpl. rewrite walk_list_find. f_equal.
    fold (window raw c (committed_date (commit ac) - w)).
    fold (days_since_previous raw w c (commit ac)).
    destruct (days_since_previous raw w c (commit ac)) as [days|] eqn:Hd.
    + apply list_alter_ext; [| done]. intros a Ha.
      assert (a = ac) as -> by congruence.
      unfold u_days. by rewrite Hd.
    + symmetry. apply list_eq. intros i. rewrite list_lookup_alter.
      destruct (decide (c = i)) as [->|]; [| done].
      rewrite Hac. simpl. unfold u_days. by rewrite Hd.
Qed.

Lemma analyzeNumberOfCommitsInSameDay_spec raw data (heap : Heap) :
  NoDup data -> (forall c, c ∈ data -> (c < length raw)%nat) ->
  chain_linked raw heap ->
  analyzeNumberOfCommitsInSameDay data heap
  = Some (annotate (u_24h raw) data heap).
Proof.
  unfold analyzeNumberOfCommitsInSameDay. apply for_each_annotate.
  - done.
  - intros h c ac Hlink Hac. rewrite Hac. simpl.
    destruct (proj2 Hlink _ _ Hac) as [Hraw ->].
    pose proof (lookup_lt_Some _ _ _ Hraw) as Hlt.
    rewrite (walk_back_linked raw h _ _ Hlink c (length h))
      by (destruct Hlink as [Hl _]; lia).
    simpl. rewrite walk_list_count.
    f_equal. apply list_alter_ext; [| done]. intros a Ha.
    assert (a = ac) as -> by congruence.
    unfold u_24h, commits_in_last_24h, window. by rewrite Z.add_0_l.
Qed.

End WalkFacts.

(** ** The windowed activity metrics on the chain of [createDataSet] *)

Section ActivityFacts.
Context `{!External}.

(** What a successful [createDataSet] hands to the analyzers. *)
Lemma createDataSet_Done repo branch s e w fa fc (heap : Heap) data :
  createDataSet repo branch s e w fa fc = Done (heap, data) ->
  exists log, iter_commits repo branch = inr log
    /\ chain_linked (reverse log) heap
    /\ data = refs_from (analyzable s e fa fc) 0 (reverse log)
    /\ NoDup data
    /\ (forall c, c ∈ data -> (c < length (reverse log))%nat)
    /\ (forall i c, reverse log !! i = Some c ->
          heap !! i = Some (chain_record (length (reverse log)) i c)).
Proof.
  unfold createDataSet. destruct (iter_commits repo branch) as [err|log]; [done |].
  pose proof (build_chain_spec s e fa fc (reverse log))
    as (Hlen & _ & Hdata & Hlook).
  destruct (length (cs_data _) =? 0)%nat;
    [by destruct (secondsToIso s), (secondsToIso e) |].
  intros [= <- <-]. exists log. split; [done |].
  split; [| split; [done | split; [| split; [| done]]]].
  - split; [done |]. intros i ac Hi.
    destruct (lookup_lt_is_Some_2 (reverse log) i) as [c Hc].
    { rewrite <- Hlen. by apply lookup_lt_Some in Hi. }
    rewrite (Hlook _ _ Hc) in Hi. injection Hi as <-. done.
  - rewrite Hdata. apply refs_from_NoDup.
  - intros c. rewrite Hdata, elem_of_refs_from.
    intros (i & c' & -> & Hi & _). apply lookup_lt_Some in Hi. lia.
Qed.

Lemma u_days_keeps raw w i a :
  commit (u_days raw w i a) = commit a
  /\ previous (u_days raw w i a) = previous a
  /\ numberOfActiveDevelopers (u_days raw w i a) = numberOfActiveDevelopers a
  /\ numberOfCommitsInLast24h (u_days raw w i a) = numberOfCommitsInLast24h a
  /\ daysSincePreviousCommitByDeveloper (u_days raw w i a)
     = match days_since_previous raw w i (commit a) with
       | Some days => Some days
       | None => daysSincePreviousCommitByDeveloper a
       end.
Proof. unfold u_days. by destruct (days_since_previous raw w i (commit a)). Qed.

(** The three activity analyzers on a linked heap: they return, and a
    record of [data] gets the values of the walks over the raw log. *)
Lemma analyze_activity_spec raw w data (heap : Heap) :
  NoDup data -> (forall c, c ∈ data -> (c < length raw)%nat) ->
  chain_linked raw heap ->
  exists h, analyze_activity data w heap = Some h
    /\ chain_linked raw h
    /\ forall c a, c ∈ data -> heap !! c = Some a ->
         exists a', h !! c = Some a'
           /\ commit a' = commit a
           /\ previous a' = previous a
           /\ levenshteinDistance a' = levenshteinDistance a
           /\ numberOfActiveDevelopers a'
              = Some (active_developers raw w c (commit a))
           /\ daysSincePreviousCommitByDeveloper a'
              = match days_since_previous raw w c (commit a) with
                | Some days => Some days
                | None => daysSincePreviousCommitByDeveloper a
                end
           /\ numberOfCommitsInLast24h a'
              = Some (commits_in_last_24h raw c (commit a)).
Proof.
  intros Hnd Hdata Hlink. unfold analyze_activity.
  rewrite (analyzeNumberOfActiveDevelopers_spec raw) by done. simpl.
  assert (chain_linked raw (annotate (u_active raw w) data heap)) as Hl1
    by (by apply chain_linked_annotate).
  rewrite (analyzeDaysSincePreviousCommit_spec raw) by done. simpl.
  assert (chain_linked raw (annotate (u_days raw w) data
                              (annotate (u_active raw w) data heap))) as Hl2.
  { apply chain_linked_annotate; [| done]. intros i a.
    destruct (u_days_keeps raw w i a) as (? & ? & _). done. }
  rewrite (analyzeNumberOfCommitsInSameDay_spec raw) by done.
  eexists. split; [done |]. split.
  { by apply chain_linked_annotate. }
  intros c a Hc Ha. rewrite !lookup_annotate, Ha. simpl.
  rewrite bool_decide_true by done.
  eexists. split; [done |].
  destruct (u_days_keeps raw w c (u_active raw w c a))
    as (Hcommit & Hprev & Hact & H24 & Hdays).
  unfold u_24h. cbn [commit previous levenshteinDistance
                       numberOfActiveDevelopers
                       daysSincePreviousCommitByDeveloper
                       numberOfCommitsInLast24h
                       set_numberOfCommitsInLast24h].
  rewrite Hcommit, Hprev, Hact, Hdays.
  repeat split; try done.
  unfold u_days. by destruct (days_since_previous _ _ _ _).
Qed.

Lemma take_while_mono {A} (p q : A -> bool) l :
  (forall x, p x = true -> q x = true) ->
  exists k, take_while q l = take_while p l ++ k.
Proof.
  intros Hpq. induction l as [|x l [k IH]]; simpl.
  - by exists [].
  - destruct (p x) eqn:Hp.
    + rewrite (Hpq _ Hp). exists k. by rewrite IH.
    + by eexists.
Qed.

Lemma active_developers_mono raw w1 w2 i c :
  w1 <= w2 -> active_developers raw w1 i c <= active_developers raw w2 i c.
Proof.
  intros Hw. unfold active_developers, window.
  destruct (take_while_mono
              (fun c0 => committed_date c0 >? committed_date c - w1)
              (fun c0 => committed_date c0 >? committed_date c - w2)
              (history raw i)) as [k ->].
  { intros x. rewrite !Z.gtb_lt. lia. }
  apply inj_le, subseteq_size. rewrite fmap_app, list_to_set_app_L.
  set_solver.
Qed.

(** C8: for a fixed commit of a fixed chain, the active-developer count
    under a larger activity window is at least the count under a smaller
    one, and the count of commits in the last 24 hours is the same under
    both, as it uses a cutoff of one day. *)
Theorem windowed_counts_monotone (repo : Repo) (branch : string)
    (startTime endTime w w1 w2 : Z)
    (filtered_authors filtered_commits : list string)
    (heap : Heap) (data : list ref) :
  createDataSet repo branch startTime endTime w filtered_authors
                filtered_commits = Done (heap, data) ->
  w1 <= w2 ->
  exists h1 h2,
    analyze_activity data w1 heap = Some h1
    /\ analyze_activity data w2 heap = Some h2
    /\ forall c, c ∈ data ->
         exists a1 a2 n1 n2 m,
           h1 !! c = Some a1 /\ h2 !! c = Some a2
           /\ numberOfActiveDevelopers a1 = Some n1
           /\ numberOfActiveDevelopers a2 = Some n2
           /\ n1 <= n2
           /\ numberOfCommitsInLast24h a1 = Some m
           /\ numberOfCommitsInLast24h a2 = Some m.
Proof.
  intros Hdone Hw.
  destruct (createDataSet_Done _ _ _ _ _ _ _ _ _ Hdone)
    as (log & _ & Hlink & _ & Hnd & Hdata & _).
  destruct (analyze_activity_spec (reverse log) w1 data heap Hnd Hdata Hlink)
    as (h1 & Hh1 & _ & Hv1).
  destruct (analyze_activity_spec (reverse log) w2 data heap Hnd Hdata Hlink)
    as (h2 & Hh2 & _ & Hv2).
  exists h1, h2. split; [done |]. split; [done |].
  intros c Hc.
  destruct (lookup_lt_is_Some_2 heap c) as [a Ha].
  { destruct Hlink as [-> _]. by apply Hdata. }
  destruct (Hv1 c a Hc Ha) as (a1 & Ha1 & _ & _ & _ & Hn1 & _ & Hm1).
  destruct (Hv2 c a Hc Ha) as (a2 & Ha2 & _ & _ & _ & Hn2 & _ & Hm2).
  exists a1, a2. do 3 eexists.
  repeat split; try eassumption.
  by apply active_developers_mono.
Qed.

Lemma take_while_reaches {A} (p : A -> bool) l : forall n x,
  l !! n = Some x ->
  (forall m y, (m <= n)%nat -> l !! m = Some y -> p y = true) ->
  x ∈ take_while p l.
Proof.
  induction l as [|z l IH]; intros n x Hn Hall; [by rewrite lookup_nil in Hn |].
  simpl. rewrite (Hall O z) by (done || lia).
  destruct n as [|n]; simpl in Hn.
  - injection Hn as ->. by left.
  - right. apply (IH n); [done |].
    intros m y Hm Hy. apply (Hall (S m)); [lia | done].
Qed.

Lemma history_lookup raw r m :
  (m < r)%nat -> (r <= length raw)%nat ->
  history raw r !! m = raw !! (r - S m)%nat.
Proof.
  intros Hm Hr. unfold history.
  rewrite reverse_lookup by (rewrite length_take_le; lia).
  rewrite length_take_le by lia. apply lookup_take_lt. lia.
Qed.

(** A commit before [r] is in the window of [r] when it and all commits
    between it and [r] are committed after the cutoff, whether or not
    [createDataSet] kept any of them. *)
Lemma window_reaches raw r j cutOff c_j :
  raw !! j = Some c_j -> (j < r)%nat -> (r <= length raw)%nat ->
  (forall k c_k, (j <= k)%nat -> (k < r)%nat -> raw !! k = Some c_k ->
     cutOff < committed_date c_k) ->
  c_j ∈ window raw r cutOff.
Proof.
  intros Hj Hjr Hr Hall. unfold window.
  apply (take_while_reaches _ _ (r - S j)%nat).
  - rewrite history_lookup by lia.
    by replace (r - S (r - S j))%nat with j by lia.
  - intros m y Hm. rewrite history_lookup by lia.
    intros Hy. apply Z.gtb_lt. apply (Hall (r - S m)%nat y); [lia | lia | done].
Qed.

(** C4: a commit that the author/commit filters match is not among the
    analyzable commits, yet the records are linked over the whole
    unfiltered log: the previous link of every record points to the commit
    just before it in the log.  So the walks of the three windowed
    analyzers go over the unfiltered log: their results for an analyzable
    commit are the number of distinct authors, the first commit by the same
    author and the number of commits in its window of the raw log, and a
    commit before it is in that window, filtered or out of range as it may
    be, when no commit from it on is committed at or before the cutoff. *)
Theorem history_walks_cover_unfiltered_log (repo : Repo) (branch : string)
    (startTime endTime w : Z)
    (filtered_authors filtered_commits : list string)
    (log : list Commit) (heap : Heap) (data : list ref) :
  iter_commits repo branch = inr log ->
  createDataSet repo branch startTime endTime w filtered_authors
                filtered_commits = Done (heap, data) ->
  let raw := reverse log in
  (forall r c, raw !! r = Some c ->
     filter_match c filtered_authors filtered_commits = true -> r ∉ data)
  /\ (forall r c, raw !! r = Some c ->
        exists ac, heap !! r = Some ac /\ commit ac = c
          /\ previous ac = pred_ref r
          /\ next ac = next_ref (length raw) r)
  /\ (exists h, analyze_activity data w heap = Some h
        /\ forall r c, r ∈ data -> raw !! r = Some c ->
             exists ac, h !! r = Some ac /\ commit ac = c
               /\ numberOfActiveDevelopers ac
                  = Some (active_developers raw w r c)
               /\ daysSincePreviousCommitByDeveloper ac
                  = days_since_previous raw w r c
               /\ numberOfCommitsInLast24h ac
                  = Some (commits_in_last_24h raw r c))
  /\ (forall r j cutOff c_j,
        raw !! j = Some c_j -> (j < r)%nat -> (r <= length raw)%nat ->
        (forall k c_k, (j <= k)%nat -> (k < r)%nat -> raw !! k = Some c_k ->
           cutOff < committed_date c_k) ->
        c_j ∈ window raw r cutOff).
Proof.
  intros Hlog Hdone raw.
  destruct (createDataSet_Done _ _ _ _ _ _ _ _ _ Hdone)
    as (log' & Hlog' & Hlink & Hdata & Hnd & Hlt & Hlook).
  assert (log' = log) as -> by congruence. fold raw in Hlink, Hdata, Hlt, Hlook.
  split; [| split; [| split]].
  - intros r c Hr Hmatch. rewrite Hdata, elem_of_refs_from.
    intros (i & c' & -> & Hi & Hp). simpl in Hr.
    assert (c' = c) as -> by congruence.
    apply analyzable_iff in Hp. destruct Hp as (_ & _ & _ & Hp). congruence.
  - intros r c Hr. rewrite (Hlook _ _ Hr). eexists. by repeat split.
  - destruct (analyze_activity_spec raw w data heap Hnd Hlt Hlink)
      as (h & Hh & _ & Hv).
    exists h. split; [done |]. intros r c Hr Hc.
    destruct (Hv r _ Hr (Hlook _ _ Hc))
      as (a' & Ha' & Hcommit & _ & _ & Hact & Hdays & H24).
    exists a'. repeat split; try done.
    rewrite Hdays. simpl. by destruct (days_since_previous raw w r c).
  - intros r j cutOff c_j. apply window_reaches.
Qed.

End ActivityFacts.

(** ** The commit without a previous record in the report *)

Section FirstCommitFacts.
Context `{!External}.

Lemma quiet_alter g c' r c (h : Heap) :
  quiet g -> unlinked_without_distance r c h ->
  unlinked_without_distance r c (alter g c' h).
Proof.
  intros Hg (ac & Hac & Hc & Hp & Hd). unfold unlinked_without_distance.
  rewrite list_lookup_alter. destruct (decide (c' = r)) as [->|Hne].
  - rewrite Hac. simpl. eexists. split; [done |].
    destruct (Hg ac) as (-> & -> & ->). done.
  - by exists ac.
Qed.

Lemma for_each_preserves {A S} (body : S -> A -> option S) (P : S -> Prop) l :
  (forall s a s', P s -> body s a = Some s' -> P s') ->
  forall s s', P s -> for_each body l s = Some s' -> P s'.
Proof.
  intros Hbody. induction l as [|a l IH]; intros s s' Hs; simpl.
  - by intros [= <-].
  - destruct (body s a) as [s1|] eqn:Ha; simpl; [| done].
    apply IH. by apply (Hbody s a).
Qed.

(** [analyzeLevenshteinDistance] skips a record without a previous one. *)
Lemma analyzeLevenshteinDistance_skips data (h h' : Heap) r c :
  unlinked_without_distance r c h ->
  analyzeLevenshteinDistance data h = Some h' ->
  unlinked_without_distance r c h'.
Proof.
  unfold analyzeLevenshteinDistance. apply for_each_preserves.
  clear h h'. intros h c' h' HP.
  destruct (h !! c') as [ac'|] eqn:Hac'; simpl; [| done].
  destruct (previous ac') as [p|] eqn:Hprev; [| by intros [= <-]].
  destruct (commitDistance (commit ac')) as [d|]; simpl; [| done].
  intros [= <-]. destruct HP as (ac & Hac & Hc & Hp & Hd).
  exists ac. rewrite list_lookup_alter_ne; [done |].
  intros ->. congruence.
Qed.

Lemma set_size_and_complexity_quiet abs delta :
  quiet (set_size_and_complexity abs delta).
Proof. intros a. by destruct abs as [[? ?] ?], delta as [[? ?] ?]. Qed.

Lemma analyzeSizeAndComplexity_quiet data (h h' : Heap) r c :
  unlinked_without_distance r c h ->
  analyzeSizeAndComplexity data h = Some h' ->
  unlinked_without_distance r c h'.
Proof.
  intros HP. unfold analyzeSizeAndComplexity.
  destruct data as [|first rest]; [by intros [= <-] |].
  destruct (h !! first) as [ac|]; cbn -[for_each]; [| done].
  destruct (size_baseline ac) as [[previous_commit previous_tree]|];
    cbn -[for_each]; [| done].
  destruct (for_each analyzeSizeAndComplexity_step _ _) as [st|] eqn:Hloop;
    cbn -[for_each]; [| done].
  intros [= <-].
  apply (for_each_preserves analyzeSizeAndComplexity_step
           (fun st => unlinked_without_distance r c (ss_heap st)))
    in Hloop; [done | | done].
  clear. intros st c' st' HP. unfold analyzeSizeAndComplexity_step.
  destruct (ss_heap st !! c') as [ac'|]; simpl; [| done].
  destruct (tree_delta (commit ac')) as [td|]; simpl; [| done].
  destruct (aggregate_delta td (ss_previous_tree st)) as [[delta t1]|]; simpl;
    [| done].
  destruct (deref (ss_heap st) (ss_previous_commit st)) as [pc|]; simpl;
    [| done].
  destruct (loc pc) as [pl|]; simpl; [| done].
  destruct (cyclomaticComplexity pc) as [pcc|]; simpl; [| done].
  destruct (functions pc) as [pf|]; simpl; [| done].
  destruct delta as [[dl dcc] df].
  destruct (apply_delta_to_tree td t1) as [[[] t2]|]; simpl; [| done].
  intros [= <-]. simpl. apply quiet_alter; [| done].
  apply set_size_and_complexity_quiet.
Qed.

Lemma update_complex_function_quiet pfc function complexity c' (h : Heap) r c :
  unlinked_without_distance r c h ->
  unlinked_without_distance r c
    (update_complex_function_contribution_of_commit pfc function complexity
       c' h).
Proof.
  intros HP. unfold update_complex_function_contribution_of_commit.
  set (prev := match pfc !! function with Some v => v | None => 0 end).
  assert (unlinked_without_distance r c
            (if (prev >? 11) && (prev >? complexity)
             then alter (fun a => set_decreaseOfComplexityInComplexFunctions
                          (accumulate (decreaseOfComplexityInComplexFunctions a)
                                      (prev - complexity)) a) c' h
             else h)) as HP1.
  { destruct ((prev >? 11) && (prev >? complexity)); [| done].
    by apply quiet_alter. }
  destruct ((complexity >? 11) && (complexity >? prev)); [| done].
  by apply quiet_alter.
Qed.

Lemma analyzeComplexFunctionsContributions_quiet data cf (h h' : Heap) r c :
  unlinked_without_distance r c h ->
  analyzeComplexFunctionsContributions data cf h = Some h' ->
  unlinked_without_distance r c h'.
Proof.
  intros HP. unfold analyzeComplexFunctionsContributions.
  destruct data as [|first rest]; [by intros [= <-] |].
  destruct (h !! first) as [ac|]; cbn -[for_each]; [| done].
  destruct (head (parents (commit ac))) as [parent|]; cbn -[for_each];
    [| done].
  match goal with
  | |- context [for_each ?b ?l ?s] =>
      destruct (for_each b l s) as [st|] eqn:Hloop; cbn -[for_each]; [| done]
  end.
  intros [= <-].
  apply (for_each_preserves _
           (fun st => unlinked_without_distance r c (fst st)))
    in Hloop; [done | | done].
  clear. intros st c' st' HP.
  destruct (st.1 !! c') as [a|]; simpl; [| done].
  destruct (all_blobs_modified_by_commit (commit a)) as [blobs|]; simpl;
    [| done].
  intros [= <-].
  generalize (map_to_list (calculate_function_complexities blobs)).
  intros items. revert st HP.
  induction items as [|[function complexity] items IH]; intros st HP; [done |].
  simpl. apply IH. destruct st as [h pfc]. simpl.
  destruct (bool_decide (function ∈ cf)); [| done].
  by apply update_complex_function_quiet.
Qed.

Lemma tabulate_keeps_rows (heap : Heap) data w table r ac :
  r ∈ data -> heap !! r = Some ac -> levenshteinDistance ac <> Some 0 ->
  tabulate heap data w = Some table ->
  exists row, report_row ac = Some row /\ Line row ∈ table.
Proof.
  unfold tabulate. generalize [Header (int_truediv w (24 * 60 * 60))].
  intros acc Hr Hac Hd. revert acc.
  assert (forall row l acc t, Line row ∈ acc ->
            for_each (fun table c =>
               a ← heap !! c;
               if bool_decide (levenshteinDistance a = Some 0) then Some table
               else row ← report_row a; Some (table ++ [Line row]))
              l acc = Some t ->
            Line row ∈ t) as Hkeep.
  { intros row l acc t. apply for_each_preserves. clear.
    intros s c s' Hin. destruct (heap !! c) as [a|]; simpl; [| done].
    destruct (bool_decide _); [by intros [= <-] |].
    destruct (report_row a) as [row'|]; simpl; [| done].
    intros [= <-]. apply elem_of_app. by left. }
  induction data as [|c data IH]; intros acc; [by apply elem_of_nil in Hr |].
  apply elem_of_cons in Hr as [<-|Hr].
  - cbn [for_each]. rewrite Hac. simpl.
    rewrite bool_decide_false by done.
    destruct (report_row ac) as [row|]; simpl; [| done].
    intros Hrun. exists row. split; [done |].
    apply (Hkeep row _ _ _ ltac:(apply elem_of_app; right; by left) Hrun).
  - cbn [for_each]. destruct (heap !! c) as [a|]; simpl; [| done].
    destruct (bool_decide _); simpl; [by apply IH |].
    destruct (report_row a) as [row'|]; simpl; [by apply IH | done].
Qed.

(** C9: the Edit-Distance Analyzer skips an analyzable commit whose record
    has no previous record, and its distance stays unset; so when the
    oldest commit of the log is analyzable, the report has its row, with
    an empty distance: the tabulation drops rows of distance 0 only. *)
Theorem first_commit_reported_without_distance (repo : Repo) (branch : string)
    (startTime endTime w : Z)
    (filtered_authors filtered_commits complex_functions : list string)
    (log : list Commit) (first : Commit) (table : list TableRow) :
  iter_commits repo branch = inr log ->
  head (reverse log) = Some first ->
  analyzable startTime endTime filtered_authors filtered_commits first = true ->
  gitlyze repo branch startTime endTime w filtered_authors filtered_commits
          complex_functions = Done table ->
  (forall data (h h' : Heap) r ac,
     h !! r = Some ac -> previous ac = None ->
     analyzeLevenshteinDistance data h = Some h' ->
     exists ac', h' !! r = Some ac'
       /\ levenshteinDistance ac' = levenshteinDistance ac)
  /\ exists row, Line row ∈ table
       /\ col_commit row = hexsha first
       /\ col_levenshtein_distance row = None.
Proof.
  intros Hlog Hfirst Han Hrun. split.
  - intros data h h' r ac Hac Hprev Hh'.
    assert (exists ac', h' !! r = Some ac' /\ previous ac' = None
              /\ levenshteinDistance ac' = levenshteinDistance ac)
      as (ac' & Hac' & _ & Hd'); [| by exists ac'].
    revert Hh'. unfold analyzeLevenshteinDistance.
    apply (for_each_preserves _
             (fun h => exists ac', h !! r = Some ac'
                /\ previous ac' = None
                /\ levenshteinDistance ac' = levenshteinDistance ac)).
    + clear. intros h c' h' (ac' & Hac' & Hp & Hd).
      destruct (h !! c') as [a|] eqn:Ha; simpl; [| done].
      destruct (previous a) as [p|] eqn:Hprev; [| intros [= <-]; by exists ac'].
      destruct (commitDistance (commit a)) as [d|]; simpl; [| done].
      intros [= <-]. exists ac'. rewrite list_lookup_alter_ne; [done |].
      intros ->. congruence.
    + by exists ac.
  - unfold gitlyze in Hrun.
    destruct (createDataSet _ _ _ _ _ _ _) as [[heap data]|f|] eqn:Hdone;
      [| done | done].
    destruct (createDataSet_Done _ _ _ _ _ _ _ _ _ Hdone)
      as (log' & Hlog' & Hlink & Hdata & Hnd & Hlt & Hlook).
    assert (log' = log) as -> by congruence.
    destruct (reverse log) as [|c0 raw] eqn:Hraw; [done |].
    injection Hfirst as ->.
    assert (O ∈ data) as H0.
    { rewrite Hdata. simpl. rewrite Han. by left. }
    assert (unlinked_without_distance O first heap) as HP.
    { eexists. split; [by apply Hlook |]. done. }
    destruct (analyze_all data w complex_functions heap) as [h6|] eqn:Hall;
      simpl in Hrun; [| done].
    destruct (tabulate h6 data w) as [t|] eqn:Htab; [| done].
    injection Hrun as ->.
    unfold analyze_all in Hall.
    destruct (analyze_activity_spec (first :: raw) w data heap Hnd Hlt Hlink)
      as (h3 & Hh3 & _ & Hv).
    rewrite Hh3 in Hall. simpl in Hall.
    assert (unlinked_without_distance O first h3) as HP3.
    { destruct HP as (ac & Hac & Hc & Hp & Hd).
      destruct (Hv O ac H0 Hac) as (a' & Ha' & Hc' & Hp' & Hd' & _).
      exists a'. split; [done |]. repeat split; congruence. }
    destruct (analyzeLevenshteinDistance data h3) as [h4|] eqn:Hh4;
      simpl in Hall; [| done].
    destruct (analyzeSizeAndComplexity data h4) as [h5|] eqn:Hh5;
      simpl in Hall; [| done].
    pose proof (analyzeLevenshteinDistance_skips _ _ _ _ _ HP3 Hh4) as HP4.
    pose proof (analyzeSizeAndComplexity_quiet _ _ _ _ _ HP4 Hh5) as HP5.
    pose proof (analyzeComplexFunctionsContributions_quiet _ _ _ _ _ _
                  HP5 Hall) as (ac & Hac & Hc & Hp & Hd).
    destruct (tabulate_keeps_rows h6 data w table O ac)
      as (row & Hrow & Hin); try done; [by rewrite Hd |].
    exists row. split; [done |].
    unfold report_row in Hrow.
    destruct (secondsToIso (committed_date (commit ac))) as [iso|];
      [| done].
    injection Hrow as <-. split; simpl; [by rewrite Hc | exact Hd].
Qed.

End FirstCommitFacts.

(** ** The Complex-Function Contribution Tracker *)

Section ContributionFacts.
Context `{!External}.


End ContributionFacts.

(** ** The Complex-Function Finder *)

Section FinderFacts.
Context `{!External}.

Lemma scan_blob_observations filtered_files cf blob :
  scan_blob filtered_files cf blob
  = foldl record_observation cf (blob_observations filtered_files blob).
Proof.
  unfold scan_blob, blob_observations.
  destruct (bool_decide _); [done |].
  generalize (analyze_source_code (blob_name blob) (blob_text blob)).
  intros l. revert cf. induction l as [|f l IH]; intros cf; [done |].
  simpl. rewrite <- IH. done.
Qed.

Lemma scan_blobs_observations filtered_files blobs : forall cf,
  foldl (scan_blob filtered_files) cf blobs
  = foldl record_observation cf (observations filtered_files blobs).
Proof.
  induction blobs as [|blob blobs IH]; intros cf; [done |].
  unfold observations. simpl. rewrite foldl_app.
  rewrite <- scan_blob_observations. apply IH.
Qed.

Lemma find_complex_functions_loop filtered_files (heap : Heap) data :
  forall i cf,
    snd <$> for_each (fun (st : nat * gmap string Z) c =>
              let i := S (fst st) in
              ac ← heap !! c;
              blobs ← blobs_to_scan i (commit ac);
              Some (i, foldl (scan_blob filtered_files) (snd st) blobs))
            data (i, cf)
    = (fun blobs => foldl record_observation cf
                      (observations filtered_files blobs))
      <$> scanned_from heap i data.
Proof.
  induction data as [|c data IH]; intros i cf; [done |].
  cbn [for_each scanned_from fst snd].
  destruct (heap !! c) as [ac|]; [| done]. cbn [mbind option_bind].
  destruct (blobs_to_scan (S i) (commit ac)) as [blobs|]; [| done].
  cbn [mbind option_bind]. rewrite IH.
  destruct (scanned_from heap (S i) data) as [later|]; [| done].
  cbn [mbind option_bind fmap option_fmap option_map]. f_equal.
  unfold observations. rewrite bind_app, foldl_app.
  by rewrite scan_blobs_observations.
Qed.

Lemma running_maximum_nil : running_maximum [] ∅.
Proof.
  split.
  - intros name m. rewrite lookup_empty. split; [done |].
    intros (_ & Hin & _). by apply elem_of_nil in Hin.
  - intros name. rewrite lookup_empty. split; [| done].
    intros _ v Hin. by apply elem_of_nil in Hin.
Qed.

Lemma running_maximum_snoc obs cf o :
  running_maximum obs cf ->
  running_maximum (obs ++ [o]) (record_observation cf o).
Proof.
  destruct o as [n v]. intros [Hsome Hnone].
  assert (forall name x, (name, x) ∈ obs ++ [(n, v)]
            <-> (name, x) ∈ obs \/ (name = n /\ x = v)) as Hin.
  { intros name x. rewrite elem_of_app, list_elem_of_singleton.
    split; (intros [?|?]; [by left | right]); [by simplify_eq | naive_solver]. }
  unfold record_observation. cbn [fst snd].
  destruct (Z.gtb_spec v 15) as [Hv|Hv].
  - destruct (cf !! n) as [known|] eqn:Hn.
    + apply Hsome in Hn as (Hk15 & Hkin & Hkmax). split.
      * intros name m. rewrite lookup_insert.
        destruct (decide (n = name)) as [<-|Hne].
        -- split.
           ++ intros [= <-]. split; [lia |]. split.
              ** apply Hin. destruct (Z.max_spec v known) as [[_ ->]|[_ ->]];
                   [by left | by right].
              ** intros x [Hx|[_ ->]]%Hin; [apply Hkmax in Hx |]; lia.
           ++ intros (Hm & [Hmin|[_ ->]]%Hin & Hmax).
              ** f_equal. apply Hkmax in Hmin.
                 assert (known <= m) by (apply Hmax, Hin; by left).
                 assert (v <= m) by (apply Hmax, Hin; by right). lia.
              ** f_equal.
                 assert (known <= v) by (apply Hmax, Hin; by left). lia.
        -- rewrite Hsome. split.
           ++ intros (Hm & Hmin & Hmax). split; [done |]. split.
              ** apply Hin. by left.
              ** intros x [Hx|[-> _]]%Hin; [by apply Hmax | done].
           ++ intros (Hm & [Hmin|[-> _]]%Hin & Hmax); [| done].
              split; [done |]. split; [done |].
              intros x Hx. apply Hmax, Hin. by left.
      * intros name. rewrite lookup_insert.
        destruct (decide (n = name)) as [<-|Hne].
        -- split; [done |]. intros Hall.
           assert (v <= 15) by (apply Hall, Hin; by right). lia.
        -- rewrite Hnone. split.
           ++ intros Hall x [Hx|[-> _]]%Hin; [by apply Hall | done].
           ++ intros Hall x Hx. apply Hall, Hin. by left.
    + pose proof (proj1 (Hnone n) Hn) as Hlow. split.
      * intros name m. rewrite lookup_insert.
        destruct (decide (n = name)) as [<-|Hne].
        -- split.
           ++ intros [= <-]. split; [done |]. split.
              ** apply Hin. by right.
              ** intros x [Hx|[_ ->]]%Hin; [apply Hlow in Hx |]; lia.
           ++ intros (Hm & [Hmin|[_ ->]]%Hin & Hmax); [| done].
              apply Hlow in Hmin. lia.
        -- rewrite Hsome. split.
           ++ intros (Hm & Hmin & Hmax). split; [done |]. split.
              ** apply Hin. by left.
              ** intros x [Hx|[-> _]]%Hin; [by apply Hmax | done].
           ++ intros (Hm & [Hmin|[-> _]]%Hin & Hmax); [| done].
              split; [done |]. split; [done |].
              intros x Hx. apply Hmax, Hin. by left.
      * intros name. rewrite lookup_insert.
        destruct (decide (n = name)) as [<-|Hne].
        -- split; [done |]. intros Hall.
           assert (v <= 15) by (apply Hall, Hin; by right). lia.
        -- rewrite Hnone. split.
           ++ intros Hall x [Hx|[-> _]]%Hin; [by apply Hall | done].
           ++ intros Hall x Hx. apply Hall, Hin. by left.
  - split.
    + intros name m. rewrite Hsome. split.
      * intros (Hm & Hmin & Hmax). split; [done |]. split.
        -- apply Hin. by left.
        -- intros x [Hx|[_ ->]]%Hin; [by apply Hmax | lia].
      * intros (Hm & [Hmin|[_ ->]]%Hin & Hmax); [| lia].
        split; [done |]. split; [done |].
        intros x Hx. apply Hmax, Hin. by left.
    + intros name. rewrite Hnone. split.
      * intros Hall x [Hx|[_ ->]]%Hin; [by apply Hall | lia].
      * intros Hall x Hx. apply Hall, Hin. by left.
Qed.

Lemma running_maximum_fold obs :
  running_maximum obs (foldl record_observation ∅ obs).
Proof.
  induction obs as [|o obs IH] using rev_ind.
  - apply running_maximum_nil.
  - rewrite foldl_app. by apply running_maximum_snoc.
Qed.

End FinderFacts.

(** ** The theorems at the example repository *)

Lemma example_createDataSet :
  createDataSet example_repo "main" 0 1000 0 ["bot"] []
  = Done (example_heap, example_data).
Proof. vm_compute. reflexivity. Qed.

Lemma example_data_NoDup : NoDup example_data.
Proof.
  change example_data with [1%nat; 3%nat]. apply NoDup_cons. split.
  - intros Hin. apply list_elem_of_singleton in Hin. discriminate.
  - apply NoDup_singleton.
Qed.

Lemma example_data_measurable c :
  c ∈ example_data ->
  exists ac, example_heap !! c = Some ac /\ is_Some (tree_delta (commit ac)).
Proof.
  change example_data with [1%nat; 3%nat]. intros Hc.
  apply elem_of_cons in Hc as [->|Hc];
    [| apply list_elem_of_singleton in Hc as ->];
    (eexists; split; [vm_compute; reflexivity |]);
    eexists; vm_compute; reflexivity.
Qed.

(** The amended C1 at the example: the run returns. *)
Lemma size_deltas_relate_consecutive_analyzed_commits_witness :
  NoDup example_data
  /\ (forall c, c ∈ example_data ->
        exists ac, example_heap !! c = Some ac
          /\ is_Some (tree_delta (commit ac)))
  /\ exists h' ap ac before,
       analyzeSizeAndComplexity example_data example_heap = Some h'
       /\ h' !! 1%nat = Some ap /\ h' !! 3%nat = Some ac
       /\ absolutes ap = Some before /\ deltas_match before ac.
Proof.
  split; [exact example_data_NoDup |].
  split; [exact example_data_measurable |].
  destruct (size_deltas_relate_consecutive_analyzed_commits
              example_data example_heap example_data_NoDup
              example_data_measurable) as (h' & Hrun & _ & Hpairs).
  destruct (Hpairs O 1%nat 3%nat eq_refl eq_refl)
    as (ap & ac & before & Hap & Hac & Hbefore & Hmatch).
  exists h', ap, ac, before. repeat split; assumption.
Defined.

(** C1 as stated fails at the example: the record before [c3] in the
    chain is that of [c2], which the run filters, and it holds no totals. *)
Lemma chain_previous_of_analyzed_commit_holds_no_totals :
  ~ @deltas_relative_to_chain_previous toy.
Proof.
  intros Hclaim.
  destruct (Hclaim example_repo "main" 0 1000 0 ["bot"] []
              example_heap example_data example_sized 3%nat)
    as (a & p & ap & before & Ha & Hp & Hap & Habs & _).
  - exact example_createDataSet.
  - vm_compute. reflexivity.
  - change example_data with [1%nat; 3%nat]. right. left.
  - vm_compute in Ha. injection Ha as <-.
    vm_compute in Hp. injection Hp as <-.
    vm_compute in Hap. injection Hap as <-.
    vm_compute in Habs. discriminate.
Qed.



(** With no commit in the interval and an end time in the year 10000,
    for which [secondsToIso] raises, the run ends with that exception and
    not with the message that no commits were found. *)
Lemma empty_result_beyond_the_calendar_raises :
  createDataSet example_repo "main" 500 253402300800 0 [] [] = Raise.
Proof. vm_compute. reflexivity. Qed.


(** C4 at the example: [c2], whose author is filtered, is not analyzable,
    and it is in the window of [c3]. *)
Lemma history_walks_cover_unfiltered_log_witness :
  iter_commits example_repo "main" = inr example_log
  /\ createDataSet example_repo "main" 0 1000 250 ["bot"] []
     = Done (example_heap, example_data)
  /\ filter_match c2 ["bot"] [] = true
  /\ (2%nat ∉ example_data)
  /\ (c2 ∈ window (reverse example_log) 3 150).
Proof.
  split; [reflexivity |]. split; [vm_compute; reflexivity |].
  split; [reflexivity |].
  destruct (history_walks_cover_unfiltered_log example_repo "main" 0 1000 250
              ["bot"] [] example_log example_heap example_data)
    as (Hout & _ & _ & Hwindow).
  - reflexivity.
  - vm_compute. reflexivity.
  - split.
    + apply (Hout 2%nat c2); reflexivity.
    + apply (Hwindow 3%nat 2%nat 150 c2).
      * reflexivity.
      * lia.
      * vm_compute. lia.
      * intros k c_k Hk1 Hk2 Hc.
        assert (k = 2%nat) as -> by lia.
        vm_compute in Hc. injection Hc as <-. vm_compute. reflexivity.
Defined.


(** The amended C7 at the rename of [c3], against a baseline that holds
    [a.c]. *)
Lemma rename_with_matching_baseline_nets_zero_witness :
  head (parents c3) = Some c2
  /\ parent_diff c3 = [] ++ rename_a_b :: []
  /\ example_snapshot !! "a.c" = Some (blob_stats blob_b)
  /\ example_snapshot !! "b.c" = None
  /\ exists delta,
       tree_delta c3 = Some delta
       /\ aggregate_delta delta example_snapshot
          = Some ((0, 0, 0), example_snapshot).
Proof.
  assert (example_snapshot !! "a.c" = Some (blob_stats blob_b)) as Hold
    by (vm_compute; reflexivity).
  assert (example_snapshot !! "b.c" = None) as Hnew
    by (vm_compute; reflexivity).
  split; [reflexivity |]. split; [reflexivity |].
  split; [exact Hold |]. split; [exact Hnew |].
  destruct (rename_with_matching_baseline_nets_zero c3 c2 [] [] rename_a_b
              blob_b example_snapshot)
    as (delta & Hdelta & _ & _ & Hzero);
    try reflexivity; try constructor; try assumption.
  - discriminate.
  - exists delta. split; assumption.
Defined.

(** C7 as stated fails at the example: the only change of [c3] is the
    rename of [a.c], but [a.c] came with [c2], which the run filters, so
    the baseline never held it and nothing cancels the stats of [b.c]. *)
Lemma rename_after_filtered_commit_has_nonzero_deltaLoc :
  ~ @identical_renames_net_zero toy.
Proof.
  intros Hclaim.
  assert (exists a, example_sized !! 3%nat = Some a
            /\ commit a = c3 /\ deltaLoc a = Some 1)
    as (a & Ha & Hcommit & Hdelta).
  { eexists. split; [vm_compute; reflexivity |]. split; reflexivity. }
  pose proof (Hclaim example_repo "main" 0 1000 0 ["bot"] []
                example_heap example_data example_sized 3%nat a rename_a_b
                blob_a blob_b example_createDataSet) as Hzero.
  rewrite Hdelta in Hzero. rewrite Hcommit in Hzero.
  assert (Some 1 = Some 0) as Habsurd; [| discriminate].
  apply Hzero; try reflexivity.
  - change example_data with [1%nat; 3%nat]. right. left.
  - exact Ha.
Qed.

(** C8 at the example, for windows of 50 and 250 seconds. *)
Lemma windowed_counts_monotone_witness :
  createDataSet example_repo "main" 0 1000 0 ["bot"] []
  = Done (example_heap, example_data)
  /\ 50 <= 250
  /\ exists h1 h2,
       analyze_activity example_data 50 example_heap = Some h1
       /\ analyze_activity example_data 250 example_heap = Some h2.
Proof.
  assert (50 <= 250) as Hw by lia.
  split; [exact example_createDataSet |]. split; [exact Hw |].
  destruct (windowed_counts_monotone example_repo "main" 0 1000 0 50 250
              ["bot"] [] example_heap example_data example_createDataSet Hw)
    as (h1 & h2 & H1 & H2 & _).
  exists h1, h2. split; assumption.
Defined.

(** C9 at the shallow clone, whose oldest commit [c1] is analyzable. *)
Lemma first_commit_reported_without_distance_witness :
  iter_commits shallow_repo "main" = inr [c3; c2; c1]
  /\ head (reverse [c3; c2; c1]) = Some c1
  /\ analyzable 0 1000 ["bot"] [] c1 = true
  /\ gitlyze shallow_repo "main" 0 1000 0 ["bot"] [] [] = Done shallow_report
  /\ exists row, Line row ∈ shallow_report
       /\ col_commit row = hexsha c1
       /\ col_levenshtein_distance row = None.
Proof.
  assert (gitlyze shallow_repo "main" 0 1000 0 ["bot"] [] []
          = Done shallow_report) as Hrun by (vm_compute; reflexivity).
  assert (analyzable 0 1000 ["bot"] [] c1 = true) as Hc1
    by (vm_compute; reflexivity).
  split; [reflexivity |]. split; [reflexivity |]. split; [exact Hc1 |].
  split; [exact Hrun |].
  destruct (first_commit_reported_without_distance shallow_repo "main" 0 1000
              0 ["bot"] [] [] [c3; c2; c1] c1 shallow_report
              eq_refl eq_refl Hc1 Hrun) as [_ Hrow].
  exact Hrow.
Defined.

(** C10 at the example delta and snapshot. *)
Lemma aggregate_delta_frame_apply_delta_effect_witness :
  example_delta !! "a.c" = Some None
  /\ example_delta !! "b.c" = Some (Some (BlobStats.mk 1 4 1))
  /\ exists t',
       apply_delta_to_tree example_delta example_snapshot = Some (tt, t')
       /\ t' !! "a.c" = None
       /\ t' !! "b.c" = Some (BlobStats.mk 1 4 1).
Proof.
  assert (example_delta !! "a.c" = Some None) as Ha
    by (vm_compute; reflexivity).
  assert (example_delta !! "b.c" = Some (Some (BlobStats.mk 1 4 1))) as Hb
    by (vm_compute; reflexivity).
  split; [exact Ha |]. split; [exact Hb |].
  destruct (aggregate_delta_frame_apply_delta_effect example_delta
              example_snapshot)
    as (_ & t' & Happly & Hdeleted & Hmeasured & _).
  exists t'. split; [exact Happly |]. split.
  - exact (Hdeleted _ Ha).
  - exact (Hmeasured _ _ Hb).
Defined.

(** [blob_delta] on a diff that replaces one line: one hunk, closed by
    the empty last line, whose distance is 1. *)
Example blob_delta_of_replaced_line :
  blob_delta_of_text example_diff = 1
  /\ hunks (lines_not_skipped example_diff)
     = [[Other; Removed "f ab"; Added "f abc"; Other]; []].
Proof. split; vm_compute; reflexivity. Qed.

(** With a window of 250 seconds the run counts two active developers for
    [c3], the filtered author of [c2] among them. *)
Example filtered_author_is_counted :
  (analyze_activity example_data 250 example_heap
   ≫= fun h => h !! 3%nat ≫= numberOfActiveDevelopers) = Some 2.
Proof. vm_compute. reflexivity. Qed.

(** * Further properties of the code *)

(** ** The snapshot and its totals *)

Section SnapshotTotals.
Context `{!External}.

Lemma foldl_totals_add (l : list (string * BlobStats.t)) : forall acc,
  foldl (fun acc item => totals_add acc (snd item)) acc l
  = totals_plus acc (sum_totals ((fun item => stats_totals item.2) <$> l)).
Proof.
  induction l as [|[p bs] l IH]; intros acc.
  - simpl. by rewrite totals_plus_0_r.
  - cbn [foldl]. rewrite IH, fmap_cons. cbn [sum_totals foldr].
    by rewrite totals_plus_assoc.
Qed.

Lemma aggregate_stats_from_blobs_total t :
  aggregate_stats_from_blobs t = snapshot_total t.
Proof.
  unfold aggregate_stats_from_blobs, snapshot_total.
  by rewrite foldl_totals_add, totals_plus_0_l.
Qed.

Lemma snapshot_total_insert_fresh p bs (t : gmap string BlobStats.t) :
  t !! p = None ->
  snapshot_total (<[p := bs]> t)
  = totals_plus (stats_totals bs) (snapshot_total t).
Proof.
  intros Hp. unfold snapshot_total.
  rewrite (sum_totals_perm _ _
             (fmap_Permutation _ _ _ (map_to_list_insert t p bs Hp))).
  done.
Qed.

Lemma snapshot_total_delete p (t : gmap string BlobStats.t) :
  snapshot_total (delete p t)
  = totals_plus (snapshot_total t)
      (match t !! p with
       | Some old => totals_opp (stats_totals old)
       | None => (0, 0, 0)
       end).
Proof.
  destruct (t !! p) as [old|] eqn:Hp.
  - rewrite <- (insert_delete_id t p old Hp) at 2.
    rewrite snapshot_total_insert_fresh by apply lookup_delete_eq.
    destruct (snapshot_total (delete p t)) as [[] ?].
    destruct old. unfold stats_totals, totals_opp, totals_plus; simpl.
    repeat (f_equal; try lia).
  - rewrite delete_id by done. by rewrite totals_plus_0_r.
Qed.

Lemma snapshot_total_insert p bs (t : gmap string BlobStats.t) :
  snapshot_total (<[p := bs]> t)
  = totals_plus (snapshot_total t) (item_delta t (p, Some bs)).
Proof.
  rewrite <- insert_delete_eq.
  rewrite snapshot_total_insert_fresh by apply lookup_delete_eq.
  rewrite snapshot_total_delete. unfold item_delta. cbn [fst snd].
  rewrite (totals_plus_comm (stats_totals bs)).
  by rewrite totals_plus_assoc.
Qed.

Lemma snapshot_total_step p v t t1 :
  apply_delta_step tt (p, v) t = Some (tt, t1) ->
  snapshot_total t1 = totals_plus (snapshot_total t) (item_delta t (p, v)).
Proof.
  destruct v as [bs|]; simpl; intros [= <-].
  - apply snapshot_total_insert.
  - rewrite snapshot_total_delete. unfold item_delta. simpl.
    by rewrite totals_plus_0_r.
Qed.

Lemma item_delta_other p v t t1 (item : string * option BlobStats.t) :
  apply_delta_step tt (p, v) t = Some (tt, t1) ->
  item.1 <> p -> item_delta t1 item = item_delta t item.
Proof.
  intros Hstep Hne.
  destruct (apply_delta_step_spec p v t) as (t1' & Hstep' & Hlook).
  rewrite Hstep in Hstep'. injection Hstep' as <-.
  unfold item_delta. rewrite Hlook.
  destruct (decide (p = item.1)); [congruence | done].
Qed.

Lemma apply_delta_total_loop (l : list (string * option BlobStats.t)) :
  NoDup (l.*1) -> forall t t',
  tree_for apply_delta_step l tt t = Some (tt, t') ->
  snapshot_total t'
  = totals_plus (snapshot_total t) (sum_totals (item_delta t <$> l)).
Proof.
  induction l as [|[p v] l IH]; intros Hnd t t' Hrun.
  - injection Hrun as <-. simpl. by rewrite totals_plus_0_r.
  - rewrite fmap_cons in Hnd. apply NoDup_cons in Hnd as [Hp Hnd].
    cbn [tree_for] in Hrun. unfold mbind, TreeOp_bind, tree_bind in Hrun.
    destruct (apply_delta_step tt (p, v) t) as [[[] t1]|] eqn:Hstep;
      [| done].
    rewrite (IH Hnd _ _ Hrun), (snapshot_total_step _ _ _ _ Hstep).
    rewrite fmap_cons. cbn [sum_totals foldr].
    rewrite <- totals_plus_assoc. f_equal. f_equal. f_equal.
    apply list_fmap_ext. intros i item Hitem.
    apply (item_delta_other _ _ _ _ _ Hstep).
    intros Heq. apply Hp. rewrite <- Heq.
    apply list_elem_of_fmap. exists item.
    split; [done |]. by eapply list_elem_of_lookup_2.
Qed.

(** X1.  The totals stay consistent with the snapshot: after
    [apply_delta_to_tree] the totals of the snapshot, as
    [aggregate_stats_from_blobs] measures them, are the totals before plus
    what [aggregate_delta] returned for the same delta. *)
Theorem snapshot_totals_advance_by_aggregate_delta
    (delta : gmap string (option BlobStats.t)) (t : gmap string BlobStats.t) :
  exists d t',
    aggregate_delta delta t = Some (d, t)
    /\ apply_delta_to_tree delta t = Some (tt, t')
    /\ aggregate_stats_from_blobs t'
       = totals_plus (aggregate_stats_from_blobs t) d.
Proof.
  destruct (apply_delta_loop (map_to_list delta)
              (NoDup_fst_map_to_list delta) t) as (t' & Happly & _).
  eexists _, t'. split; [apply aggregate_delta_spec |].
  split; [done |].
  rewrite !aggregate_stats_from_blobs_total.
  by apply apply_delta_total_loop; [apply NoDup_fst_map_to_list |].
Qed.

End SnapshotTotals.

Section SnapshotInvariants.
Context `{!External}.

Lemma sum_totals_zero (l : list Totals) :
  Forall (fun x => x = (0, 0, 0)) l -> sum_totals l = (0, 0, 0).
Proof.
  induction 1 as [|x l -> _ IH]; [done |].
  cbn [sum_totals foldr]. fold (sum_totals l). by rewrite IH.
Qed.

(** What [apply_delta_to_tree] leaves, with its totals. *)
Lemma apply_delta_to_tree_spec
    (delta : gmap string (option BlobStats.t)) (t : gmap string BlobStats.t) :
  exists t',
    apply_delta_to_tree delta t = Some (tt, t')
    /\ (forall path, t' !! path = applied delta t path)
    /\ snapshot_total t'
       = totals_plus (snapshot_total t)
           (sum_totals (item_delta t <$> map_to_list delta)).
Proof.
  destruct (apply_delta_loop (map_to_list delta)
              (NoDup_fst_map_to_list delta) t) as (t' & Happly & Hlook).
  exists t'. split; [done |]. split.
  - intros path. rewrite Hlook. by rewrite list_to_map_to_list.
  - by apply apply_delta_total_loop; [apply NoDup_fst_map_to_list |].
Qed.

(** X2.  Applying a delta twice is applying it once, and against the
    snapshot it was applied to, the same delta aggregates to zero in each
    of the three totals. *)
Theorem applied_delta_aggregates_to_zero
    (delta : gmap string (option BlobStats.t)) (t : gmap string BlobStats.t) :
  exists t',
    apply_delta_to_tree delta t = Some (tt, t')
    /\ apply_delta_to_tree delta t' = Some (tt, t')
    /\ aggregate_delta delta t' = Some ((0, 0, 0), t').
Proof.
  destruct (apply_delta_to_tree_spec delta t) as (t' & Happly & Hlook & _).
  exists t'. split; [done |]. split.
  - destruct (apply_delta_to_tree_spec delta t')
      as (t'' & Hagain & Hlook' & _).
    rewrite Hagain. do 2 f_equal. apply map_eq. intros path.
    rewrite Hlook'. unfold applied.
    destruct (delta !! path) as [[bs|]|] eqn:Hd; [| | done].
    + rewrite Hlook. unfold applied. by rewrite Hd.
    + rewrite Hlook. unfold applied. by rewrite Hd.
  - rewrite aggregate_delta_spec. f_equal. f_equal.
    apply sum_totals_zero. apply Forall_fmap, Forall_forall.
    intros [p v] Hitem. apply elem_of_map_to_list in Hitem.
    unfold item_delta. cbn [fst snd compose]. rewrite Hlook.
    unfold applied. rewrite Hitem.
    destruct v as [[l c f]|]; [| done].
    unfold stats_totals, totals_opp, totals_plus. simpl.
    repeat (f_equal; try lia).
Qed.

Lemma size_step_keeps_totals st c st' :
  snapshot_totals_recorded st ->
  analyzeSizeAndComplexity_step st c = Some st' ->
  snapshot_totals_recorded st'.
Proof.
  intros (pc & Hpc & Habs) Hstep.
  unfold analyzeSizeAndComplexity_step in Hstep.
  destruct (ss_heap st !! c) as [ac|] eqn:Hac; [| done].
  cbn [mbind option_bind] in Hstep.
  destruct (tree_delta (commit ac)) as [td|]; [| done].
  cbn [mbind option_bind] in Hstep.
  rewrite aggregate_delta_spec in Hstep. cbn [mbind option_bind] in Hstep.
  rewrite Hpc in Hstep. cbn [mbind option_bind] in Hstep.
  unfold absolutes in Habs.
  destruct (loc pc) as [pl|]; [| done].
  destruct (cyclomaticComplexity pc) as [pcc|]; [| done].
  destruct (functions pc) as [pf|]; [| done].
  cbn [mbind option_bind] in Habs, Hstep.
  destruct (apply_delta_to_tree_spec td (ss_previous_tree st))
    as (t2 & Happly & _ & Htotal).
  destruct (sum_totals _) as [[dl dcc] df].
  rewrite Happly in Hstep. cbn [mbind option_bind] in Hstep.
  injection Hstep as <-. eexists. split.
  - cbn [deref ss_heap ss_previous_commit].
    rewrite list_lookup_alter_eq, Hac. reflexivity.
  - cbn [ss_previous_tree]. rewrite aggregate_stats_from_blobs_total, Htotal.
    rewrite <- aggregate_stats_from_blobs_total.
    injection Habs as <-. reflexivity.
Qed.

(** X3.  Throughout the loop of [analyzeSizeAndComplexity] the absolute
    totals of the record that [previous_commit] refers to are the totals
    of the snapshot [previous_tree]: they hold for the baseline, and after
    any number of commits the totals kept by adding deltas are those that
    [aggregate_stats_from_blobs] measures on the snapshot. *)
Theorem recorded_totals_are_snapshot_totals
    first pc t (heap : Heap) (l : list ref) st' :
  size_baseline first = Some (pc, t) ->
  for_each analyzeSizeAndComplexity_step l (mkSizeState heap t (inl pc))
  = Some st' ->
  exists last,
    deref (ss_heap st') (ss_previous_commit st') = Some last
    /\ absolutes last
       = Some (aggregate_stats_from_blobs (ss_previous_tree st')).
Proof.
  intros Hbase Hrun.
  refine (for_each_preserves analyzeSizeAndComplexity_step
            snapshot_totals_recorded l size_step_keeps_totals _ _ _ Hrun).
  exists pc. split; [done |].
  unfold size_baseline in Hbase.
  destruct (head (parents (commit first))) as [parent|]; [| done].
  cbn [mbind option_bind] in Hbase. injection Hbase as <- <-.
  by destruct (aggregate_stats_from_blobs _) as [[] ?].
Qed.

End SnapshotInvariants.

(** ** The blobs of a tree *)

Section TreeFacts.
Context `{!External}.

Lemma Tree_ind_nested (P : Tree -> Prop) :
  (forall t, Forall P (tree_trees t) -> P t) -> forall t, P t.
Proof.
  intros Hstep. fix IH 1. intros [blobs trees]. apply Hstep. simpl.
  induction trees as [|sub trees IHtrees]; constructor;
    [apply IH | apply IHtrees].
Qed.

Lemma own_blobs_fmap (blobs : list Blob) : forall m : gmap string Blob,
  blob_stats <$>
    foldl (fun blobs blob =>
             if extension_supported (blob_path blob)
             then <[blob_path blob := blob]> blobs else blobs) m blobs
  = foldl (fun blobs blob =>
             if extension_supported (blob_path blob)
             then <[blob_path blob := blob_stats blob]> blobs else blobs)
          (blob_stats <$> m) blobs.
Proof.
  induction blobs as [|b blobs IH]; intros m; [done |].
  cbn [foldl]. rewrite IH.
  destruct (extension_supported (blob_path b)); [| done].
  by rewrite fmap_insert.
Qed.

Lemma subtrees_fmap (trees : list Tree) :
  Forall (fun t => analyze_tree t = blob_stats <$> all_blobs_in_tree t)
         trees ->
  forall m : gmap string Blob,
  blob_stats <$>
    foldl (fun blobs subtree => all_blobs_in_tree subtree ∪ blobs) m trees
  = foldl (fun blobs subtree => analyze_tree subtree ∪ blobs)
          (blob_stats <$> m) trees.
Proof.
  induction 1 as [|sub trees Hsub _ IH]; intros m; [done |].
  cbn [foldl]. rewrite IH. by rewrite map_fmap_union, Hsub.
Qed.

Lemma analyze_tree_fmap (t : Tree) :
  analyze_tree t = blob_stats <$> all_blobs_in_tree t.
Proof.
  induction t as [[blobs trees] IH] using Tree_ind_nested.
  cbn [analyze_tree all_blobs_in_tree tree_blobs tree_trees] in *.
  rewrite (subtrees_fmap trees IH), own_blobs_fmap.
  by rewrite fmap_empty.
Qed.

(** X4.  [analyze_tree] measures exactly the blobs that
    [all_blobs_in_tree] collects: its result is [blob_stats] applied to
    each blob of that dictionary, under the same paths. *)
Theorem analyze_tree_measures_all_blobs_in_tree (t : Tree) :
  analyze_tree t = blob_stats <$> all_blobs_in_tree t.
Proof. apply analyze_tree_fmap. Qed.

End TreeFacts.

Section TreeBlobs.
Context `{!External}.

Lemma own_blobs_append (blobs : list Blob) : forall acc,
  foldl (fun blobs blob =>
           if extension_supported (blob_path blob)
           then blobs ++ [blob] else blobs) acc blobs
  = acc ++ filter supported_blob blobs.
Proof.
  induction blobs as [|b blobs IH]; intros acc.
  - by rewrite app_nil_r.
  - cbn [foldl]. rewrite IH, filter_cons. unfold supported_blob at 2.
    destruct (decide (extension_supported (blob_path b) = true)) as [->|Hno].
    + by rewrite <- app_assoc.
    + by destruct (extension_supported (blob_path b)).
Qed.

Lemma subtrees_append (trees : list Tree) :
  Forall (fun t => forall acc,
            append_blobs acc t = acc ++ filter supported_blob (blobs_of_tree t))
         trees ->
  forall acc,
  foldl (fun blobs subtree => append_blobs blobs subtree) acc trees
  = acc ++ filter supported_blob (flat_map blobs_of_tree trees).
Proof.
  induction 1 as [|sub trees Hsub _ IH]; intros acc.
  - by rewrite app_nil_r.
  - cbn [foldl flat_map]. rewrite IH, Hsub, filter_app.
    by rewrite <- app_assoc.
Qed.

Lemma append_blobs_filter (t : Tree) : forall blobs : list Blob,
  append_blobs blobs t = blobs ++ filter supported_blob (blobs_of_tree t).
Proof.
  induction t as [[own trees] IH] using Tree_ind_nested.
  intros blobs.
  cbn [append_blobs blobs_of_tree tree_blobs tree_trees] in *.
  rewrite (subtrees_append trees IH), own_blobs_append, filter_app.
  by rewrite <- app_assoc.
Qed.

(** X5.  [append_blobs] keeps what the list held and appends the blobs of
    the tree that have a supported extension, at any depth, the blobs of a
    tree before those of its subtrees. *)
Theorem append_blobs_appends_supported_blobs (t : Tree) (blobs : list Blob) :
  append_blobs blobs t = blobs ++ filter supported_blob (blobs_of_tree t).
Proof. apply append_blobs_filter. Qed.

Lemma indexes_empty : indexes ∅ [].
Proof.
  intros path. split.
  - intros blob Hlook. by rewrite lookup_empty in Hlook.
  - intros (blob & Hin & _). by apply elem_of_nil in Hin.
Qed.

Lemma indexes_insert m l b :
  indexes m l ->
  indexes (if extension_supported (blob_path b)
           then <[blob_path b := b]> m else m) (l ++ [b]).
Proof.
  intros Hm path. destruct (Hm path) as [Hsound Hcomplete].
  destruct (extension_supported (blob_path b)) eqn:Hb; split.
  - intros blob Hlook.
    destruct (decide (blob_path b = path)) as [<-|Hne].
    + rewrite lookup_insert_eq in Hlook. injection Hlook as <-.
      split; [| done]. apply elem_of_app. right. by left.
    + rewrite lookup_insert_ne in Hlook by done.
      destruct (Hsound _ Hlook) as (Hin & Hrest).
      split; [| done]. apply elem_of_app. by left.
  - intros (blob & Hin & Hpath & Hsup).
    destruct (decide (blob_path b = path)) as [<-|Hne].
    + rewrite lookup_insert_eq. by eexists.
    + rewrite lookup_insert_ne by done. apply Hcomplete.
      apply elem_of_app in Hin as [Hin|Hin]; [by exists blob |].
      apply list_elem_of_singleton in Hin. congruence.
  - intros blob Hlook. destruct (Hsound _ Hlook) as (Hin & Hrest).
    split; [| done]. apply elem_of_app. by left.
  - intros (blob & Hin & Hpath & Hsup). apply Hcomplete.
    apply elem_of_app in Hin as [Hin|Hin]; [by exists blob |].
    apply list_elem_of_singleton in Hin. subst blob.
    unfold supported_blob in Hsup. congruence.
Qed.

Lemma indexes_union m1 l1 m2 l2 :
  indexes m1 l1 -> indexes m2 l2 -> indexes (m1 ∪ m2) (l2 ++ l1).
Proof.
  intros H1 H2 path.
  destruct (H1 path) as [Hs1 Hc1], (H2 path) as [Hs2 Hc2]. split.
  - intros blob Hlook. apply lookup_union_Some_raw in Hlook as [Hl|[_ Hl]].
    + destruct (Hs1 _ Hl) as (Hin & Hrest). split; [| done].
      apply elem_of_app. by right.
    + destruct (Hs2 _ Hl) as (Hin & Hrest). split; [| done].
      apply elem_of_app. by left.
  - intros (blob & Hin & Hrest). apply lookup_union_is_Some.
    apply elem_of_app in Hin as [Hin|Hin]; [right | left]; eauto.
Qed.

Lemma own_blobs_indexes (blobs : list Blob) : forall m l,
  indexes m l ->
  indexes (foldl (fun blobs blob =>
                    if extension_supported (blob_path blob)
                    then <[blob_path blob := blob]> blobs else blobs)
                 m blobs) (l ++ blobs).
Proof.
  induction blobs as [|b blobs IH]; intros m l Hm.
  - by rewrite app_nil_r.
  - cbn [foldl]. rewrite (cons_middle b l blobs). change (l ++ [b] ++ blobs)
      with (l ++ ([b] ++ blobs)). rewrite app_assoc.
    apply IH. by apply indexes_insert.
Qed.

Lemma subtrees_indexes (trees : list Tree) :
  Forall (fun t => indexes (all_blobs_in_tree t) (blobs_of_tree t)) trees ->
  forall m l, indexes m l ->
  indexes (foldl (fun blobs subtree => all_blobs_in_tree subtree ∪ blobs)
                 m trees)
          (l ++ flat_map blobs_of_tree trees).
Proof.
  induction 1 as [|sub trees Hsub _ IH]; intros m l Hm.
  - by rewrite app_nil_r.
  - cbn [foldl flat_map]. rewrite app_assoc. apply IH.
    by apply indexes_union.
Qed.

Lemma all_blobs_in_tree_indexes (t : Tree) :
  indexes (all_blobs_in_tree t) (blobs_of_tree t).
Proof.
  induction t as [[own trees] IH] using Tree_ind_nested.
  cbn [all_blobs_in_tree blobs_of_tree tree_blobs tree_trees] in *.
  apply (subtrees_indexes trees IH).
  apply (own_blobs_indexes own ∅ []), indexes_empty.
Qed.

(** X6.  [all_blobs_in_tree] has an entry at a path exactly when some blob
    of the tree, at any depth, has that path and the path has a supported
    extension; the entry is then a blob of the tree with that path. *)
Theorem all_blobs_in_tree_holds_supported_blobs (t : Tree) (path : string) :
  (forall blob, all_blobs_in_tree t !! path = Some blob ->
     blob ∈ blobs_of_tree t /\ blob_path blob = path
     /\ extension_supported path = true)
  /\ (is_Some (all_blobs_in_tree t !! path) <->
      exists blob, blob ∈ blobs_of_tree t /\ blob_path blob = path
                   /\ extension_supported path = true).
Proof.
  destruct (all_blobs_in_tree_indexes t path) as [Hsound Hcomplete].
  assert (forall blob, all_blobs_in_tree t !! path = Some blob ->
            blob ∈ blobs_of_tree t /\ blob_path blob = path
            /\ extension_supported path = true) as Hentry.
  { intros blob Hlook. destruct (Hsound _ Hlook) as (Hin & Hpath & Hsup).
    unfold supported_blob in Hsup. by rewrite Hpath in Hsup. }
  split; [exact Hentry |]. split.
  - intros [blob Hlook]. exists blob. by apply Hentry.
  - intros (blob & Hin & Hpath & Hsup). apply Hcomplete. exists blob.
    unfold supported_blob. by rewrite Hpath.
Qed.

End TreeBlobs.

Section SupportedPaths.
Context `{!External}.

Lemma supported_only_insert {V} (m : gmap string V) path v :
  extension_supported path = true ->
  supported_only m -> supported_only (<[path := v]> m).
Proof.
  intros Hpath Hm p Hp. destruct (decide (path = p)) as [<-|Hne]; [done |].
  rewrite lookup_insert_ne in Hp by done. by apply Hm.
Qed.

Lemma analyze_tree_supported_only (t : Tree) :
  supported_only (analyze_tree t).
Proof.
  intros path [bs Hlook].
  rewrite analyze_tree_fmap, lookup_fmap in Hlook.
  destruct (all_blobs_in_tree t !! path) as [blob|] eqn:Hblob; [| done].
  destruct (all_blobs_in_tree_indexes t path) as [Hsound _].
  destruct (Hsound _ Hblob) as (_ & Hpath & Hsup).
  unfold supported_blob in Hsup. by rewrite Hpath in Hsup.
Qed.

Lemma tree_delta_step_supported_only m d m' :
  supported_only m -> tree_delta_step m d = Some m' -> supported_only m'.
Proof.
  intros Hm. unfold tree_delta_step.
  destruct (String.eqb (change_type d) "A" || String.eqb (change_type d) "M"),
    (extension_supported (b_path d)) eqn:Hb, (b_blob d),
    (String.eqb (change_type d) "D"),
    (extension_supported (a_path d)) eqn:Ha,
    (startswith (change_type d) "R");
    cbn [mbind option_bind]; intros [= <-];
    repeat (apply supported_only_insert; [done |]); done.
Qed.

Lemma tree_delta_supported_only c d :
  tree_delta c = Some d -> supported_only d.
Proof.
  unfold tree_delta. destruct (head (parents c)); [| done].
  cbn [mbind option_bind].
  assert (forall l (acc : option (gmap string (option BlobStats.t))) d,
            (forall m, acc = Some m -> supported_only m) ->
            foldl (fun acc diff => d ← acc; tree_delta_step d diff) acc l
            = Some d -> supported_only d) as Hfold.
  { induction l as [|diff l IH]; intros acc d' Hacc Hrun.
    - by apply Hacc.
    - cbn [foldl] in Hrun. refine (IH _ _ _ Hrun).
      intros m Hm. destruct acc as [m0|]; [| done].
      cbn [mbind option_bind] in Hm.
      eapply tree_delta_step_supported_only; [| exact Hm]. by apply Hacc. }
  intros Hrun. refine (Hfold _ _ _ _ Hrun).
  intros m [= <-] path [v Hv]. by rewrite lookup_empty in Hv.
Qed.

End SupportedPaths.

Section SupportedSnapshot.
Context `{!External}.

Lemma size_step_keeps_supported st c st' :
  supported_only (ss_previous_tree st) ->
  analyzeSizeAndComplexity_step st c = Some st' ->
  supported_only (ss_previous_tree st').
Proof.
  intros Hsup Hstep. unfold analyzeSizeAndComplexity_step in Hstep.
  destruct (ss_heap st !! c) as [ac|]; [| done].
  cbn [mbind option_bind] in Hstep.
  destruct (tree_delta (commit ac)) as [td|] eqn:Htd; [| done].
  cbn [mbind option_bind] in Hstep.
  rewrite aggregate_delta_spec in Hstep. cbn [mbind option_bind] in Hstep.
  destruct (deref _ _) as [pc|]; [| done].
  cbn [mbind option_bind] in Hstep.
  destruct (loc pc); [| done]. cbn [mbind option_bind] in Hstep.
  destruct (cyclomaticComplexity pc); [| done].
  cbn [mbind option_bind] in Hstep.
  destruct (functions pc); [| done]. cbn [mbind option_bind] in Hstep.
  destruct (apply_delta_to_tree_spec td (ss_previous_tree st))
    as (t2 & Happly & Hlook & _).
  destruct (sum_totals _) as [[dl dcc] df].
  rewrite Happly in Hstep. cbn [mbind option_bind] in Hstep.
  injection Hstep as <-. cbn [ss_previous_tree].
  intros path Hpath. rewrite Hlook in Hpath. unfold applied in Hpath.
  destruct (td !! path) as [[bs|]|] eqn:Hd.
  - apply (tree_delta_supported_only _ _ Htd). by rewrite Hd.
  - by destruct Hpath.
  - by apply Hsup.
Qed.

(** X7.  The snapshot of [analyzeSizeAndComplexity] never holds a path
    with an unsupported extension: not in the baseline that
    [analyze_tree] measures, and not after the deltas of any number of
    commits have been applied. *)
Theorem snapshot_holds_supported_paths_only
    first pc t (heap : Heap) (l : list ref) st' path :
  size_baseline first = Some (pc, t) ->
  for_each analyzeSizeAndComplexity_step l (mkSizeState heap t (inl pc))
  = Some st' ->
  is_Some (ss_previous_tree st' !! path) ->
  extension_supported path = true.
Proof.
  intros Hbase Hrun.
  refine (for_each_preserves analyzeSizeAndComplexity_step
            (fun st => supported_only (ss_previous_tree st)) l
            size_step_keeps_supported _ _ _ Hrun path).
  unfold size_baseline in Hbase.
  destruct (head (parents (commit first))) as [parent|]; [| done].
  cbn [mbind option_bind] in Hbase. injection Hbase as <- <-.
  apply analyze_tree_supported_only.
Qed.

End SupportedSnapshot.

(** ** The edit distance of a commit *)

Section DistanceFacts.
Context `{!External}.

Lemma commitDistance_step_untouched parent c a d :
  touches_supported d = false -> commitDistance_step parent c a d = Some a.
Proof.
  unfold touches_supported. intros [Ha Hb]%orb_false_iff.
  unfold commitDistance_step. rewrite Ha, Hb.
  destruct (String.eqb (change_type d) "A"); cbn [mbind option_bind];
    destruct (String.eqb (change_type d) "M" || startswith (change_type d) "R");
    by destruct (String.eqb (change_type d) "D").
Qed.

Lemma commitDistance_fold_filter parent c (l : list Diff) : forall acc,
  foldl (fun acc diff => a ← acc; commitDistance_step parent c a diff) acc
        (filter (fun d => touches_supported d = true) l)
  = foldl (fun acc diff => a ← acc; commitDistance_step parent c a diff) acc l.
Proof.
  induction l as [|d l IH]; intros acc; [done |].
  rewrite filter_cons. destruct (decide (touches_supported d = true)) as [|Hno].
  - cbn [foldl]. apply IH.
  - cbn [foldl]. rewrite IH. f_equal. destruct acc as [a|]; [| done].
    cbn [mbind option_bind]. symmetry. apply commitDistance_step_untouched.
    by destruct (touches_supported d).
Qed.

(** X8.  [commitDistance] depends only on the diffs that touch a path with
    a supported extension: the commit without its other diffs has the same
    distance, and where the commit raises so does the other. *)
Theorem commitDistance_ignores_unsupported_diffs (c : Commit) :
  commitDistance
    (with_parent_diff
       (filter (fun d => touches_supported d = true) (parent_diff c)) c)
  = commitDistance c.
Proof.
  unfold commitDistance, with_parent_diff.
  cbn [parents parent_diff hexsha].
  destruct (head (parents c)) as [parent|]; [| done].
  cbn [mbind option_bind].
  apply (commitDistance_fold_filter parent
           (mkCommit (hexsha c) (author_name c) (committed_date c)
              (parents c) (tree c)
              (filter (fun d => touches_supported d = true) (parent_diff c)))).
Qed.

(** X9.  [blob_delta] does not count a line of the diff that starts with
    three dashes or three pluses, be it a file header or a removed line
    whose text starts with two dashes (an added one with two pluses): the
    diff without these lines has the same distance. *)
Theorem blob_delta_skips_lines_of_three_signs (diff1 diff2 : string) :
  split_lines diff2
  = filter (fun line => is_header line = false) (split_lines diff1) ->
  blob_delta_of_text diff2 = blob_delta_of_text diff1.
Proof.
  intros Hlines. unfold blob_delta_of_text. rewrite Hlines.
  assert (forall lines st,
            fold_left blob_delta_step
              (filter (fun line => is_header line = false) lines) st
            = fold_left blob_delta_step lines st) as Hfold.
  { induction lines as [|line lines IH]; intros st; [done |].
    rewrite filter_cons.
    destruct (decide (is_header line = false)) as [|Hheader].
    - cbn [fold_left]. apply IH.
    - cbn [fold_left]. rewrite blob_delta_step_header; [apply IH |].
      by destruct (is_header line). }
  by rewrite Hfold.
Qed.

End DistanceFacts.

(** ** The report *)

Section ReportFacts.
Context `{!External}.

Lemma tabulate_loop (heap : Heap) (data : list ref) : forall table,
  for_each (fun table c =>
    ac ← heap !! c;
    if bool_decide (levenshteinDistance ac = Some 0) then Some table
    else row ← report_row ac; Some (table ++ [Line row]))
  data table
  = records ← mapM (fun c => heap !! c) data;
    rows ← mapM report_row
             (filter (fun ac => levenshteinDistance ac <> Some 0) records);
    Some (table ++ (Line <$> rows)).
Proof.
  induction data as [|c data IH]; intros table.
  - cbn. by rewrite app_nil_r.
  - cbn [for_each mapM]. destruct (heap !! c) as [ac|]; [| done].
    cbn [mbind option_bind].
    destruct (bool_decide_reflect (levenshteinDistance ac = Some 0))
      as [Hzero|Hnonzero]; cbn [mbind option_bind].
    + rewrite IH.
      destruct (mapM (fun c => heap !! c) data) as [records|];
        cbn [mbind option_bind mret option_ret]; [| done].
      by rewrite filter_cons_False by (by intros ?).
    + destruct (report_row ac) as [row|] eqn:Hrow; cbn [mbind option_bind].
      * rewrite IH.
        destruct (mapM (fun c => heap !! c) data) as [records|];
          cbn [mbind option_bind mret option_ret]; [| done].
        rewrite filter_cons_True by done. cbn [mapM].
        rewrite Hrow. cbn [mbind option_bind].
        destruct (mapM report_row _) as [rows|];
          cbn [mbind option_bind mret option_ret]; [| done].
        rewrite fmap_cons. by rewrite <- app_assoc.
      * destruct (mapM (fun c => heap !! c) data) as [records|];
          cbn [mbind option_bind mret option_ret]; [| done].
        rewrite filter_cons_True by done. cbn [mapM].
        by rewrite Hrow.
Qed.


End ReportFacts.

(** ** The contributions of a commit to complex functions *)

Section ContributionTotals.
Context `{!External}.

Lemma contribution_step_totals cf c (h : Heap) pfc item ac :
  h !! c = Some ac ->
  let st := contribution_step cf c (h, pfc) item in
  st.2 = <[item.1 := item.2]> pfc
  /\ (forall r, r <> c -> st.1 !! r = h !! r)
  /\ exists ac', st.1 !! c = Some ac'
       /\ or_zero (decreaseOfComplexityInComplexFunctions ac')
          = or_zero (decreaseOfComplexityInComplexFunctions ac)
            + decrease_of cf pfc item
       /\ or_zero (increaseOfComplexityInComplexFunctions ac')
          = or_zero (increaseOfComplexityInComplexFunctions ac)
            + increase_of cf pfc item.
Proof.
  intros Hac. destruct item as [function complexity].
  unfold contribution_step, decrease_of, increase_of. cbn [fst snd].
  split; [done |].
  destruct (bool_decide (function ∈ cf)); cbn [andb].
  2: { split; [done |]. exists ac. split; [done |]. lia. }
  assert (match pfc !! function with Some v => v | None => 0 end
          = or_zero (pfc !! function)) as Hprev
    by (unfold or_zero; by destruct (pfc !! function)).
  unfold update_complex_function_contribution_of_commit. rewrite Hprev.
  generalize (or_zero (pfc !! function)). intros previous_complexity.
  destruct (previous_complexity >? 11), (previous_complexity >? complexity),
    (complexity >? 11), (complexity >? previous_complexity); cbn [andb].
  all: split;
    [ intros r Hr; by rewrite ?list_lookup_alter_ne by congruence
    | rewrite ?list_lookup_alter_eq, Hac; cbn [fmap option_fmap option_map];
      eexists; split; [reflexivity |];
      rewrite ?accumulate_adds; destruct ac; cbn; split; lia ].
Qed.

Lemma contribution_loop cf c (l : list (string * Z)) :
  NoDup (l.*1) -> forall (h : Heap) pfc ac,
  h !! c = Some ac ->
  let st := foldl (contribution_step cf c) (h, pfc) l in
  st.2 = list_to_map l ∪ pfc
  /\ (forall r, r <> c -> st.1 !! r = h !! r)
  /\ exists ac', st.1 !! c = Some ac'
       /\ or_zero (decreaseOfComplexityInComplexFunctions ac')
          = or_zero (decreaseOfComplexityInComplexFunctions ac)
            + sum_Z (decrease_of cf pfc <$> l)
       /\ or_zero (increaseOfComplexityInComplexFunctions ac')
          = or_zero (increaseOfComplexityInComplexFunctions ac)
            + sum_Z (increase_of cf pfc <$> l).
Proof.
  induction l as [|[f v] l IH]; intros Hnd h pfc ac Hac.
  - cbn. split; [by rewrite (left_id_L ∅ (∪)) |]. split; [done |].
    exists ac. split; [done |]. lia.
  - rewrite fmap_cons in Hnd. apply NoDup_cons in Hnd as [Hf Hnd].
    cbn [foldl].
    destruct (contribution_step_totals cf c h pfc (f, v) ac Hac)
      as (Hmap & Hframe & ac1 & Hac1 & Hdec & Hinc).
    destruct (contribution_step cf c (h, pfc) (f, v)) as [h1 pfc1] eqn:Hstep.
    cbn [fst snd] in *. subst pfc1.
    destruct (IH Hnd h1 (<[f := v]> pfc) ac1 Hac1)
      as (Hmap' & Hframe' & ac' & Hac' & Hdec' & Hinc').
    assert (forall (g : gmap string Z -> string * Z -> Z),
              (forall item, item.1 <> f ->
                 g (<[f := v]> pfc) item = g pfc item) ->
              g (<[f := v]> pfc) <$> l = g pfc <$> l) as Hsame.
    { intros g Hg. apply list_fmap_ext. intros i item Hitem. apply Hg.
      intros Heq. apply Hf. rewrite <- Heq. apply list_elem_of_fmap.
      exists item. split; [done |]. by eapply list_elem_of_lookup_2. }
    rewrite Hsame in Hdec', Hinc'.
    2: { intros item Hne. unfold increase_of.
         by rewrite lookup_insert_ne by done. }
    2: { intros item Hne. unfold decrease_of.
         by rewrite lookup_insert_ne by done. }
    split; [| split].
    + rewrite Hmap'. cbn [list_to_map foldr uncurry curry fst snd].
      rewrite <- insert_union_l. symmetry. apply insert_union_r.
      by apply not_elem_of_list_to_map_1.
    + intros r Hr. by rewrite Hframe', Hframe.
    + exists ac'. split; [done |]. rewrite !fmap_cons.
      cbn [sum_Z foldr]. fold (sum_Z (decrease_of cf pfc <$> l)).
      fold (sum_Z (increase_of cf pfc <$> l)). lia.
Qed.

(** X11.  The inner loop of [analyzeComplexFunctionsContributions] for one
    commit: every re-measured function overwrites its entry of the
    Function Complexity Map and the other entries stay; the decrease and
    the increase of the commit grow by the sums, over the re-measured
    functions, of what each contributes against the map as it was before
    the commit (a field that is [None] counts as 0); no other record
    changes. *)
Theorem commit_contributions_are_summed
    (complex_functions : list string) (c : ref) (h : Heap)
    (pfc fc : gmap string Z) (ac : AnnotatedCommit) :
  h !! c = Some ac ->
  let st := foldl (contribution_step complex_functions c) (h, pfc)
                  (map_to_list fc) in
  st.2 = fc ∪ pfc
  /\ (forall r, r <> c -> st.1 !! r = h !! r)
  /\ exists ac', st.1 !! c = Some ac'
       /\ or_zero (decreaseOfComplexityInComplexFunctions ac')
          = or_zero (decreaseOfComplexityInComplexFunctions ac)
            + sum_Z (decrease_of complex_functions pfc <$> map_to_list fc)
       /\ or_zero (increaseOfComplexityInComplexFunctions ac')
          = or_zero (increaseOfComplexityInComplexFunctions ac)
            + sum_Z (increase_of complex_functions pfc <$> map_to_list fc).
Proof.
  intros Hac.
  pose proof (contribution_loop complex_functions c (map_to_list fc)
                (NoDup_fst_map_to_list fc) h pfc ac Hac) as Hloop.
  by rewrite list_to_map_to_list in Hloop.
Qed.

Lemma contribution_step_no_functions c (l : list (string * Z)) :
  forall st, (foldl (contribution_step [] c) st l).1 = st.1.
Proof.
  induction l as [|[f v] l IH]; intros [h pfc]; [done |].
  cbn [foldl]. rewrite IH. unfold contribution_step.
  by rewrite bool_decide_false by apply not_elem_of_nil.
Qed.

(** X12.  Without complex functions, as in a run without the option
    [-cc], [analyzeComplexFunctionsContributions] changes no record: the
    increase and the decrease of every commit stay as they were. *)
Theorem no_complex_functions_no_contributions
    (data : list ref) (heap h' : Heap) :
  analyzeComplexFunctionsContributions data [] heap = Some h' -> h' = heap.
Proof.
  unfold analyzeComplexFunctionsContributions.
  destruct data as [|first rest]; [by intros [= <-] |].
  destruct (heap !! first) as [ac|]; cbn -[for_each]; [| done].
  destruct (head (parents (commit ac))) as [parent|]; cbn -[for_each];
    [| done].
  match goal with
  | |- context [for_each ?b ?l ?s] =>
      destruct (for_each b l s) as [st|] eqn:Hloop; cbn -[for_each]; [| done]
  end.
  intros [= <-].
  match type of Hloop with
  | for_each ?b ?l ?s = _ =>
      apply (for_each_preserves b (fun st => st.1 = heap) l) in Hloop
  end; [done | | done].
  intros s a s' Hs. destruct (s.1 !! a) as [a0|]; cbn -[for_each]; [| done].
  destruct (all_blobs_modified_by_commit (commit a0)); cbn -[for_each];
    [| done].
  intros [= <-]. by rewrite contribution_step_no_functions.
Qed.

End ContributionTotals.

(** ** The activity of the developers *)

Section ActivityBounds.
Context `{!External}.

Lemma elem_of_take_while {A} (p : A -> bool) (l : list A) x :
  x ∈ take_while p l -> p x = true /\ x ∈ l.
Proof.
  induction l as [|y l IH]; simpl; [by intros ?%elem_of_nil |].
  destruct (p y) eqn:Hy; [| by intros ?%elem_of_nil].
  intros [->|Hin]%elem_of_cons.
  - split; [done | by left].
  - destruct (IH Hin). split; [done | by right].
Qed.

Lemma elem_of_window raw r cutOff p :
  p ∈ window raw r cutOff ->
  cutOff < committed_date p
  /\ exists j, (j < r)%nat /\ raw !! j = Some p.
Proof.
  unfold window, history. intros [Hdate Hin]%elem_of_take_while.
  split; [by apply Z.gtb_lt |].
  rewrite elem_of_reverse in Hin. apply elem_of_take in Hin as (j & Hj & Hlt).
  by exists j.
Qed.

Lemma oldest_first_lookup raw j r p c :
  oldest_first raw -> (j < r)%nat -> raw !! j = Some p -> raw !! r = Some c ->
  committed_date p <= committed_date c.
Proof.
  intros Hsorted Hlt Hj Hr.
  rewrite <- (take_drop_middle raw r c Hr) in Hsorted.
  apply (StronglySorted_app_1_elem_of _ _ _ p c Hsorted).
  - apply elem_of_take. by exists j.
  - by left.
Qed.

Lemma round_half_even_bounds a b :
  a / b <= round_half_even a b <= a / b + 1.
Proof.
  unfold round_half_even.
  destruct (2 * (a mod b) <? b), (b <? 2 * (a mod b)), (Z.even (a / b)); lia.
Qed.

Lemma int_truediv_nonneg_nonnegative a b :
  0 <= a -> 0 < b -> 0 <= int_truediv_nonneg a b.
Proof.
  intros Ha Hb. unfold int_truediv_nonneg.
  destruct (a <? b); [destruct (_ <=? _); lia |].
  destruct (Z.leb_spec (Z.log2 (a / b)) 52) as [Hl|Hl].
  - assert (0 < 2 ^ (52 - Z.log2 (a / b))) as HP
      by (apply Z.pow_pos_nonneg; lia).
    pose proof (round_half_even_bounds (a * 2 ^ (52 - Z.log2 (a / b))) b).
    assert (0 <= a * 2 ^ (52 - Z.log2 (a / b)) / b)
      by (apply Z.div_pos; [| lia]; apply Z.mul_nonneg_nonneg; lia).
    apply Z.div_pos; lia.
  - assert (0 < 2 ^ (Z.log2 (a / b) - 52)) as HP
      by (apply Z.pow_pos_nonneg; lia).
    pose proof (round_half_even_bounds a (b * 2 ^ (Z.log2 (a / b) - 52))).
    assert (0 <= a / (b * 2 ^ (Z.log2 (a / b) - 52)))
      by (apply Z.div_pos; [lia |]; apply Z.mul_pos_pos; lia).
    apply Z.mul_nonneg_nonneg; lia.
Qed.

Lemma int_truediv_nonneg_exact a b :
  0 < b < 2 ^ 17 -> 0 <= a -> a / b < 2 ^ 36 ->
  int_truediv_nonneg a b = a / b.
Proof.
  intros [Hb Hb17] Ha Hq. unfold int_truediv_nonneg.
  destruct (Z.ltb_spec a b) as [Hlt|Hge].
  - rewrite Z.div_small by lia.
    destruct (Z.leb_spec (b * (2 ^ 54 - 1)) (a * 2 ^ 54)) as [Hle|]; [| done].
    exfalso. assert (2 ^ 17 < 2 ^ 54) by (apply Z.pow_lt_mono_r; lia). nia.
  - set (q := a / b) in *.
    assert (1 <= q) as Hq1.
    { unfold q. apply Z.div_le_lower_bound; lia. }
    assert (Z.log2 q < 36) as Hl by (apply Z.log2_lt_pow2; lia).
    pose proof (Z.log2_nonneg q) as Hl0.
    destruct (Z.leb_spec (Z.log2 q) 52) as [_|]; [| lia].
    set (s := 52 - Z.log2 q) in *.
    assert (2 ^ 17 <= 2 ^ s) as HP by (apply Z.pow_le_mono_r; lia).
    set (P := 2 ^ s) in *.
    pose proof (round_half_even_bounds (a * P) b) as [Hlow Hup].
    pose proof (Z.div_mod a b ltac:(lia)) as Hdm.
    pose proof (Z.mod_pos_bound a b Hb) as Hr. fold q in Hdm.
    assert (q * P <= a * P / b) as H1.
    { apply Z.div_le_lower_bound; [lia |]. nia. }
    assert (a * P / b < q * P + P - 1) as H2.
    { apply Z.div_lt_upper_bound; [lia |]. nia. }
    symmetry. apply (Z.div_unique_pos _ P q (round_half_even (a * P) b - q * P));
      lia.
Qed.

Lemma int_truediv_day_bounds delta n :
  n <= 2 ^ 36 ->
  delta < Z.max 0 (n * 60 * 60 * 24) ->
  int_truediv delta day < Z.max 1 n
  /\ (0 <= delta -> 0 <= int_truediv delta day).
Proof.
  intros Hn Hdelta. unfold int_truediv, day.
  destruct (Z.leb_spec 0 delta) as [Hpos|Hneg].
  - assert (delta / (60 * 60 * 24) < n) as Hq
      by (apply Z.div_lt_upper_bound; lia).
    rewrite int_truediv_nonneg_exact; [| lia | done | lia].
    split; [lia |]. intros _. apply Z.div_pos; lia.
  - pose proof (int_truediv_nonneg_nonnegative (- delta) (60 * 60 * 24)
                  ltac:(lia) ltac:(lia)).
    split; [lia | intros ?; lia].
Qed.

(** X13.  In a run whose window is [parseActiveCommiterInterval n], for
    [n] up to [2^36] days, the days since the previous commit by the same
    developer, where they are set, are fewer than [n] (fewer than 1 for [n]
    below 1), and not negative when the log is sorted, newest commit
    first; and the developer is then one of the active developers counted
    for the commit, so that number is at least 1.  Up to that [n] the
    float division of the code is exact; beyond it the rounded quotient
    can reach [n]. *)
Theorem days_since_previous_commit_within_window
    (repo : Repo) (branch : string) (startTime endTime n : Z)
    (filtered_authors filtered_commits : list string)
    (log : list Commit) (heap h : Heap) (data : list ref)
    (r : ref) (ac : AnnotatedCommit) (d : Z) :
  iter_commits repo branch = inr log ->
  createDataSet repo branch startTime endTime (parseActiveCommiterInterval n)
                filtered_authors filtered_commits = Done (heap, data) ->
  analyze_activity data (parseActiveCommiterInterval n) heap = Some h ->
  n <= 2 ^ 36 ->
  r ∈ data -> h !! r = Some ac ->
  daysSincePreviousCommitByDeveloper ac = Some d ->
  d < Z.max 1 n
  /\ (newest_first log -> 0 <= d)
  /\ exists developers, numberOfActiveDevelopers ac = Some developers
       /\ 1 <= developers.
Proof.
  intros Hlog Hdone Hrun Hn Hr Hac Hd.
  destruct (createDataSet_Done _ _ _ _ _ _ _ _ _ Hdone)
    as (log' & Hlog' & Hlink & _ & Hnd & Hlt & Hlook).
  assert (log' = log) as -> by congruence.
  set (raw := reverse log) in *. set (w := parseActiveCommiterInterval n) in *.
  destruct (analyze_activity_spec raw w data heap Hnd Hlt Hlink)
    as (h0 & Hh & _ & Hv).
  assert (h0 = h) as -> by congruence.
  destruct (lookup_lt_is_Some_2 raw r (Hlt r Hr)) as [c Hc].
  destruct (Hv r _ Hr (Hlook _ _ Hc))
    as (a' & Ha' & _ & _ & _ & Hact & Hdays & _).
  assert (a' = ac) as -> by congruence.
  change (commit (chain_record (length raw) r c)) with c in Hact, Hdays.
  rewrite Hd in Hdays.
  destruct (days_since_previous raw w r c) as [days|] eqn:Hfound;
    [| done].
  injection Hdays as ->. unfold days_since_previous in Hfound.
  destruct (List.find _ _) as [p|] eqn:Hfind; [| done].
  injection Hfound as <-.
  apply find_some in Hfind as [Hin Hauthor].
  apply String.eqb_eq in Hauthor.
  assert (p ∈ window raw r (committed_date c - w)) as Hwin
    by (by apply list_elem_of_In).
  destruct (elem_of_window _ _ _ _ Hwin) as (Hcut & j & Hj & Hp).
  destruct (int_truediv_day_bounds (committed_date c - committed_date p) n
              Hn) as [Hupper Hlower].
  { unfold w, parseActiveCommiterInterval in Hcut. lia. }
  split; [done |]. split.
  - intros Hnewest. apply Hlower.
    pose proof (oldest_first_lookup raw j r p c
                  (StronglySorted_reverse_flip _ _ Hnewest) Hj Hp Hc).
    lia.
  - eexists. split; [exact Hact |]. unfold active_developers.
    assert (author_name p
            ∈ (list_to_set (author_name <$>
                 window raw r (committed_date c - w)) : gset string))
      as Hset.
    { apply elem_of_list_to_set, list_elem_of_fmap. by exists p. }
    assert (size (list_to_set (author_name <$>
               window raw r (committed_date c - w)) : gset string) <> 0%nat).
    { apply size_non_empty_iff. intros Hempty. rewrite Hempty in Hset.
      by apply elem_of_empty in Hset. }
    lia.
Qed.

End ActivityBounds.

(** ** The arguments of a run *)

Section ArgumentFacts.
Context `{!External} `{!Shell}.

Lemma analyzable_empty_interval s e fa fc c :
  e <= s -> analyzable s e fa fc c = false.
Proof.
  intros He. destruct (analyzable s e fa fc c) eqn:Hc; [| done].
  apply analyzable_iff in Hc. lia.
Qed.

Lemma refs_from_none (p : Commit -> bool) (l : list Commit) :
  (forall c, p c = false) -> forall k, refs_from p k l = [].
Proof.
  intros Hp. induction l as [|c l IH]; intros k; [done |].
  cbn [refs_from]. by rewrite Hp.
Qed.

Lemma round_to_double_small x :
  - 2 ^ 53 < x < 2 ^ 53 -> round_to_double x = x.
Proof.
  intros Hx. unfold round_to_double.
  destruct (Z.leb_spec (Z.log2 (Z.abs x)) 52) as [|Hl]; [done |].
  exfalso. destruct (Z.eq_dec x 0) as [->|Hx0]; [done |].
  assert (Z.log2 (Z.abs x) < 53); [| lia].
  apply Z.log2_lt_pow2; lia.
Qed.

(** X14.  An interval of no days or of a negative number of days ends at
    the start time, so no commit lies in it: whenever the log can be
    read, [createDataSet] ends the run whatever the log holds, with the
    message that no commits were found if [secondsToIso] returns for the
    start time, and with its exception otherwise.  The start time and the
    interval are within [2^52] seconds, where the floats of
    [parseEndTime] are exact. *)
Theorem empty_interval_finds_no_commits
    (repo : Repo) (branch : string) (startTime interval w : Z)
    (filtered_authors filtered_commits : list string) (log : list Commit) :
  iter_commits repo branch = inr log ->
  interval <= 0 ->
  - 2 ^ 52 < startTime < 2 ^ 52 ->
  - 2 ^ 52 <= interval * 60 * 60 * 24 ->
  parseEndTime startTime interval = Some startTime
  /\ createDataSet repo branch startTime startTime w
                   filtered_authors filtered_commits
     = match secondsToIso startTime with
       | Some _ => Halt (NoCommitsFound branch startTime startTime)
       | None => Raise
       end.
Proof.
  intros Hlog Hinterval Hstart Hbound. split.
  - unfold parseEndTime, float_of_int.
    assert (2 ^ 52 < 2 ^ 53 < 2 ^ 1024) as [H52 H53]
      by (split; apply Z.pow_lt_mono_r; lia).
    rewrite round_to_double_small by lia.
    destruct (Z.ltb_spec (Z.abs (interval * 60 * 60 * 24)) (2 ^ 1024));
      [| lia].
    cbn [mbind option_bind]. rewrite round_to_double_small by lia.
    f_equal. lia.
  - unfold createDataSet. rewrite Hlog.
    pose proof (build_chain_spec startTime startTime filtered_authors
                  filtered_commits (reverse log)) as (_ & _ & Hdata & _).
    rewrite Hdata, refs_from_none.
    + cbn [length Nat.eqb]. by destruct (secondsToIso startTime).
    + intros c. by apply analyzable_empty_interval.
Qed.

Lemma stage_erase {A} key name (value : option A) assign u u' :
  (forall x u u',
     set_activeCommitterInterval None u = set_activeCommitterInterval None u'
     -> set_activeCommitterInterval None (assign x u)
        = set_activeCommitterInterval None (assign x u')) ->
  set_activeCommitterInterval None u = set_activeCommitterInterval None u' ->
  set_activeCommitterInterval None (stage key name value assign u)
  = set_activeCommitterInterval None (stage key name value assign u').
Proof.
  intros Hassign Hu. unfold stage.
  destruct (String.eqb key name); [| done].
  destruct value; [by apply Hassign | done].
Qed.

Lemma stage_a_erase key name (value value' : option Z) u u' :
  set_activeCommitterInterval None u = set_activeCommitterInterval None u' ->
  set_activeCommitterInterval None
    (stage key name value
       (fun x => set_activeCommitterInterval (Some x)) u)
  = set_activeCommitterInterval None
      (stage key name value'
         (fun x => set_activeCommitterInterval (Some x)) u').
Proof.
  intros Hu. unfold stage.
  destruct (String.eqb key name); [| done]. by destruct value, value'.
Qed.

Lemma main_step_erase ns a v v' key :
  set_activeCommitterInterval None v = set_activeCommitterInterval None v' ->
  set_activeCommitterInterval None (main_step (with_a a ns) v key)
  = set_activeCommitterInterval None (main_step ns v' key).
Proof.
  intros Hv. unfold main_step. cbv zeta.
  cbn [with_a ns_b ns_d ns_s ns_i ns_a ns_o ns_af ns_cf ns_cc].
  do 4 (apply stage_erase;
        [intros x u1 u2 Hu; unfold set_activeCommitterInterval in *;
         injection Hu as ?; cbn; congruence |]).
  apply stage_a_erase.
  do 4 (apply stage_erase;
        [intros x u1 u2 Hu; unfold set_activeCommitterInterval in *;
         injection Hu as ?; cbn; congruence |]).
  exact Hv.
Qed.

Lemma main_loop_erase ns a keys : forall v v',
  set_activeCommitterInterval None v = set_activeCommitterInterval None v' ->
  set_activeCommitterInterval None (foldl (main_step (with_a a ns)) v keys)
  = set_activeCommitterInterval None (foldl (main_step ns) v' keys).
Proof.
  induction keys as [|key keys IH]; intros v v' Hv; [done |].
  cbn [foldl]. by apply IH, main_step_erase.
Qed.

Lemma stage_keeps_arg {A} key name (value : option A) assign u :
  (forall x u,
     mv_activeCommitterIntervalArg (assign x u)
     = mv_activeCommitterIntervalArg u) ->
  mv_activeCommitterIntervalArg (stage key name value assign u)
  = mv_activeCommitterIntervalArg u.
Proof.
  intros Hassign. unfold stage.
  destruct (String.eqb key name); [| done]. by destruct value.
Qed.

Lemma main_loop_keeps_arg ns keys : forall v,
  mv_activeCommitterIntervalArg (foldl (main_step ns) v keys)
  = mv_activeCommitterIntervalArg v.
Proof.
  induction keys as [|key keys IH]; intros v; [done |].
  cbn [foldl]. rewrite IH. unfold main_step. cbv zeta.
  by repeat rewrite stage_keeps_arg by (intros; reflexivity).
Qed.

(** X15.  [main] does not use the option [-a]: its value is stored in a
    variable that is overwritten before it is read, so a run with any
    value of [-a], or without one, calls [gitlyze] with the same
    arguments, and the window of the active developers is always the
    default of 30 days. *)
Theorem main_ignores_the_option_a
    (ns : Namespace) (keys : list string) (a : option Z) :
  main_settings (with_a a ns) keys = main_settings ns keys
  /\ forall s, main_settings ns keys = Some s ->
       run_activeCommitterInterval s = 30 * 86400.
Proof.
  split.
  - unfold main_settings.
    pose proof (main_loop_erase ns a keys main_defaults main_defaults
                  eq_refl) as Hsame.
    set (v := foldl (main_step (with_a a ns)) main_defaults keys) in *.
    set (v' := foldl (main_step ns) main_defaults keys) in *.
    clearbody v v'. destruct v, v'.
    unfold set_activeCommitterInterval in Hsame. cbn in Hsame.
    injection Hsame as -> -> -> -> -> -> -> -> ->. reflexivity.
  - intros s. unfold main_settings.
    rewrite main_loop_keeps_arg.
    destruct (parseStartTime _) as [startTime|]; [| done].
    cbn [mbind option_bind].
    destruct (parseEndTime _ _) as [endTime|]; [| done].
    cbn [mbind option_bind]. intros [= <-]. cbn. reflexivity.
Qed.

End ArgumentFacts.

(** ** The distance in the records and in the report *)

Section DistanceInReport.
Context `{!External}.

Lemma analyzeLevenshteinDistance_records (data : list ref) :
  forall h h' : Heap,
  analyzeLevenshteinDistance data h = Some h' ->
  forall r ac, h !! r = Some ac ->
    exists ac', h' !! r = Some ac'
      /\ commit ac' = commit ac /\ previous ac' = previous ac
      /\ levenshteinDistance ac'
         = if decide (r ∈ data /\ previous ac <> None)
           then commitDistance (commit ac) else levenshteinDistance ac.
Proof.
  unfold analyzeLevenshteinDistance.
  induction data as [|c data IH]; intros h h' Hrun r ac Hac.
  - injection Hrun as <-. exists ac. split; [done |].
    rewrite decide_False; [done |]. intros [Hin _]. by apply elem_of_nil in Hin.
  - cbn [for_each] in Hrun.
    destruct (h !! c) as [a|] eqn:Ha; [| done].
    cbn [mbind option_bind] in Hrun.
    destruct (previous a) as [p|] eqn:Hprev.
    + destruct (commitDistance (commit a)) as [d|] eqn:Hd; [| done].
      cbn [mbind option_bind] in Hrun.
      destruct (decide (c = r)) as [->|Hne].
      * assert (a = ac) as -> by congruence.
        destruct (IH _ _ Hrun r (set_levenshteinDistance (Some d) ac))
          as (ac' & Hac' & Hcommit & Hprevious & Hdistance).
        { by rewrite list_lookup_alter_eq, Hac. }
        exists ac'. split; [done |]. split; [done |]. split; [done |].
        rewrite Hdistance. cbn [previous commit set_levenshteinDistance].
        rewrite Hprev.
        rewrite (decide_True (P := r ∈ r :: data /\ _));
          [| split; [by left | done]].
        destruct (decide (r ∈ data /\ Some p <> None)); [done |].
        by rewrite <- Hd.
      * destruct (IH _ _ Hrun r ac) as (ac' & Hac' & Hrest).
        { by rewrite list_lookup_alter_ne. }
        exists ac'. split; [done |].
        destruct Hrest as (Hc & Hp' & ->). do 2 (split; [done |]).
        apply decide_ext. rewrite elem_of_cons. naive_solver.
    + cbn [mbind option_bind] in Hrun.
      destruct (IH _ _ Hrun r ac Hac) as (ac' & Hac' & Hc & Hp' & Hd).
      exists ac'. do 3 (split; [done |]). rewrite Hd.
      apply decide_ext. rewrite elem_of_cons.
      split; [naive_solver |]. intros [[->|Hin] Hp]; [| done].
      assert (a = ac) as -> by congruence. done.
Qed.

(** X16.  When [analyzeLevenshteinDistance] returns, the distance of every
    record of [data] that has a previous record is [commitDistance] of its
    commit; every other record keeps the distance it had, and no commit or
    link changes. *)
Theorem analyzeLevenshteinDistance_sets_commitDistance
    (data : list ref) (h h' : Heap) (r : ref) (ac : AnnotatedCommit) :
  analyzeLevenshteinDistance data h = Some h' ->
  h !! r = Some ac ->
  exists ac', h' !! r = Some ac'
    /\ commit ac' = commit ac /\ previous ac' = previous ac
    /\ levenshteinDistance ac'
       = if decide (r ∈ data /\ previous ac <> None)
         then commitDistance (commit ac) else levenshteinDistance ac.
Proof. intros Hrun. by apply analyzeLevenshteinDistance_records. Qed.

End DistanceInReport.

Section QuietAnalyzers.
Context `{!External}.
Variable HP : Heap -> Prop.
Hypothesis HP_alter :
  forall g c (h : Heap), quiet g -> HP h -> HP (alter g c h).

Lemma analyzeSizeAndComplexity_keeps data (h h' : Heap) :
  HP h -> analyzeSizeAndComplexity data h = Some h' -> HP h'.
Proof.
  intros Hh. unfold analyzeSizeAndComplexity.
  destruct data as [|first rest]; [by intros [= <-] |].
  destruct (h !! first) as [ac|]; cbn -[for_each]; [| done].
  destruct (size_baseline ac) as [[previous_commit previous_tree]|];
    cbn -[for_each]; [| done].
  destruct (for_each analyzeSizeAndComplexity_step _ _) as [st|] eqn:Hloop;
    cbn -[for_each]; [| done].
  intros [= <-].
  apply (for_each_preserves analyzeSizeAndComplexity_step
           (fun st => HP (ss_heap st))) in Hloop; [done | | done].
  clear -HP_alter. intros st c' st' Hst. unfold analyzeSizeAndComplexity_step.
  destruct (ss_heap st !! c') as [ac'|]; simpl; [| done].
  destruct (tree_delta (commit ac')) as [td|]; simpl; [| done].
  destruct (aggregate_delta td (ss_previous_tree st)) as [[delta t1]|]; simpl;
    [| done].
  destruct (deref (ss_heap st) (ss_previous_commit st)) as [pc|]; simpl;
    [| done].
  destruct (loc pc) as [pl|]; simpl; [| done].
  destruct (cyclomaticComplexity pc) as [pcc|]; simpl; [| done].
  destruct (functions pc) as [pf|]; simpl; [| done].
  destruct delta as [[dl dcc] df].
  destruct (apply_delta_to_tree td t1) as [[[] t2]|]; simpl; [| done].
  intros [= <-]. simpl. apply HP_alter; [| done].
  apply set_size_and_complexity_quiet.
Qed.

Lemma update_complex_function_keeps pfc function complexity c (h : Heap) :
  HP h ->
  HP (update_complex_function_contribution_of_commit pfc function complexity
        c h).
Proof.
  intros Hh. unfold update_complex_function_contribution_of_commit.
  set (prev := match pfc !! function with Some v => v | None => 0 end).
  assert (HP (if (prev >? 11) && (prev >? complexity)
              then alter (fun a => set_decreaseOfComplexityInComplexFunctions
                           (accumulate (decreaseOfComplexityInComplexFunctions a)
                                       (prev - complexity)) a) c h
              else h)) as Hh1.
  { destruct ((prev >? 11) && (prev >? complexity)); [| done].
    by apply HP_alter. }
  destruct ((complexity >? 11) && (complexity >? prev)); [| done].
  by apply HP_alter.
Qed.

Lemma analyzeComplexFunctionsContributions_keeps data cf (h h' : Heap) :
  HP h -> analyzeComplexFunctionsContributions data cf h = Some h' -> HP h'.
Proof.
  intros Hh. unfold analyzeComplexFunctionsContributions.
  destruct data as [|first rest]; [by intros [= <-] |].
  destruct (h !! first) as [ac|]; cbn -[for_each]; [| done].
  destruct (head (parents (commit ac))) as [parent|]; cbn -[for_each];
    [| done].
  match goal with
  | |- context [for_each ?b ?l ?s] =>
      destruct (for_each b l s) as [st|] eqn:Hloop; cbn -[for_each]; [| done]
  end.
  intros [= <-].
  apply (for_each_preserves _ (fun st => HP (fst st))) in Hloop;
    [done | | done].
  clear -HP_alter. intros st c' st' Hst.
  destruct (st.1 !! c') as [a|]; simpl; [| done].
  destruct (all_blobs_modified_by_commit (commit a)) as [blobs|]; simpl;
    [| done].
  intros [= <-].
  generalize (map_to_list (calculate_function_complexities blobs)).
  intros items. revert st Hst.
  induction items as [|[function complexity] items IH]; intros st Hst;
    [done |].
  simpl. apply IH. destruct st as [h pfc]. simpl.
  destruct (bool_decide (function ∈ cf)); [| done].
  by apply update_complex_function_keeps.
Qed.

End QuietAnalyzers.

Section RowsLeftOut.
Context `{!External}.

Lemma distance_kept_by_quiet r v g c (h : Heap) :
  quiet g ->
  (exists ac, h !! r = Some ac /\ levenshteinDistance ac = v) ->
  exists ac, alter g c h !! r = Some ac /\ levenshteinDistance ac = v.
Proof.
  intros Hg (ac & Hac & Hd). rewrite list_lookup_alter.
  destruct (decide (c = r)) as [->|Hne]; [| by exists ac].
  rewrite Hac. eexists. split; [done |].
  destruct (Hg ac) as (_ & _ & ->). done.
Qed.

Lemma commitDistance_untouched c parent :
  head (parents c) = Some parent ->
  Forall (fun d => touches_supported d = false) (parent_diff c) ->
  commitDistance c = Some 0.
Proof.
  intros Hparent Hdiffs. unfold commitDistance. rewrite Hparent.
  cbn [mbind option_bind].
  rewrite <- commitDistance_fold_filter.
  replace (filter (fun d => touches_supported d = true) (parent_diff c))
    with (@nil Diff); [done |].
  induction Hdiffs as [|d l Hd _ IH]; [done |].
  rewrite filter_cons_False; [done |]. by rewrite Hd.
Qed.

Lemma tabulate_without_zero (heap : Heap) r ac (data : list ref) :
  heap !! r = Some ac -> levenshteinDistance ac = Some 0 ->
  forall table : list TableRow,
  for_each (fun table c =>
    ac ← heap !! c;
    if bool_decide (levenshteinDistance ac = Some 0) then Some table
    else row ← report_row ac; Some (table ++ [Line row]))
  data table
  = for_each (fun table c =>
      ac ← heap !! c;
      if bool_decide (levenshteinDistance ac = Some 0) then Some table
      else row ← report_row ac; Some (table ++ [Line row]))
    (filter (fun c => c <> r) data) table.
Proof.
  intros Hac Hzero. induction data as [|c data IH]; intros table; [done |].
  rewrite filter_cons. destruct (decide (c <> r)) as [Hne|Heq].
  - cbn [for_each]. destruct (heap !! c) as [a|]; [| done].
    cbn [mbind option_bind].
    destruct (bool_decide (levenshteinDistance a = Some 0));
      cbn [mbind option_bind]; [apply IH |].
    destruct (report_row a) as [row|]; cbn [mbind option_bind];
      [apply IH | done].
  - assert (c = r) as -> by (by destruct (decide (c = r))).
    cbn [for_each]. rewrite Hac. cbn [mbind option_bind].
    rewrite bool_decide_true by done. cbn [mbind option_bind]. apply IH.
Qed.

(** X17.  A commit of [data] that has a previous record and whose diffs
    touch no file with a supported extension gets the distance 0, keeps it
    through the analyzers that follow, and has no row in the report: the
    table is the one of the data set without this commit. *)
Theorem commit_outside_supported_files_has_no_row
    (data : list ref) (complex_functions : list string) (w : Z)
    (h3 h4 h5 h6 : Heap) (r : ref) (ac : AnnotatedCommit) :
  analyzeLevenshteinDistance data h3 = Some h4 ->
  analyzeSizeAndComplexity data h4 = Some h5 ->
  analyzeComplexFunctionsContributions data complex_functions h5 = Some h6 ->
  h3 !! r = Some ac -> r ∈ data -> previous ac <> None ->
  Forall (fun d => touches_supported d = false) (parent_diff (commit ac)) ->
  (exists ac', h6 !! r = Some ac' /\ levenshteinDistance ac' = Some 0)
  /\ tabulate h6 data w = tabulate h6 (filter (fun c => c <> r) data) w.
Proof.
  intros Hdistance Hsize Hcontributions Hac Hr Hprevious Hdiffs.
  destruct (analyzeLevenshteinDistance_records _ _ _ Hdistance r ac Hac)
    as (a4 & Ha4 & _ & _ & Hd4).
  rewrite decide_True in Hd4 by done.
  assert (commitDistance (commit ac) = Some 0) as Hzero.
  { destruct (commitDistance (commit ac)) as [d|] eqn:Hd.
    - assert (is_Some (head (parents (commit ac)))) as [parent Hparent].
      { unfold commitDistance in Hd.
        destruct (head (parents (commit ac))); [by eexists | done]. }
      rewrite <- Hd. by apply (commitDistance_untouched _ parent).
    - exfalso. unfold analyzeLevenshteinDistance in Hdistance.
      revert Hd Hac Hr Hprevious Hdistance. clear. intros Hd Hac Hr Hprevious.
      revert h3 Hac. induction data as [|c data IH]; intros h3 Hac Hrun;
        [by apply elem_of_nil in Hr |].
      cbn [for_each] in Hrun.
      destruct (h3 !! c) as [a|] eqn:Ha; [| done].
      cbn [mbind option_bind] in Hrun.
      destruct (decide (c = r)) as [->|Hne].
      + assert (a = ac) as -> by congruence.
        destruct (previous ac); [| done]. by rewrite Hd in Hrun.
      + apply elem_of_cons in Hr as [->|Hr]; [done |].
        destruct (previous a).
        * destruct (commitDistance (commit a)); [| done].
          cbn [mbind option_bind] in Hrun.
          apply (IH Hr _ ltac:(by rewrite list_lookup_alter_ne) Hrun).
        * cbn [mbind option_bind] in Hrun. by apply (IH Hr h3). }
  rewrite Hzero in Hd4.
  assert (exists a, h6 !! r = Some a /\ levenshteinDistance a = Some 0)
    as (a6 & Ha6 & Hd6).
  { apply (analyzeComplexFunctionsContributions_keeps
             (fun h => exists a, h !! r = Some a
                         /\ levenshteinDistance a = Some 0)
             (distance_kept_by_quiet r (Some 0)) data complex_functions h5);
      [| done].
    apply (analyzeSizeAndComplexity_keeps
             (fun h => exists a, h !! r = Some a
                         /\ levenshteinDistance a = Some 0)
             (distance_kept_by_quiet r (Some 0)) data h4); [| done].
    by exists a4. }
  split; [by exists a6 |].
  unfold tabulate. by apply (tabulate_without_zero h6 r a6).
Qed.

End RowsLeftOut.

(** ** The finder over a longer history *)

Section FinderGrowth.
Context `{!External}.

Lemma for_each_app {A S} (body : S -> A -> option S) (l1 l2 : list A) :
  forall s, for_each body (l1 ++ l2) s
            = s1 ← for_each body l1 s; for_each body l2 s1.
Proof.
  induction l1 as [|x l1 IH]; intros s; [done |].
  cbn [for_each app]. destruct (body s x) as [s'|]; [| done].
  cbn [mbind option_bind]. apply IH.
Qed.

Lemma foldl_keeps {A S} (f : S -> A -> S) (P : S -> Prop) :
  (forall s a, P s -> P (f s a)) -> forall l s, P s -> P (foldl f s l).
Proof.
  intros Hf. induction l as [|a l IH]; intros s Hs; [done |].
  cbn [foldl]. by apply IH, Hf.
Qed.

Lemma record_function_grows blob (cf : gmap string Z) function name v :
  (exists v', cf !! name = Some v' /\ v <= v') ->
  exists v', record_function blob cf function !! name = Some v' /\ v <= v'.
Proof.
  intros (v' & Hname & Hle). unfold record_function.
  destruct (cyclomatic_complexity function >? 15); [| by exists v'].
  set (key := blob_path blob +:+ "." +:+ fi_name function).
  destruct (decide (key = name)) as [Heq|Hne].
  - rewrite Heq, Hname, lookup_insert_eq. eexists. split; [done |]. lia.
  - destruct (cf !! key); rewrite lookup_insert_ne by done; by exists v'.
Qed.

Lemma scan_blob_grows filtered_files (cf : gmap string Z) blob name v :
  (exists v', cf !! name = Some v' /\ v <= v') ->
  exists v', scan_blob filtered_files cf blob !! name = Some v' /\ v <= v'.
Proof.
  intros Hcf. unfold scan_blob.
  destruct (bool_decide (blob_path blob ∈ filtered_files)); [done |].
  apply (foldl_keeps (record_function blob)
           (fun m => exists v', m !! name = Some v' /\ v <= v')); [| done].
  intros m function. apply record_function_grows.
Qed.

(** X18.  Over a longer list of commits [find_complex_functions] loses no
    function and lowers no maximum: what it reports for [data] it reports,
    with the same or a higher complexity, for [data] followed by more
    commits. *)
Theorem find_complex_functions_grows_with_data
    (heap : Heap) (data more : list ref) (filtered_files : list string)
    (m m' : gmap string Z) (name : string) (v : Z) :
  find_complex_functions heap data filtered_files = Some m ->
  find_complex_functions heap (data ++ more) filtered_files = Some m' ->
  m !! name = Some v ->
  exists v', m' !! name = Some v' /\ v <= v'.
Proof.
  unfold find_complex_functions. rewrite for_each_app.
  destruct (for_each _ data _) as [st|]; [| done].
  cbn [mbind option_bind fmap option_fmap option_map].
  intros [= <-] Hmore Hname.
  destruct (for_each _ more st) as [st'|] eqn:Hloop; [| done].
  cbn [fmap option_fmap option_map] in Hmore. injection Hmore as <-.
  apply (for_each_preserves _
           (fun st => exists v', st.2 !! name = Some v' /\ v <= v'))
    in Hloop; [done | | by exists v].
  clear. intros st c st' Hst.
  destruct (heap !! c) as [ac|]; cbn [mbind option_bind]; [| done].
  destruct (blobs_to_scan (S st.1) (commit ac)) as [blobs|];
    cbn [mbind option_bind]; [| done].
  intros [= <-]. cbn [snd].
  apply (foldl_keeps (scan_blob filtered_files)
           (fun m => exists v', m !! name = Some v' /\ v <= v')); [| done].
  intros m blob. apply scan_blob_grows.
Qed.

End FinderGrowth.

(** ** The functions and the blobs that are re-measured *)

Section Remeasured.
Context `{!External}.

Lemma foldl_insert_lookup (l : list (string * Z)) key :
  forall m0 : gmap string Z,
  let m := foldl (fun m item => <[item.1 := item.2]> m) m0 l in
  (forall v, m !! key = Some v -> (key, v) ∈ l \/ m0 !! key = Some v)
  /\ ((is_Some (m0 !! key) \/ exists v, (key, v) ∈ l) -> is_Some (m !! key)).
Proof.
  induction l as [|[k x] l IH]; intros m0; cbn [foldl].
  - split; [by right |]. intros [Hm|[v Hv]]; [done |].
    by apply elem_of_nil in Hv.
  - destruct (IH (<[k := x]> m0)) as [Hsound Hcomplete]. split.
    + intros v Hv. destruct (Hsound v Hv) as [Hin|Hm]; [left; by right |].
      cbn [fst snd] in Hm. destruct (decide (k = key)) as [->|Hne].
      * rewrite lookup_insert_eq in Hm. injection Hm as ->. left. by left.
      * rewrite lookup_insert_ne in Hm by done. by right.
    + intros Hkey. apply Hcomplete. cbn [fst snd].
      destruct (decide (k = key)) as [->|Hne].
      * left. rewrite lookup_insert_eq. by eexists.
      * rewrite lookup_insert_ne by done.
        destruct Hkey as [Hm|[v Hv]]; [by left |].
        apply elem_of_cons in Hv as [[= ? ?]|Hv]; [done |].
        right. by exists v.
Qed.

Lemma calculate_function_complexities_fold (items : list (string * Blob)) :
  forall m0 : gmap string Z,
  foldl (fun function_complexities item =>
           foldl (fun fc function =>
                    <[fst item +:+ "." +:+ fi_name function
                      := cyclomatic_complexity function]> fc)
                 function_complexities
                 (analyze_source_code (blob_name (snd item))
                                      (blob_text (snd item))))
        m0 items
  = foldl (fun m item => <[item.1 := item.2]> m) m0
          (items ≫= measured_functions).
Proof.
  induction items as [|item items IH]; intros m0; [done |].
  cbn [foldl]. rewrite IH, bind_cons, foldl_app. f_equal.
  unfold measured_functions. by rewrite foldl_fmap.
Qed.

(** X19.  [calculate_function_complexities] records a complexity under
    [path.name] exactly for the functions that measuring the blobs
    yields: an entry is the complexity of a function of a blob of the
    dictionary, under the path of that blob, and every function of every
    blob has an entry. *)
Theorem calculate_function_complexities_entries
    (blobs : gmap string Blob) (key : string) :
  (forall v, calculate_function_complexities blobs !! key = Some v ->
     exists path blob function,
       blobs !! path = Some blob
       /\ function ∈ analyze_source_code (blob_name blob) (blob_text blob)
       /\ key = path +:+ "." +:+ fi_name function
       /\ v = cyclomatic_complexity function)
  /\ (forall path blob function,
        blobs !! path = Some blob ->
        function ∈ analyze_source_code (blob_name blob) (blob_text blob) ->
        key = path +:+ "." +:+ fi_name function ->
        is_Some (calculate_function_complexities blobs !! key)).
Proof.
  unfold calculate_function_complexities.
  rewrite calculate_function_complexities_fold.
  destruct (foldl_insert_lookup (map_to_list blobs ≫= measured_functions)
              key ∅) as [Hsound Hcomplete].
  split.
  - intros v Hv. destruct (Hsound v Hv) as [Hin|Hempty];
      [| by rewrite lookup_empty in Hempty].
    apply list_elem_of_bind in Hin as ([path blob] & Hin & Hitem).
    apply list_elem_of_fmap in Hin as (function & [= -> ->] & Hfunction).
    apply elem_of_map_to_list in Hitem. by exists path, blob, function.
  - intros path blob function Hblob Hfunction ->. apply Hcomplete. right.
    exists (cyclomatic_complexity function).
    apply list_elem_of_bind. exists (path, blob).
    split; [| by apply elem_of_map_to_list].
    apply list_elem_of_fmap. by exists function.
Qed.

Lemma modified_blobs_fold (diffs : list Diff) : forall m0 : gmap string Blob,
  foldl (fun blobs diff =>
           match b_blob diff with
           | Some blob =>
               if extension_supported (blob_path blob)
               then <[blob_path blob := blob]> blobs else blobs
           | None => blobs
           end) m0 diffs
  = foldl (fun blobs blob =>
             if extension_supported (blob_path blob)
             then <[blob_path blob := blob]> blobs else blobs)
          m0 (omap b_blob diffs).
Proof.
  induction diffs as [|d diffs IH]; intros m0; [done |].
  cbn [foldl omap list_omap]. destruct (b_blob d); cbn [foldl]; apply IH.
Qed.

Lemma scanned_blobs_fold (diffs : list Diff) : forall l0 : list Blob,
  foldl (fun blobs diff =>
           match b_blob diff with
           | Some blob =>
               if extension_supported (blob_path blob)
               then blobs ++ [blob] else blobs
           | None => blobs
           end) l0 diffs
  = foldl (fun blobs blob =>
             if extension_supported (blob_path blob)
             then blobs ++ [blob] else blobs)
          l0 (omap b_blob diffs).
Proof.
  induction diffs as [|d diffs IH]; intros l0; [done |].
  cbn [foldl omap list_omap]. destruct (b_blob d); cbn [foldl]; apply IH.
Qed.

(** X20.  For a commit with a parent, [all_blobs_modified_by_commit]
    holds, under their paths, the blobs on the new side of its diffs that
    have a supported extension, and these are the blobs that
    [find_complex_functions] scans for every commit but the first: the
    two tools re-measure the same files. *)
Theorem modified_blobs_are_the_scanned_blobs
    (c parent : Commit) (i : nat) (path : string) :
  head (parents c) = Some parent ->
  exists m,
    all_blobs_modified_by_commit c = Some m
    /\ blobs_to_scan (S (S i)) c
       = Some (filter supported_blob (new_blobs c))
    /\ (forall blob, m !! path = Some blob ->
          blob ∈ filter supported_blob (new_blobs c)
          /\ blob_path blob = path)
    /\ ((exists blob, blob ∈ filter supported_blob (new_blobs c)
                      /\ blob_path blob = path)
        -> is_Some (m !! path)).
Proof.
  intros Hparent. unfold all_blobs_modified_by_commit, blobs_to_scan.
  rewrite Hparent. cbn [mbind option_bind Nat.eqb].
  eexists. split; [reflexivity |].
  rewrite scanned_blobs_fold, own_blobs_append, modified_blobs_fold.
  split; [done |].
  destruct (own_blobs_indexes (new_blobs c) ∅ [] indexes_empty path)
    as [Hsound Hcomplete].
  fold (new_blobs c). cbn [app] in *. split.
  - intros blob Hblob. destruct (Hsound _ Hblob) as (Hin & Hpath & Hsup).
    split; [| done]. by apply list_elem_of_filter.
  - intros (blob & Hin & Hpath). apply Hcomplete. exists blob.
    apply list_elem_of_filter in Hin as [Hsup Hin]. done.
Qed.

End Remeasured.

(** ** What the finder measures *)

Section FinderPlan.
Context `{!External}.

Lemma blobs_to_scan_first (c : Commit) :
  blobs_to_scan 1 c = Some (filter supported_blob (blobs_of_tree (tree c))).
Proof.
  unfold blobs_to_scan. cbn [Nat.eqb]. by rewrite append_blobs_filter.
Qed.

Lemma blobs_to_scan_later (i : nat) (c : Commit) :
  blobs_to_scan (S (S i)) c
  = if has_parent c then Some (filter supported_blob (new_blobs c))
    else None.
Proof.
  unfold blobs_to_scan, has_parent. cbn [Nat.eqb].
  destruct (parents c) as [|parent others]; [done |].
  cbn [head mbind option_bind].
  by rewrite scanned_blobs_fold, own_blobs_append.
Qed.

Lemma scanned_from_later (heap : Heap) (data : list ref) : forall i,
  scanned_from heap (S i) data
  = commits ← commits_at heap data;
    if forallb has_parent commits
    then Some (commits ≫= fun c => filter supported_blob (new_blobs c))
    else None.
Proof.
  unfold commits_at.
  induction data as [|c data IH]; intros i; [done |].
  cbn [scanned_from mapM]. rewrite IH.
  destruct (heap !! c) as [ac|]; [| done].
  cbn [fmap option_fmap option_map mbind option_bind].
  rewrite blobs_to_scan_later.
  destruct (mapM _ data) as [commits|];
    cbn [mbind option_bind mret option_ret forallb];
    [| by destruct (has_parent (commit ac))].
  destruct (has_parent (commit ac)); cbn [mbind option_bind andb]; [| done].
  by destruct (forallb has_parent commits).
Qed.

(** C6: scanning the full tree of the first analyzable commit and then
    only the files each later commit changed, [find_complex_functions]
    maps a fully-qualified function name (path, ".", function name) to [m]
    exactly when [m] exceeds 15, was observed for that name, and no higher
    complexity was observed for it during the whole walk; a name never
    observed above 15 is not mapped.  The files measured are every
    supported file of the tree of the first commit and the supported new
    sides of the diffs of each later commit; the finder raises when a
    later commit has no parent to be compared with. *)
Theorem find_complex_functions_running_maximum (heap : Heap)
    (data : list ref) (filtered_files : list string) :
  match commits_at heap data with
  | Some commits =>
      if forallb has_parent (tail commits) then
        exists complex_functions,
          find_complex_functions heap data filtered_files
          = Some complex_functions
          /\ running_maximum
               (observations filtered_files (files_to_measure commits))
               complex_functions
      else find_complex_functions heap data filtered_files = None
  | None => find_complex_functions heap data filtered_files = None
  end.
Proof.
  unfold find_complex_functions. rewrite find_complex_functions_loop.
  destruct data as [|c data].
  { cbn. eexists. split; [done |]. apply running_maximum_nil. }
  unfold commits_at.
  cbn [scanned_from mapM]. rewrite scanned_from_later.
  unfold commits_at.
  destruct (heap !! c) as [ac|]; [| done].
  cbn [fmap option_fmap option_map mbind option_bind].
  rewrite blobs_to_scan_first. cbn [mbind option_bind].
  destruct (mapM _ data) as [commits|];
    cbn [mbind option_bind mret option_ret tail]; [| done].
  destruct (forallb has_parent commits);
    cbn [mbind option_bind fmap option_fmap option_map]; [| done].
  eexists. split; [done |]. apply running_maximum_fold.
Qed.

End FinderPlan.

(** ** The sign of the distance *)

Section DistanceSign.
Context `{!External}.
Hypothesis editdistance_nonnegative :
  forall a b, 0 <= editdistance_eval a b.

Lemma blob_delta_of_text_nonnegative diff : 0 <= blob_delta_of_text diff.
Proof.
  unfold blob_delta_of_text.
  assert (forall lines st, 0 <= aggregatedDistance st ->
            0 <= aggregatedDistance (fold_left blob_delta_step lines st))
    as Hfold.
  { induction lines as [|line lines IH]; intros st Hst; [done |].
    cbn [fold_left]. apply IH. unfold blob_delta_step.
    destruct (startswith line "---" || startswith line "+++"); [done |].
    destruct (startswith line "+"); [done |].
    destruct (previous_line_was_plus st); [| done].
    cbn [aggregatedDistance].
    pose proof (editdistance_nonnegative
                  (if startswith line "-"
                   then contentA st +:+ drop_first line else contentA st)
                  (contentB st)).
    lia. }
  pose proof (Hfold (split_lines diff)
                (mkDeltaState 0 EmptyString EmptyString false)
                ltac:(done)).
  pose proof (editdistance_nonnegative
                (contentA (fold_left blob_delta_step (split_lines diff)
                   (mkDeltaState 0 EmptyString EmptyString false)))
                (contentB (fold_left blob_delta_step (split_lines diff)
                   (mkDeltaState 0 EmptyString EmptyString false)))).
  lia.
Qed.

Lemma commitDistance_step_nonnegative parent c a d a' :
  0 <= a -> commitDistance_step parent c a d = Some a' -> 0 <= a'.
Proof.
  intros Ha. unfold commitDistance_step, blob_delta.
  assert (forall blob, 0 <= blob_size blob) as Hsize
    by (intros blob; unfold blob_size, len; lia).
  destruct (git_diff (hexsha parent +:+ ":" +:+ a_path d)
                     (hexsha c +:+ ":" +:+ b_path d)) as [diff|];
    [pose proof (blob_delta_of_text_nonnegative diff) |];
    destruct (String.eqb (change_type d) "A"),
      (extension_supported (b_path d)), (b_blob d) as [added|],
      (String.eqb (change_type d) "M" || startswith (change_type d) "R"),
      (String.eqb (change_type d) "D"), (extension_supported (a_path d)),
      (a_blob d) as [removed|];
    cbn [mbind option_bind fmap option_fmap option_map]; intros [= <-];
    try pose proof (Hsize added); try pose proof (Hsize removed); lia.
Qed.

(** X21.  With an edit distance that is never negative, the distance of a
    commit is never negative: 0, the value for which [tabulate] leaves a
    commit out, is the least distance. *)
Theorem commitDistance_nonnegative (c : Commit) (d : Z) :
  commitDistance c = Some d -> 0 <= d.
Proof.
  unfold commitDistance. destruct (head (parents c)) as [parent|]; [| done].
  cbn [mbind option_bind].
  assert (forall l (acc : option Z) d,
            (forall a, acc = Some a -> 0 <= a) ->
            foldl (fun acc diff =>
                     a ← acc; commitDistance_step parent c a diff) acc l
            = Some d -> 0 <= d) as Hfold.
  { induction l as [|diff l IH]; intros acc d' Hacc Hrun.
    - by apply Hacc.
    - cbn [foldl] in Hrun. refine (IH _ _ _ Hrun).
      intros a Ha. destruct acc as [a0|]; [| done].
      cbn [mbind option_bind] in Ha.
      eapply commitDistance_step_nonnegative; [| exact Ha]. by apply Hacc. }
  intros Hrun. refine (Hfold _ _ _ _ Hrun). by intros a [= <-].
Qed.

End DistanceSign.

(** ** Runs that end without an exception *)

Section RunReturns.
Context `{!External}.

Lemma for_each_returns {A S} (body : S -> A -> option S) (P : S -> Prop) l :
  (forall s a, a ∈ l -> P s -> exists s', body s a = Some s' /\ P s') ->
  forall s, P s -> exists s', for_each body l s = Some s' /\ P s'.
Proof.
  induction l as [|a l IH]; intros Hbody s Hs; [by exists s |].
  destruct (Hbody s a) as (s1 & Hs1 & HP1); [by left | done |].
  destruct (IH (fun s a Ha => Hbody s a ltac:(by right)) s1 HP1)
    as (s' & Hs' & HP').
  exists s'. split; [| done]. cbn [for_each]. by rewrite Hs1.
Qed.

Lemma commitDistance_step_returns parent c a d :
  readable d -> comparable parent c d ->
  is_Some (commitDistance_step parent c a d).
Proof.
  intros [Hnew Hold] Hdiff. unfold commitDistance_step.
  assert (forall d2 : Z,
            is_Some (if String.eqb (change_type d) "D" then
                       if extension_supported (a_path d) then
                         blob ← a_blob d; Some (d2 + blob_size blob)
                       else Some d2
                     else Some d2)) as Hlast.
  { intros d2. destruct (String.eqb (change_type d) "D") eqn:HD;
      [| by eexists].
    destruct (extension_supported (a_path d)) eqn:Ha; [| by eexists].
    destruct (Hold eq_refl eq_refl) as [old ->]. by eexists. }
  assert (forall d1 : Z,
            is_Some
              (d2 ← (if String.eqb (change_type d) "M"
                        || startswith (change_type d) "R" then
                       if extension_supported (b_path d) then
                         delta ← blob_delta (hexsha parent +:+ ":" +:+ a_path d)
                                            (hexsha c +:+ ":" +:+ b_path d);
                         Some (d1 + delta)
                       else Some d1
                     else Some d1);
               if String.eqb (change_type d) "D" then
                 if extension_supported (a_path d) then
                   blob ← a_blob d; Some (d2 + blob_size blob)
                 else Some d2
               else Some d2)) as Hmiddle.
  { intros d1. unfold comparable in Hdiff.
    destruct (String.eqb (change_type d) "M"
              || startswith (change_type d) "R");
      [| cbn [mbind option_bind]; apply Hlast].
    destruct (extension_supported (b_path d));
      [| cbn [mbind option_bind]; apply Hlast].
    unfold blob_delta. destruct (Hdiff eq_refl eq_refl) as [text ->].
    cbn [fmap option_fmap option_map mbind option_bind]. apply Hlast. }
  destruct (String.eqb (change_type d) "A") eqn:HA;
    [| cbn [mbind option_bind]; apply Hmiddle].
  destruct (extension_supported (b_path d)) eqn:Hb;
    [| cbn [mbind option_bind]; apply Hmiddle].
  destruct (Hnew eq_refl eq_refl) as [blob ->].
  cbn [mbind option_bind]. apply Hmiddle.
Qed.

Lemma commitDistance_returns c parent :
  head (parents c) = Some parent ->
  Forall readable (parent_diff c) ->
  Forall (comparable parent c) (parent_diff c) ->
  is_Some (commitDistance c).
Proof.
  intros Hparent Hdiffs Hcomparable. unfold commitDistance. rewrite Hparent.
  cbn [mbind option_bind]. generalize 0.
  induction Hdiffs as [|d l Hd _ IH]; intros a; [by eexists |].
  apply Forall_cons in Hcomparable as [Hc Hrest].
  cbn [foldl mbind option_bind].
  destruct (commitDistance_step_returns parent c a d Hd Hc) as [a' ->].
  by apply IH.
Qed.

Lemma tree_delta_step_returns m d :
  readable d -> is_Some (tree_delta_step m d).
Proof.
  intros [Hnew _]. unfold tree_delta_step.
  destruct (extension_supported (b_path d)) eqn:Hb.
  - destruct (String.eqb (change_type d) "A") eqn:HA,
      (String.eqb (change_type d) "M") eqn:HM,
      (startswith (change_type d) "R") eqn:HR; cbn [orb];
      try (destruct (Hnew eq_refl eq_refl) as [blob ->]);
      cbn [mbind option_bind]; by eexists.
  - destruct (String.eqb (change_type d) "A" || String.eqb (change_type d) "M"),
      (startswith (change_type d) "R"); cbn [mbind option_bind]; by eexists.
Qed.

Lemma tree_delta_returns c parent :
  head (parents c) = Some parent ->
  Forall readable (parent_diff c) ->
  is_Some (tree_delta c).
Proof.
  intros Hparent Hdiffs. unfold tree_delta. rewrite Hparent.
  cbn [mbind option_bind].
  generalize (∅ : gmap string (option BlobStats.t)).
  induction Hdiffs as [|d l Hd _ IH]; intros m; [by eexists |].
  cbn [foldl mbind option_bind].
  destruct (tree_delta_step_returns m d Hd) as [m' ->]. apply IH.
Qed.

Lemma chain_linked_quiet raw g c (h : Heap) :
  quiet g -> chain_linked raw h -> chain_linked raw (alter g c h).
Proof.
  intros Hg. apply chain_linked_alter. intros a.
  destruct (Hg a) as (Hc & Hp & _). done.
Qed.

Lemma chain_linked_lookup raw (h : Heap) r c :
  chain_linked raw h -> raw !! r = Some c ->
  exists ac, h !! r = Some ac /\ commit ac = c.
Proof.
  intros [Hlen Hlink] Hc.
  destruct (lookup_lt_is_Some_2 h r) as [ac Hac].
  { rewrite Hlen. by apply lookup_lt_Some in Hc. }
  exists ac. split; [done |].
  destruct (Hlink _ _ Hac) as [Hraw _]. congruence.
Qed.

Section Processable.
Variable raw : list Commit.
Variable data : list ref.
Hypothesis data_processable :
  forall r, r ∈ data ->
    exists c parent, raw !! r = Some c /\ head (parents c) = Some parent
      /\ processable c.

Lemma analyzeLevenshteinDistance_returns (h : Heap) :
  chain_linked raw h ->
  exists h', analyzeLevenshteinDistance data h = Some h'
    /\ chain_linked raw h'.
Proof.
  unfold analyzeLevenshteinDistance. apply for_each_returns.
  intros s r Hr Hlink.
  destruct (data_processable r Hr)
    as (c & parent & Hc & Hparent & _ & Hdiffs & Hcomparable).
  destruct (chain_linked_lookup raw s r c Hlink Hc) as (ac & Hac & Hcommit).
  rewrite Hac. cbn [mbind option_bind].
  destruct (previous ac); [| by exists s].
  destruct (commitDistance_returns c parent Hparent Hdiffs
              (Hcomparable _ Hparent)) as [d Hd].
  rewrite Hcommit, Hd. cbn [mbind option_bind]. eexists. split; [done |].
  by apply chain_linked_alter.
Qed.

Lemma analyzeSizeAndComplexity_returns (h : Heap) :
  NoDup data -> chain_linked raw h ->
  exists h', analyzeSizeAndComplexity data h = Some h'
    /\ chain_linked raw h'.
Proof.
  intros Hnd Hlink.
  assert (is_Some (analyzeSizeAndComplexity data h)) as [h' Hrun].
  { unfold analyzeSizeAndComplexity.
    destruct data as [|first rest] eqn:Hdata; [by eexists |].
    destruct (data_processable first ltac:(by left))
      as (c & parent & Hc & Hparent & _ & Hdiffs & _).
    destruct (chain_linked_lookup raw h first c Hlink Hc)
      as (ac & Hac & Hcommit).
    rewrite Hac. cbn -[for_each]. unfold size_baseline.
    rewrite Hcommit, Hparent. cbn -[for_each].
    set (t := analyze_tree (tree parent)).
    set (pc := set_absolutes (aggregate_stats_from_blobs t)
                 (AnnotatedCommit_init parent)).
    destruct (analyzeSizeAndComplexity_loop (first :: rest)
                (mkSizeState h t (inl pc)) pc
                (aggregate_stats_from_blobs t) Hnd)
      as (st' & Hloop & _).
    - intros r Hr.
      destruct (data_processable r Hr)
        as (c' & parent' & Hc' & Hparent' & _ & Hd' & _).
      destruct (chain_linked_lookup raw h r c' Hlink Hc')
        as (ac' & Hac' & Hcommit').
      exists ac'. split; [done |]. rewrite Hcommit'.
      by apply (tree_delta_returns c' parent').
    - done.
    - unfold pc. by destruct (aggregate_stats_from_blobs t) as [[] ?].
    - rewrite Hloop. by eexists. }
  exists h'. split; [done |].
  by apply (analyzeSizeAndComplexity_keeps (chain_linked raw)
              (chain_linked_quiet raw) data h h').
Qed.

Lemma analyzeComplexFunctionsContributions_returns cf (h : Heap) :
  chain_linked raw h ->
  exists h', analyzeComplexFunctionsContributions data cf h = Some h'
    /\ chain_linked raw h'.
Proof.
  intros Hlink.
  assert (is_Some (analyzeComplexFunctionsContributions data cf h))
    as [h' Hrun].
  { unfold analyzeComplexFunctionsContributions.
    destruct data as [|first rest] eqn:Hdata; [by eexists |].
    destruct (data_processable first ltac:(by left))
      as (c & parent & Hc & Hparent & _).
    destruct (chain_linked_lookup raw h first c Hlink Hc)
      as (ac & Hac & Hcommit).
    rewrite Hac. cbn -[for_each]. rewrite Hcommit, Hparent.
    cbn -[for_each].
    match goal with
    | |- context [for_each ?b ?l ?s0] =>
        assert (exists st', for_each b l s0 = Some st'
                  /\ chain_linked raw st'.1) as (st' & Hloop & _);
          [apply (for_each_returns b (fun st => chain_linked raw st.1) l) |]
    end.
    - intros st r Hr Hst.
      destruct (data_processable r Hr)
        as (c' & parent' & Hc' & Hparent' & _).
      destruct (chain_linked_lookup raw st.1 r c' Hst Hc')
        as (ac' & Hac' & Hcommit').
      rewrite Hac'. cbn [mbind option_bind].
      unfold all_blobs_modified_by_commit. rewrite Hcommit', Hparent'.
      cbn [mbind option_bind]. eexists. split; [done |].
      apply (foldl_keeps (contribution_step cf r)
               (fun st => chain_linked raw st.1)); [| done].
      intros [h0 pfc] [function complexity] Hh0. cbn [contribution_step fst].
      destruct (bool_decide (function ∈ cf)); [| done].
      by apply (update_complex_function_keeps (chain_linked raw)
                  (chain_linked_quiet raw)).
    - done.
    - rewrite Hloop. by eexists. }
  exists h'. split; [done |].
  by apply (analyzeComplexFunctionsContributions_keeps (chain_linked raw)
              (chain_linked_quiet raw) data cf h h').
Qed.

Lemma tabulate_returns w (h : Heap) :
  chain_linked raw h -> is_Some (tabulate h data w).
Proof.
  intros Hlink. unfold tabulate.
  match goal with
  | |- is_Some (for_each ?b ?l ?s0) =>
      assert (exists table, for_each b l s0 = Some table /\ True)
        as (table & Htable & _);
        [apply (for_each_returns b (fun _ => True) l) |]
  end.
  - intros table r Hr _.
    destruct (data_processable r Hr) as (c & _ & Hc & _ & [iso Hiso] & _).
    destruct (chain_linked_lookup raw h r c Hlink Hc) as (ac & Hac & Hcommit).
    rewrite Hac. cbn [mbind option_bind].
    destruct (bool_decide (levenshteinDistance ac = Some 0)); [by eexists |].
    unfold report_row. rewrite Hcommit, Hiso. cbn [mbind option_bind].
    by eexists.
  - done.
  - by eexists.
Qed.

End Processable.


End RunReturns.

(** ** The properties at the small repository *)

(** X3 at the example: the totals of the last record are those of the
    snapshot after both commits. *)
Lemma recorded_totals_are_snapshot_totals_witness :
  exists first pc t st',
    example_heap !! 1%nat = Some first
    /\ size_baseline first = Some (pc, t)
    /\ for_each analyzeSizeAndComplexity_step example_data
         (mkSizeState example_heap t (inl pc)) = Some st'
    /\ exists last,
         deref (ss_heap st') (ss_previous_commit st') = Some last
         /\ absolutes last
            = Some (aggregate_stats_from_blobs (ss_previous_tree st')).
Proof.
  destruct (example_heap !! 1%nat) as [first|] eqn:Hfirst;
    [| vm_compute in Hfirst; discriminate].
  destruct (size_baseline first) as [[pc t]|] eqn:Hbase.
  2: { exfalso. vm_compute in Hfirst. injection Hfirst as <-.
       vm_compute in Hbase. discriminate. }
  destruct (for_each analyzeSizeAndComplexity_step example_data
              (mkSizeState example_heap t (inl pc))) as [st'|] eqn:Hrun.
  2: { exfalso. vm_compute in Hfirst. injection Hfirst as <-.
       vm_compute in Hbase. injection Hbase as <- <-.
       vm_compute in Hrun. discriminate. }
  exists first, pc, t, st'. do 3 (split; [done |]).
  exact (recorded_totals_are_snapshot_totals first pc t example_heap
           example_data st' Hbase Hrun).
Defined.

(** X7 at the example: [b.c], which the snapshot holds after the rename,
    has a supported extension. *)
Lemma snapshot_holds_supported_paths_only_witness :
  exists first pc t st',
    example_heap !! 1%nat = Some first
    /\ size_baseline first = Some (pc, t)
    /\ for_each analyzeSizeAndComplexity_step example_data
         (mkSizeState example_heap t (inl pc)) = Some st'
    /\ is_Some (ss_previous_tree st' !! "b.c")
    /\ extension_supported "b.c" = true.
Proof.
  destruct (example_heap !! 1%nat) as [first|] eqn:Hfirst;
    [| vm_compute in Hfirst; discriminate].
  destruct (size_baseline first) as [[pc t]|] eqn:Hbase.
  2: { exfalso. vm_compute in Hfirst. injection Hfirst as <-.
       vm_compute in Hbase. discriminate. }
  destruct (for_each analyzeSizeAndComplexity_step example_data
              (mkSizeState example_heap t (inl pc))) as [st'|] eqn:Hrun.
  2: { exfalso. vm_compute in Hfirst. injection Hfirst as <-.
       vm_compute in Hbase. injection Hbase as <- <-.
       vm_compute in Hrun. discriminate. }
  assert (is_Some (ss_previous_tree st' !! "b.c")) as Hpath.
  { vm_compute in Hfirst. injection Hfirst as <-.
    vm_compute in Hbase. injection Hbase as <- <-.
    vm_compute in Hrun. injection Hrun as <-. vm_compute. by eexists. }
  exists first, pc, t, st'. do 4 (split; [done |]).
  exact (snapshot_holds_supported_paths_only first pc t example_heap
           example_data st' "b.c" Hbase Hrun Hpath).
Defined.

(** X9 at a diff that replaces a line starting with two dashes by one
    starting with two pluses. *)
Lemma blob_delta_skips_lines_of_three_signs_witness :
  split_lines undashed_diff
  = filter (fun line => is_header line = false) (split_lines dashed_diff)
  /\ blob_delta_of_text undashed_diff = blob_delta_of_text dashed_diff.
Proof.
  assert (split_lines undashed_diff
          = filter (fun line => is_header line = false)
                   (split_lines dashed_diff)) as Hlines
    by (vm_compute; reflexivity).
  split; [exact Hlines |].
  exact (blob_delta_skips_lines_of_three_signs dashed_diff undashed_diff
           Hlines).
Defined.

(** X11 at a function that is raised from 17 to 20: the map holds the new
    value. *)
Lemma commit_contributions_are_summed_witness :
  exists ac,
    complex_heap !! 1%nat = Some ac
    /\ (foldl (contribution_step ["h.c.h"] 1%nat)
              (complex_heap, <["h.c.h" := 17]> ∅)
              (map_to_list (<["h.c.h" := 20]> ∅ : gmap string Z))).2
       = (<["h.c.h" := 20]> ∅ : gmap string Z) ∪ <["h.c.h" := 17]> ∅.
Proof.
  exists (AnnotatedCommit_init k2). split; [reflexivity |].
  exact (proj1 (commit_contributions_are_summed ["h.c.h"] 1%nat complex_heap
                  (<["h.c.h" := 17]> ∅) (<["h.c.h" := 20]> ∅)
                  (AnnotatedCommit_init k2) eq_refl)).
Defined.

(** X12 at the example. *)
Lemma no_complex_functions_no_contributions_witness :
  exists h',
    analyzeComplexFunctionsContributions example_data [] example_sized
    = Some h'
    /\ h' = example_sized.
Proof.
  destruct (analyzeComplexFunctionsContributions example_data []
              example_sized) as [h'|] eqn:Hrun;
    [| vm_compute in Hrun; discriminate].
  exists h'. split; [done |].
  exact (no_complex_functions_no_contributions example_data example_sized h'
           Hrun).
Defined.

(** X13 at the example, for a window of one day: [c3] follows [c1], by
    the same author, within the day. *)
Lemma days_since_previous_commit_within_window_witness :
  exists h ac d,
    iter_commits example_repo "main" = inr example_log
    /\ createDataSet example_repo "main" 0 1000
         (parseActiveCommiterInterval 1) ["bot"] []
       = Done (example_heap, example_data)
    /\ analyze_activity example_data (parseActiveCommiterInterval 1)
         example_heap = Some h
    /\ 3%nat ∈ example_data
    /\ h !! 3%nat = Some ac
    /\ daysSincePreviousCommitByDeveloper ac = Some d
    /\ d < Z.max 1 1.
Proof.
  assert (createDataSet example_repo "main" 0 1000
            (parseActiveCommiterInterval 1) ["bot"] []
          = Done (example_heap, example_data)) as Hdone
    by (vm_compute; reflexivity).
  assert (3%nat ∈ example_data) as Hin
    by (change example_data with [1%nat; 3%nat]; right; left).
  destruct (analyze_activity example_data (parseActiveCommiterInterval 1)
              example_heap) as [h|] eqn:Hrun;
    [| vm_compute in Hrun; discriminate].
  destruct (h !! 3%nat) as [ac|] eqn:Hac.
  2: { exfalso. vm_compute in Hrun. injection Hrun as <-.
       vm_compute in Hac. discriminate. }
  destruct (daysSincePreviousCommitByDeveloper ac) as [d|] eqn:Hd.
  2: { exfalso. vm_compute in Hrun. injection Hrun as <-.
       vm_compute in Hac. injection Hac as <-. vm_compute in Hd.
       discriminate. }
  exists h, ac, d. do 6 (split; [done |]).
  exact (proj1 (days_since_previous_commit_within_window example_repo "main"
                  0 1000 1 ["bot"] [] example_log example_heap h example_data
                  3%nat ac d eq_refl Hdone Hrun ltac:(vm_compute; discriminate)
                  Hin Hac Hd)).
Defined.

(** X14 at the example, for an interval of no days from the start of
    1970, a date that the toy [secondsToIso] formats. *)
Lemma empty_interval_finds_no_commits_witness :
  iter_commits example_repo "main" = inr example_log
  /\ 0 <= 0
  /\ - 2 ^ 52 < 0 < 2 ^ 52
  /\ - 2 ^ 52 <= 0 * 60 * 60 * 24
  /\ parseEndTime 0 0 = Some 0
  /\ createDataSet example_repo "main" 0 0 0 ["bot"] []
     = Halt (NoCommitsFound "main" 0 0).
Proof.
  assert (- 2 ^ 52 < 0 < 2 ^ 52) as Hstart by (vm_compute; done).
  assert (- 2 ^ 52 <= 0 * 60 * 60 * 24) as Hbound
    by (vm_compute; discriminate).
  split; [reflexivity |]. split; [lia |].
  split; [exact Hstart |]. split; [exact Hbound |].
  exact (empty_interval_finds_no_commits example_repo "main" 0 0 0
           ["bot"] [] example_log eq_refl ltac:(lia) Hstart Hbound).
Defined.

(** X16 at the example: the record of [c3] gets the distance of [c3]. *)
Lemma analyzeLevenshteinDistance_sets_commitDistance_witness :
  exists h' ac ac',
    analyzeLevenshteinDistance example_data example_heap = Some h'
    /\ example_heap !! 3%nat = Some ac
    /\ h' !! 3%nat = Some ac'
    /\ levenshteinDistance ac'
       = if decide (3%nat ∈ example_data /\ previous ac <> None)
         then commitDistance (commit ac) else levenshteinDistance ac.
Proof.
  destruct (analyzeLevenshteinDistance example_data example_heap)
    as [h'|] eqn:Hrun; [| vm_compute in Hrun; discriminate].
  destruct (example_heap !! 3%nat) as [ac|] eqn:Hac;
    [| vm_compute in Hac; discriminate].
  destruct (analyzeLevenshteinDistance_sets_commitDistance example_data
              example_heap h' 3%nat ac Hrun Hac)
    as (ac' & Hac' & _ & _ & Hdistance).
  exists h', ac, ac'. done.
Defined.

(** X17 at the longer log: [c4] changes only [README] and has no row. *)
Lemma commit_outside_supported_files_has_no_row_witness :
  exists h4 h5 h6 ac,
    analyzeLevenshteinDistance longer_data longer_heap = Some h4
    /\ analyzeSizeAndComplexity longer_data h4 = Some h5
    /\ analyzeComplexFunctionsContributions longer_data [] h5 = Some h6
    /\ longer_heap !! 4%nat = Some ac
    /\ 4%nat ∈ longer_data
    /\ previous ac <> None
    /\ Forall (fun d => touches_supported d = false)
              (parent_diff (commit ac))
    /\ tabulate h6 longer_data 0
       = tabulate h6 (filter (fun c => c <> 4%nat) longer_data) 0.
Proof.
  destruct (analyzeLevenshteinDistance longer_data longer_heap)
    as [h4|] eqn:H4; [| vm_compute in H4; discriminate].
  destruct (analyzeSizeAndComplexity longer_data h4) as [h5|] eqn:H5.
  2: { exfalso. vm_compute in H4. injection H4 as <-.
       vm_compute in H5. discriminate. }
  destruct (analyzeComplexFunctionsContributions longer_data [] h5)
    as [h6|] eqn:H6.
  2: { exfalso. vm_compute in H4. injection H4 as <-.
       vm_compute in H5. injection H5 as <-.
       vm_compute in H6. discriminate. }
  assert (longer_heap !! 4%nat
          = Some (set_previous (Some 3%nat) (AnnotatedCommit_init c4)))
    as Hac by reflexivity.
  assert (4%nat ∈ longer_data) as Hin
    by (change longer_data with [1%nat; 3%nat; 4%nat]; right; right; left).
  assert (previous (set_previous (Some 3%nat) (AnnotatedCommit_init c4))
          <> None) as Hprevious by discriminate.
  assert (Forall (fun d => touches_supported d = false)
            (parent_diff
               (commit (set_previous (Some 3%nat) (AnnotatedCommit_init c4)))))
    as Hdiffs by (repeat constructor).
  exists h4, h5, h6, (set_previous (Some 3%nat) (AnnotatedCommit_init c4)).
  do 7 (split; [done |]).
  exact (proj2 (commit_outside_supported_files_has_no_row longer_data [] 0
                  longer_heap h4 h5 h6 4%nat _ H4 H5 H6 Hac Hin Hprevious
                  Hdiffs)).
Defined.

(** X18 at a function of complexity 17 that the next commit raises. *)
Lemma find_complex_functions_grows_with_data_witness :
  exists m m',
    find_complex_functions complex_heap [0%nat] [] = Some m
    /\ find_complex_functions complex_heap ([0%nat] ++ [1%nat]) [] = Some m'
    /\ m !! "h.c.h" = Some 17
    /\ exists v', m' !! "h.c.h" = Some v' /\ 17 <= v'.
Proof.
  destruct (find_complex_functions complex_heap [0%nat] []) as [m|] eqn:Hm;
    [| vm_compute in Hm; discriminate].
  destruct (find_complex_functions complex_heap ([0%nat] ++ [1%nat]) [])
    as [m'|] eqn:Hm'; [| vm_compute in Hm'; discriminate].
  assert (m !! "h.c.h" = Some 17) as Hname.
  { vm_compute in Hm. injection Hm as <-. vm_compute. reflexivity. }
  exists m, m'. do 3 (split; [done |]).
  exact (find_complex_functions_grows_with_data complex_heap [0%nat] [1%nat]
           [] m m' "h.c.h" 17 Hm Hm' Hname).
Defined.

(** X20 at the rename of [c3]. *)
Lemma modified_blobs_are_the_scanned_blobs_witness :
  head (parents c3) = Some c2
  /\ exists m,
       all_blobs_modified_by_commit c3 = Some m
       /\ blobs_to_scan 2 c3 = Some (filter supported_blob (new_blobs c3)).
Proof.
  split; [reflexivity |].
  destruct (modified_blobs_are_the_scanned_blobs c3 c2 0 "b.c" eq_refl)
    as (m & Hm & Hscan & _).
  exists m. done.
Defined.

(** X21 for the toy edit distance, at the commit that adds [x.c]. *)
Lemma commitDistance_nonnegative_witness :
  (forall a b, 0 <= editdistance_eval a b)
  /\ commitDistance c1 = Some 4
  /\ 0 <= 4.
Proof.
  assert (forall a b, 0 <= editdistance_eval a b) as Hnonnegative
    by (intros a b; simpl; lia).
  assert (commitDistance c1 = Some 4) as Hdistance
    by (vm_compute; reflexivity).
  split; [exact Hnonnegative |]. split; [exact Hdistance |].
  exact (commitDistance_nonnegative Hnonnegative c1 4 Hdistance).
Defined.

